(** * chess-bench (Go): the engine-driving accuracy pipeline

    A shallow embedding of [go/benchmark.go]: the UCI client that drives one
    Stockfish subprocess ([StockfishEngine], [NewStockfishEngine],
    [waitForReady], [analyze], [quit]), the scorer ([wdlToProb],
    [calcAccuracy]), the per-game driver ([analyzeGame]) and the bounded
    fan-out of [main].

    Conventions.
    - A Go [string] is a sequence of bytes: Rocq's [string].
    - A Go [int] is a 64-bit integer.  The program does no integer arithmetic
      on the parsed numbers, so they are [Z], and [strconv.Atoi] carries the
      range check that keeps them inside [int].
    - A run-time panic is [None] in the [option] monad.
    - The standard output of the subprocess is the list of the lines that
      [bufio.Reader.ReadString] hands out, each with its newline, followed by
      end of file.
    - [float64] arithmetic is taken through the interface [Float64Ops], with
      one instance in exact rational arithmetic and one in binary64. *)

From Stdlib Require Import String Ascii List ZArith QArith Qminmax Bool Lia Lqa.
From Stdlib Require Import DecimalString DecimalPos Floats Permutation.
Import ListNotations.

Open Scope string_scope.
Open Scope Z_scope.

(** ** The option monad for code that may panic *)

Definition bind {A B : Type} (m : option A) (k : A -> option B) : option B :=
  match m with
  | Some a => k a
  | None => None
  end.

Notation "x <- m ;; k" := (bind m (fun x => k))
  (at level 61, m at next level, right associativity).

(** ** Go's [strings] package, the part the program calls *)

Module strings.

(** [len(s)] *)
Definition len (s : string) : Z := Z.of_nat (String.length s).

(** [strings.HasPrefix(s, prefix)] *)
Fixpoint HasPrefix (s prefix : string) {struct prefix} : bool :=
  match prefix with
  | EmptyString => true
  | String p prefix' =>
      match s with
      | EmptyString => false
      | String c s' => Ascii.eqb c p && HasPrefix s' prefix'
      end
  end.

(** [strings.Index(s, substr)]: the byte index of the first occurrence, or
    [-1]. *)
Fixpoint Index (s substr : string) : Z :=
  if HasPrefix s substr then 0
  else
    match s with
    | EmptyString => -1
    | String _ s' =>
        let i := Index s' substr in
        if i =? -1 then -1 else i + 1
    end.

(** [strings.Contains(s, substr)] is [Index(s, substr) >= 0]. *)
Definition Contains (s substr : string) : bool := 0 <=? Index s substr.

(** [s[:n]] and [s[n:]] on an index already known to be in range. *)
Fixpoint take (n : nat) (s : string) : string :=
  match n, s with
  | S n', String c s' => String c (take n' s')
  | _, _ => EmptyString
  end.

Fixpoint drop (n : nat) (s : string) : string :=
  match n, s with
  | S n', String _ s' => drop n' s'
  | _, _ => s
  end.

(** The slice expression [s[i:]]: it panics unless [0 <= i <= len(s)]. *)
Definition SliceFrom (s : string) (i : Z) : option string :=
  if (0 <=? i) && (i <=? len s) then Some (drop (Z.to_nat i) s) else None.

(** The loop of [genSplit] for a non-empty separator: [n] counts the cuts
    still allowed; the last piece is the unsplit remainder. *)
Fixpoint genSplit (s sep : string) (n : nat) : list string :=
  match n with
  | O => [s]
  | S n' =>
      let m := Index s sep in
      if m <? 0 then [s]
      else take (Z.to_nat m) s
           :: genSplit (drop (Z.to_nat (m + len sep)) s) sep n'
  end.

(** [strings.SplitN(s, sep, n)] for a non-empty [sep]: [n = 0] gives nil,
    [n < 0] all pieces, [n > 0] at most [n] pieces, and [n] is clamped to
    [len(s) + 1].  (The branch for an empty separator is not reached by
    this program; [sep] is the constant of one space.) *)
Definition SplitN (s sep : string) (n : Z) : list string :=
  if n =? 0 then []
  else
    let n := if n <? 0 then len s + 1 else n in
    let n := if len s + 1 <? n then len s + 1 else n in
    genSplit s sep (Z.to_nat (n - 1)).

(** [strings.ToLower] on ASCII text only: [A]..[Z] move to [a]..[z], every
    other byte stays.  Go maps every letter by its Unicode case, so on a
    string with a byte above 127 this is not Go's function.  The analyzer
    takes the function as a parameter and every property is proved for any
    function; this one is used in the concrete runs alone, whose names are
    ASCII. *)
Definition lower_byte (c : ascii) : ascii :=
  let n := nat_of_ascii c in
  if (Nat.leb 65 n && Nat.leb n 90)%bool then ascii_of_nat (n + 32) else c.

Fixpoint ToLower (s : string) : string :=
  match s with
  | EmptyString => EmptyString
  | String c s' => String (lower_byte c) (ToLower s')
  end.

End strings.

(** ** Go's [strconv.Atoi] and [%d] *)

Module strconv.

Definition is_digit (c : ascii) : bool :=
  let n := nat_of_ascii c in (Nat.leb 48 n && Nat.leb n 57)%bool.

Definition digit_value (c : ascii) : Z := Z.of_nat (nat_of_ascii c) - 48.

(** The decimal value of a string of digits, [None] at the first byte that
    is not a digit. *)
Fixpoint digits (s : string) (acc : Z) : option Z :=
  match s with
  | EmptyString => Some acc
  | String c s' =>
      if is_digit c then digits s' (acc * 10 + digit_value c) else None
  end.

Definition minInt : Z := Eval cbv in - 2 ^ 63.
Definition maxInt : Z := Eval cbv in 2 ^ 63 - 1.

(** [strconv.Atoi(s)]: an optional sign, then at least one decimal digit and
    nothing else, and the value has to fit [int]; [None] is the non-nil
    error. *)
Definition Atoi (s : string) : option Z :=
  let '(neg, body) :=
    match s with
    | String "+" r => (false, r)
    | String "-" r => (true, r)
    | _ => (false, s)
    end in
  match body with
  | EmptyString => None
  | _ =>
      match digits body 0 with
      | None => None
      | Some v =>
          let v := if neg then - v else v in
          if (minInt <=? v) && (v <=? maxInt) then Some v else None
      end
  end.

(** The verb [%d] of [fmt.Sprintf]. *)
Definition Itoa (n : Z) : string := NilEmpty.string_of_int (Z.to_int n).

End strconv.

Import strings strconv.

(** ** The engine session *)

(** A WDL triple in permille, as the engine reports it. *)
Definition WDL : Type := (Z * Z * Z)%type.

(** [w, d, l := 333, 334, 333] *)
Definition defaultWDL : WDL := (333, 334, 333).

(** The body of [if idx := strings.Index(line, " wdl "); idx != -1 { ... }]:
    what one line does to the triple held so far. *)
Definition scanLine (line : string) (held : WDL) : option WDL :=
  let '(w, d, l) := held in
  let idx := Index line " wdl " in
  if negb (idx =? -1) then
    rest <- SliceFrom line (idx + 5) ;;
    let parts := SplitN rest " " 4 in
    if 3 <=? Z.of_nat (length parts) then
      p0 <- nth_error parts 0 ;;
      p1 <- nth_error parts 1 ;;
      p2 <- nth_error parts 2 ;;
      let w := match Atoi p0 with Some v => v | None => w end in
      let d := match Atoi p1 with Some v => v | None => d end in
      let l := match Atoi p2 with Some v => v | None => l end in
      Some (w, d, l)
    else Some (w, d, l)
  else Some (w, d, l).

(** The [for] loop of [analyze] over the lines still to be read.  The empty
    list is the read error at end of file.  The result carries the lines
    left unread. *)
Fixpoint analyzeLoop (reader : list string) (held : WDL)
  : option (WDL * list string) :=
  match reader with
  | [] => Some (held, [])
  | line :: reader' =>
      held' <- scanLine line held ;;
      if HasPrefix line "bestmove" then Some (held', reader')
      else analyzeLoop reader' held'
  end.

(** [StockfishEngine]: the pipes of one subprocess.  [stdin] is what has been
    written to it, oldest first; [reader] is what is still to be read. *)
Record StockfishEngine : Type := {
  stdin : list string;
  reader : list string;
  depth : Z
}.

(** [send]: [io.WriteString(e.stdin, cmd+"\n")], the write error dropped. *)
Definition send (e : StockfishEngine) (cmd : string) : StockfishEngine :=
  {| stdin := stdin e ++ [cmd ++ String (ascii_of_nat 10) ""];
     reader := reader e;
     depth := depth e |}.

(** The loop of [waitForReady]: it returns at the first line that contains
    the token, and also at the read error. *)
Fixpoint waitLoop (reader : list string) (token : string) : list string :=
  match reader with
  | [] => []
  | line :: reader' =>
      if Contains line token then reader' else waitLoop reader' token
  end.

Definition waitForReady (e : StockfishEngine) (token : string)
  : StockfishEngine :=
  {| stdin := stdin e; reader := waitLoop (reader e) token; depth := depth e |}.

(** What [cmd.Start()] meets: the process cannot be started, or it runs and
    will write [stdout] before its pipe closes. *)
Inductive Start : Type :=
| StartFails (err : string)
| Started (stdout : list string).

(** [NewStockfishEngine(threads, depth)]: the engine, or the error of
    [cmd.Start()]. *)
Definition NewStockfishEngine (os : Start) (threads depth : Z)
  : StockfishEngine + string :=
  match os with
  | StartFails err => inr err
  | Started stdout =>
      let e := {| stdin := []; reader := stdout; depth := depth |} in
      let e := send e "uci" in
      let e := waitForReady e "uciok" in
      let e := send e ("setoption name Threads value " ++ Itoa threads) in
      let e := send e "setoption name UCI_ShowWDL value true" in
      let e := send e "isready" in
      let e := waitForReady e "readyok" in
      inl e
  end.

(** [analyze(fen)] *)
Definition analyze (e : StockfishEngine) (fen : string)
  : option (WDL * StockfishEngine) :=
  let e := send e ("position fen " ++ fen) in
  let e := send e ("go depth " ++ Itoa (depth e)) in
  r <- analyzeLoop (reader e) defaultWDL ;;
  Some (fst r, {| stdin := stdin e; reader := snd r; depth := depth e |}).

(** [quit]: the command is written and the process is waited for. *)
Definition quit (e : StockfishEngine) : StockfishEngine := send e "quit".

(** ** The scorer *)

(** The operations of [float64] that the program uses. *)
Class Float64Ops (F : Type) : Type := {
  fadd : F -> F -> F;
  fsub : F -> F -> F;
  fmul : F -> F -> F;
  fdiv : F -> F -> F;
  fge : F -> F -> bool;
  flt : F -> F -> bool;
  ofInt : Z -> F;
  half : F
}.

(** Exact arithmetic: every operation without rounding. *)
#[export] Instance ExactOps : Float64Ops Q := {
  fadd := Qplus;
  fsub := Qminus;
  fmul := Qmult;
  fdiv := Qdiv;
  fge := fun x y => Qle_bool y x;
  flt := fun x y => negb (Qle_bool y x);
  ofInt := inject_Z;
  half := 1 # 2
}.

(** [float64(n)] for [n] in the range of [int], rounded to nearest even. *)
Definition float64_of_int (n : Z) : float :=
  if n =? minInt then PrimFloat.opp 9223372036854775808%float
  else if n <? 0 then PrimFloat.opp (PrimFloat.of_uint63 (Uint63.of_Z (- n)))
  else PrimFloat.of_uint63 (Uint63.of_Z n).

(** IEEE 754 binary64, the arithmetic of the compiled program. *)
#[export] Instance Binary64Ops : Float64Ops float := {
  fadd := PrimFloat.add;
  fsub := PrimFloat.sub;
  fmul := PrimFloat.mul;
  fdiv := PrimFloat.div;
  fge := fun x y => PrimFloat.leb y x;
  flt := PrimFloat.ltb;
  ofInt := float64_of_int;
  half := 0.5%float
}.

Section Scorer.

Context {F : Type} {ops : Float64Ops F}.

(** [wdlToProb(w, d, l, isWhite)] *)
Definition wdlToProb (w d l : Z) (isWhite : bool) : F :=
  let '(w, l) := if negb isWhite then (l, w) else (w, l) in
  fdiv (fadd (ofInt w) (fmul (ofInt d) half)) (ofInt 1000).

(** [calcAccuracy(before, after)] *)
Definition calcAccuracy (before after : F) : F :=
  if fge after before then ofInt 100
  else
    let acc :=
      fmul (ofInt 100)
           (fsub (ofInt 1) (fmul (fsub before after) (ofInt 2))) in
    if flt acc (ofInt 0) then ofInt 0 else acc.

(** The aggregation at the end of [analyzeGame], for one side:
    [if len(accs) > 0 { for ... { a += x }; a /= float64(len(accs)) }]. *)
Definition meanAcc (accs : list F) : F :=
  if 0 <? Z.of_nat (length accs)
  then fdiv (fold_left fadd accs (ofInt 0)) (ofInt (Z.of_nat (length accs)))
  else ofInt 0.

End Scorer.

(** ** The chess library, at the interface the program uses

    [github.com/notnil/chess] is not part of the program.  [PGN] stands for
    [chess.PGN] followed by [chess.NewGame(pgn).Moves()], with [None] for the
    decoding error; [NewGame] is [chess.NewGame()]; [DoMove] is [Game.Move],
    giving the game after the call and whether an error came back; [Turn]
    is [Position().Turn()] and [FEN] is [Position().String()]. *)

Module chess.

Inductive Color : Type := NoColor | White | Black.

Definition Color_eqb (a b : Color) : bool :=
  match a, b with
  | NoColor, NoColor | White, White | Black, Black => true
  | _, _ => false
  end.

Record Library : Type := {
  Game : Type;
  Move : Type;
  PGN : string -> option (list Move);
  NewGame : Game;
  DoMove : Game -> Move -> Game * bool;
  Turn : Game -> Color;
  FEN : Game -> string
}.

(** The side that moves after [c]. *)
Definition opposite (c : Color) : Color :=
  match c with
  | White => Black
  | Black => White
  | NoColor => NoColor
  end.

(** The two rules of chess that the number of moves of each side rests
    on: White moves first, and a move that is accepted passes the turn. *)
Definition Lawful (L : Library) : Prop :=
  Turn L (NewGame L) = White /\
  forall g mv, snd (DoMove L g mv) = false ->
               Turn L (fst (DoMove L g mv)) = opposite (Turn L g).

(** Every move of [mvs] is accepted when they are played in order from
    [pos]. *)
Fixpoint applies (L : Library) (pos : Game L) (mvs : list (Move L)) : bool :=
  match mvs with
  | [] => true
  | mv :: mvs' =>
      negb (snd (DoMove L pos mv)) && applies L (fst (DoMove L pos mv)) mvs'
  end.

End chess.

(** ** The game analyzer *)

Record PlayerData : Type := { Username : string }.

Record GameData : Type := {
  PGN : string;
  White : option PlayerData;
  Black : option PlayerData
}.

(** The six values [analyzeGame] returns, which [main] names [result]. *)
Record result (F : Type) : Type := {
  wa : F;
  ba : F;
  moves : Z;
  white : string;
  black : string;
  ok : bool
}.

Arguments wa {F} _.
Arguments ba {F} _.
Arguments moves {F} _.
Arguments white {F} _.
Arguments black {F} _.
Arguments ok {F} _.

(** What became of the engine session of one call of [analyzeGame]. *)
Inductive Session : Type :=
| NotStarted
| StartFailed (err : string)
| Closed (e : StockfishEngine).

Section GameAnalyzer.

Context {F : Type} {ops : Float64Ops F}.
Variable L : chess.Library.

(** [strings.ToLower], which maps by Unicode case in Go; [strings.ToLower]
    above is what it does on ASCII text. *)
Variable ToLower : string -> string.

(** [return 0, 0, 0, "", "", false] *)
Definition absent : result F :=
  {| wa := ofInt 0; ba := ofInt 0; moves := 0;
     white := ""; black := ""; ok := false |}.

(** The loop [for _, mv := range moves] with the two slices it appends
    to.  The error of [pos.Move(mv)] is not looked at. *)
Fixpoint scoreMoves (mvs : list (chess.Move L)) (pos : chess.Game L)
    (e : StockfishEngine) (prev : WDL) (whiteAcc blackAcc : list F)
  : option (list F * list F * StockfishEngine) :=
  match mvs with
  | [] => Some (whiteAcc, blackAcc, e)
  | mv :: mvs' =>
      let isWhite := chess.Color_eqb (chess.Turn L pos) chess.White in
      let pos := fst (chess.DoMove L pos mv) in
      r <- analyze e (chess.FEN L pos) ;;
      let '((cw, cd, cl), e) := r in
      let '(pw, pd, pl) := prev in
      let acc :=
        calcAccuracy (wdlToProb pw pd pl isWhite)
                     (wdlToProb cw cd cl isWhite) in
      if isWhite
      then scoreMoves mvs' pos e (cw, cd, cl) (whiteAcc ++ [acc])%list blackAcc
      else scoreMoves mvs' pos e (cw, cd, cl) whiteAcc (blackAcc ++ [acc])%list
  end.

(** From [pos := chess.NewGame()] to the end of the loop. *)
Definition replay (mvs : list (chess.Move L)) (e : StockfishEngine)
  : option (list F * list F * StockfishEngine) :=
  let pos := chess.NewGame L in
  r <- analyze e (chess.FEN L pos) ;;
  scoreMoves mvs pos (snd r) (fst r) [] [].

(** The lowered names and the decoded moves of a record that passes the
    checks made before the engine is started. *)
Definition admitted (g : GameData) (username : string)
  : option (string * string * list (chess.Move L)) :=
  if String.eqb (PGN g) "" then None
  else
    let white :=
      match White g with Some p => ToLower (Username p) | None => "" end in
    let black :=
      match Black g with Some p => ToLower (Username p) | None => "" end in
    let target := ToLower username in
    if negb (String.eqb white target) && negb (String.eqb black target)
    then None
    else
      match chess.PGN L (PGN g) with
      | None => None
      | Some mvs =>
          if Z.of_nat (length mvs) =? 0 then None
          else Some (white, black, mvs)
      end.

(** [analyzeGame(g, username, sfThreads, depth)], with what [cmd.Start()]
    would meet, and with the fate of the session next to the result. *)
Definition analyzeGame (g : GameData) (username : string)
    (sfThreads depth : Z) (os : Start) : option (result F * Session) :=
  match admitted g username with
  | None => Some (absent, NotStarted)
  | Some (white, black, mvs) =>
      match NewStockfishEngine os sfThreads depth with
      | inr err => Some (absent, StartFailed err)
      | inl engine =>
          r <- replay mvs engine ;;
          let '(whiteAcc, blackAcc, engine) := r in
          Some ({| wa := meanAcc whiteAcc;
                   ba := meanAcc blackAcc;
                   moves := Z.of_nat (length whiteAcc)
                            + Z.of_nat (length blackAcc);
                   white := white;
                   black := black;
                   ok := true |},
                Closed (quit engine))
      end
  end.

(** The loop [for r := range results] of [main]: the accuracies of the
    target player, the move total and the number of analyzed games. *)
Definition collect (target : string) (rs : list (result F))
  : list F * Z * Z :=
  fold_left
    (fun '(userAcc, totalMoves, analyzed) r =>
       if ok r then
         ((userAcc ++ [if String.eqb (white r) target then wa r else ba r])%list,
          totalMoves + moves r,
          analyzed + 1)
       else (userAcc, totalMoves, analyzed))
    rs ([], 0, 0).

End GameAnalyzer.

(** ** The batch scheduler of [main]

    One goroutine per game; [sem] is a channel of capacity [workers] used
    as a counting semaphore, [results] a channel with room for every game.
    The goroutines are interleaved: a state holds the games the [for] loop
    has not reached yet, the program point of every goroutine started so
    far, the number of values buffered in [sem] and the values sent on
    [results]. *)

Module Scheduler.

(** Where a goroutine stands. *)
Inductive PC : Type :=
| Waiting                      (* at [sem <- struct{}{}] *)
| Holding                      (* in [analyzeGame], no engine started *)
| InSession (stdout : list string)
                               (* in [analyzeGame], engine running *)
| Reporting                    (* result sent, [<-sem] not yet run *)
| Finished.

Record Task : Type := { game : GameData; pc : PC }.

Record State (F : Type) : Type := {
  pending : list GameData;
  tasks : list Task;
  sem : Z;
  results : list (result F)
}.

Arguments pending {F} _.
Arguments tasks {F} _.
Arguments sem {F} _.
Arguments results {F} _.

(** A goroutine holds a slot of [sem] from its send to its receive. *)
Definition holds (p : PC) : bool :=
  match p with
  | Holding | InSession _ | Reporting => true
  | Waiting | Finished => false
  end.

(** It runs a game analysis while it is inside [analyzeGame]. *)
Definition analyzing (p : PC) : bool :=
  match p with
  | Holding | InSession _ => true
  | _ => false
  end.

(** It owns a live engine session. *)
Definition inSession (p : PC) : bool :=
  match p with
  | InSession _ => true
  | _ => false
  end.

Definition count (f : PC -> bool) (ts : list Task) : Z :=
  Z.of_nat (length (filter (fun t => f (pc t)) ts)).

(** The games handed to a goroutine so far, in order. *)
Definition submitted {F : Type} (s : State F) : list GameData :=
  map game (tasks s).

Section Run.

Context {F : Type} {ops : Float64Ops F}.
Variable L : chess.Library.
Variable ToLower : string -> string.
Variables (username : string) (sfThreads depth workers : Z).

(** The state when the [for] loop over [allGames] begins. *)
Definition init (allGames : list GameData) : State F :=
  {| pending := allGames; tasks := []; sem := 0; results := [] |}.

Inductive step : State F -> State F -> Prop :=
| step_go g gs ts n rs :
    (* [wg.Add(1); go func(game GameData) {...}(g)] *)
    step {| pending := g :: gs; tasks := ts; sem := n; results := rs |}
         {| pending := gs;
            tasks := ts ++ [{| game := g; pc := Waiting |}];
            sem := n; results := rs |}
| step_acquire ps ts1 g ts2 n rs :
    (* [sem <- struct{}{}] goes through while the buffer has room *)
    n < workers ->
    step {| pending := ps;
            tasks := ts1 ++ {| game := g; pc := Waiting |} :: ts2;
            sem := n; results := rs |}
         {| pending := ps;
            tasks := ts1 ++ {| game := g; pc := Holding |} :: ts2;
            sem := n + 1; results := rs |}
| step_start ps ts1 g ts2 n rs stdout r e :
    (* [NewStockfishEngine] returns an engine *)
    analyzeGame L ToLower g username sfThreads depth (Started stdout)
      = Some (r, Closed e) ->
    step {| pending := ps;
            tasks := ts1 ++ {| game := g; pc := Holding |} :: ts2;
            sem := n; results := rs |}
         {| pending := ps;
            tasks := ts1 ++ {| game := g; pc := InSession stdout |} :: ts2;
            sem := n; results := rs |}
| step_skip ps ts1 g ts2 n rs os r sess :
    (* [analyzeGame] returns without an engine; [results <- ...] *)
    analyzeGame L ToLower g username sfThreads depth os = Some (r, sess) ->
    (forall e, sess <> Closed e) ->
    step {| pending := ps;
            tasks := ts1 ++ {| game := g; pc := Holding |} :: ts2;
            sem := n; results := rs |}
         {| pending := ps;
            tasks := ts1 ++ {| game := g; pc := Reporting |} :: ts2;
            sem := n; results := rs ++ [r] |}
| step_done ps ts1 g ts2 n rs stdout r e :
    (* the moves are scored, [engine.quit()] runs; [results <- ...] *)
    analyzeGame L ToLower g username sfThreads depth (Started stdout)
      = Some (r, Closed e) ->
    step {| pending := ps;
            tasks := ts1 ++ {| game := g; pc := InSession stdout |} :: ts2;
            sem := n; results := rs |}
         {| pending := ps;
            tasks := ts1 ++ {| game := g; pc := Reporting |} :: ts2;
            sem := n; results := rs ++ [r] |}
| step_release ps ts1 g ts2 n rs :
    (* the deferred [<-sem], then [wg.Done()] *)
    step {| pending := ps;
            tasks := ts1 ++ {| game := g; pc := Reporting |} :: ts2;
            sem := n; results := rs |}
         {| pending := ps;
            tasks := ts1 ++ {| game := g; pc := Finished |} :: ts2;
            sem := n - 1; results := rs |}.

(** The states of a run: [make(chan struct{}, workers)] panics on a
    negative capacity, so a run has [0 <= workers]. *)
Inductive reachable (allGames : list GameData) : State F -> Prop :=
| reach_init : 0 <= workers -> reachable allGames (init allGames)
| reach_step s s' :
    reachable allGames s -> step s s' -> reachable allGames s'.

(** [P] holds now, or a step can be taken and [P] is bound to hold
    later whichever step is taken. *)
Inductive inevitably (P : State F -> Prop) (s : State F) : Prop :=
| inev_now : P s -> inevitably P s
| inev_later :
    (exists s', step s s') ->
    (forall s', step s s' -> inevitably P s') ->
    inevitably P s.

(** What is left to do: it goes down at every step. *)
Definition weight (p : PC) : nat :=
  match p with
  | Waiting => 4
  | Holding => 3
  | InSession _ => 2
  | Reporting => 1
  | Finished => 0
  end.

Definition wsum (ts : list Task) : nat :=
  list_sum (map (fun t => weight (pc t)) ts).

Definition measure (s : State F) : nat :=
  (5 * length (pending s) + wsum (tasks s))%nat.

(** What every state of a run satisfies: [sem] buffers one value per
    goroutine between its send and its receive, never more than its
    capacity, and the games are handed out in order. *)
Definition invariant (allGames : list GameData) (s : State F) : Prop :=
  sem s = count holds (tasks s) /\
  sem s <= workers /\
  (submitted s ++ pending s)%list = allGames.

End Run.

End Scheduler.

(** ** Notions the properties are stated with *)

(** A line bears the WDL marker. *)
Definition bearsWDL (line : string) : bool :=
  negb (Index line " wdl " =? -1).

(** The fields that follow the first marker of a line, cut at single
    spaces, the fourth being the rest of the line; [None] without a
    marker. *)
Definition markerFields (line : string) : option (list string) :=
  let idx := Index line " wdl " in
  if idx =? -1 then None
  else Some (SplitN (drop (Z.to_nat (idx + 5)) line) " " 4).

(** The number in a field, or the number held so far when the field is
    missing or is not an integer. *)
Definition orHeld (field : option string) (held : Z) : Z :=
  match field with
  | Some f => match Atoi f with Some v => v | None => held end
  | None => held
  end.

(** The triple a line carries: the three fields after its marker, when all
    three are integers. *)
Definition wdlOf (line : string) : option WDL :=
  match markerFields line with
  | Some (f0 :: f1 :: f2 :: _) =>
      match Atoi f0, Atoi f1, Atoi f2 with
      | Some w, Some d, Some l => Some (w, d, l)
      | _, _, _ => None
      end
  | _ => None
  end.

(** The last line of a list that bears the marker. *)
Definition lastBearing (lines : list string) : option string :=
  find bearsWDL (rev lines).

(** No line of [lines] announces the best move. *)
Definition noBestmove (lines : list string) : Prop :=
  Forall (fun line => HasPrefix line "bestmove" = false) lines.

(** The engine after the two commands of [analyze] and with [rest] left to
    read. *)
Definition afterAnalyze (e : StockfishEngine) (fen : string)
    (rest : list string) : StockfishEngine :=
  {| stdin := stdin (send (send e ("position fen " ++ fen))
                          ("go depth " ++ Itoa (depth e)));
     reader := rest;
     depth := depth e |}.

(** What one line makes of the triple held so far: with three fields or
    more after the marker, every field that is an integer replaces its
    part; any other line changes nothing. *)
Definition scanned (held : WDL) (line : string) : WDL :=
  let '(w, d, l) := held in
  match markerFields line with
  | Some (f0 :: f1 :: f2 :: _) =>
      (orHeld (Some f0) w, orHeld (Some f1) d, orHeld (Some f2) l)
  | _ => (w, d, l)
  end.

(** The reading of the specification in which the last marker line before
    the best-move line decides, and the default stands without one. *)
Definition lastLineBeforeBestmoveWins : Prop :=
  forall e fen before bm after t,
    reader e = (before ++ bm :: after)%list ->
    noBestmove before ->
    HasPrefix bm "bestmove" = true ->
    match lastBearing before with
    | Some line => wdlOf line
    | None => Some defaultWDL
    end = Some t ->
    analyze e fen = Some (t, afterAnalyze e fen after).

(** The reading of the specification in which every field of a marker line
    that is an integer replaces its part, whatever else the line holds. *)
Definition everyParsedFieldUpdates : Prop :=
  forall line fields w d l,
    markerFields line = Some fields ->
    scanLine line (w, d, l)
    = Some (orHeld (nth_error fields 0) w,
            orHeld (nth_error fields 1) d,
            orHeld (nth_error fields 2) l).

(** The line feed that ends every line [ReadString] returns. *)
Definition LF : string := String (ascii_of_nat 10) "".

(** The two slices [whiteAcc] and [blackAcc] as they stand when the loop of
    [analyzeGame] ends; [None] when the function returns before the loop. *)
Definition accuracyLists {F : Type} {ops : Float64Ops F} (L : chess.Library)
    (ToLower : string -> string) (g : GameData) (username : string)
    (sfThreads depth : Z) (os : Start) : option (list F * list F) :=
  match admitted L ToLower g username with
  | None => None
  | Some (_, _, mvs) =>
      match NewStockfishEngine os sfThreads depth with
      | inr _ => None
      | inl engine =>
          r <- replay L mvs engine ;;
          Some (fst (fst r), snd (fst r))
      end
  end.

(** The arithmetic mean of a list of rationals: its sum over its length. *)
Definition arithmeticMean (xs : list Q) : Q :=
  (fold_right Qplus 0 xs / inject_Z (Z.of_nat (length xs)))%Q.

(** The same in binary64: the values are added in the order of the list,
    starting from 0, and the sum is divided by their number; 0 for a list
    without values. *)
Definition arithmeticMean64 (xs : list float) : float :=
  match xs with
  | [] => 0%float
  | _ :: _ =>
      PrimFloat.div (fold_left PrimFloat.add xs 0%float)
                    (float64_of_int (Z.of_nat (length xs)))
  end.

(** The reading of the specification in which the start-up fails when the
    pipe closes before the token of the handshake has appeared. *)
Definition startupFailsOnClosedPipe : Prop :=
  forall stdout threads depth,
    (forall line, In line stdout -> Contains line "uciok" = false) ->
    exists err,
      NewStockfishEngine (Started stdout) threads depth = inr err.

(** The name [analyzeGame] compares for one side: lowered, and empty for a
    player the record does not have. *)
Definition loweredName (ToLower : string -> string)
    (p : option PlayerData) : string :=
  match p with
  | Some p => ToLower (Username p)
  | None => ""
  end.

(** ** A stand-in for the chess library, for concrete runs

    A game is the number of plies played; a move is [true] when it applies
    and [false] when [Game.Move] rejects it and leaves the game as it was.
    The move text has one byte per move: [m] for a move that applies, [x]
    for one that does not; any other byte is a decoding error. *)

Module Stub.

Fixpoint decode (s : string) : option (list bool) :=
  match s with
  | EmptyString => Some []
  | String c s' =>
      ms <- decode s' ;;
      if Ascii.eqb c "m" then Some (true :: ms)
      else if Ascii.eqb c "x" then Some (false :: ms)
      else None
  end.

Definition lib : chess.Library :=
  {| chess.Game := nat;
     chess.Move := bool;
     chess.PGN := decode;
     chess.NewGame := O;
     chess.DoMove := fun g mv => if mv then (S g, false) else (g, true);
     chess.Turn := fun g => if Nat.even g then chess.White else chess.Black;
     chess.FEN := fun g => "ply " ++ Itoa (Z.of_nat g) |}.

(** What a Stockfish process writes during the handshake. *)
Definition handshake : list string :=
  ["Stockfish 16 by the Stockfish developers" ++ LF;
   "id name Stockfish 16" ++ LF;
   "uciok" ++ LF;
   "readyok" ++ LF].

(** What it writes for one search that ends on the triple [(w, d, l)]. *)
Definition search (w d l : Z) : list string :=
  ["info depth 4 seldepth 5 multipv 1 score cp 20 wdl "
     ++ Itoa w ++ " " ++ Itoa d ++ " " ++ Itoa l
     ++ " nodes 420 nps 210000 pv e2e4" ++ LF;
   "bestmove e2e4 ponder e7e5" ++ LF].

Definition player (name : string) : option PlayerData :=
  Some {| Username := name |}.

(** Four moves that all apply. *)
Definition fourMoves : GameData :=
  {| PGN := "mmmm"; White := player "Hikaru"; Black := player "Fabiano" |}.

(** Four moves of which the second is rejected. *)
Definition rejectedSecond : GameData :=
  {| PGN := "mxmm"; White := player "Hikaru"; Black := player "Fabiano" |}.

(** The output of an engine that answers five searches. *)
Definition fiveSearches : list string :=
  (handshake ++ search 350 400 250 ++ search 300 400 300
   ++ search 320 400 280 ++ search 500 300 200 ++ search 500 300 200)%list.

(** An engine with two evaluations, a best move and one more line to come. *)
Definition searching : StockfishEngine :=
  {| stdin := [];
     reader := ["info depth 3 score cp 31 wdl 400 300 300 nodes 90" ++ LF;
                "info depth 4 score cp 35 wdl 420 290 290 nodes 512" ++ LF;
                "bestmove e2e4 ponder e7e5" ++ LF;
                "info string next" ++ LF];
     depth := 4 |}.

Definition startFEN : string :=
  "rnbqkbnr/pppppppp/8/8/8/8/PPPPPPPP/RNBQKBNR w KQkq - 0 1".

(** A batch of two games with one worker: the first goroutine holds the
    slot, the second game is not handed out yet. *)
Definition oneHolding : Scheduler.State Q :=
  {| Scheduler.pending := [rejectedSecond];
     Scheduler.tasks :=
       [{| Scheduler.game := fourMoves; Scheduler.pc := Scheduler.Holding |}];
     Scheduler.sem := 1;
     Scheduler.results := [] |}.

End Stub.

(** ** The rest of [main]: the archives and the games to analyze *)

(** [strings.Split(s, sep)] is [genSplit(s, sep, 0, -1)]. *)
Definition Split (s sep : string) : list string := SplitN s sep (-1).

(** The index expression [a[i]]: it panics unless [0 <= i < len(a)]. *)
Definition at_ {A : Type} (a : list A) (i : Z) : option A :=
  if (0 <=? i) && (i <? Z.of_nat (length a))
  then nth_error a (Z.to_nat i) else None.

Fixpoint setNth {A : Type} (n : nat) (v : A) (a : list A) : list A :=
  match n, a with
  | O, _ :: t => v :: t
  | S n', h :: t => h :: setNth n' v t
  | _, [] => []
  end.

(** The assignment [a[i] = v], with the same check. *)
Definition assign {A : Type} (a : list A) (i : Z) (v : A) : option (list A) :=
  if (0 <=? i) && (i <? Z.of_nat (length a))
  then Some (setNth (Z.to_nat i) v a) else None.

(** The slice expression [a[:n]] on a slice whose capacity is not below its
    length: it panics on a negative [n] and on [n] over the length. *)
Definition SliceTo {A : Type} (a : list A) (n : Z) : option (list A) :=
  if (0 <=? n) && (n <=? Z.of_nat (length a))
  then Some (firstn (Z.to_nat n) a) else None.

(** The loop
    [for i, j := 0, len(archives)-1; i < j; i, j = i+1, j-1 { swap }];
    [fuel] bounds the number of rounds, and [None] is a panic or the end
    of the fuel. *)
Fixpoint reverseLoop (fuel : nat) (archives : list string) (i j : Z)
  : option (list string) :=
  if i <? j then
    match fuel with
    | O => None
    | S fuel' =>
        ai <- at_ archives i ;;
        aj <- at_ archives j ;;
        archives <- assign archives i aj ;;
        archives <- assign archives j ai ;;
        reverseLoop fuel' archives (i + 1) (j - 1)
    end
  else Some archives.

Definition reverseArchives (archives : list string) : option (list string) :=
  reverseLoop (length archives) archives 0 (Z.of_nat (length archives) - 1).

(** The loop [for _, url := range archives] that fills [allGames].  [fetch]
    is [fetchGames] as [main] uses it, with its error dropped: the games of
    the archive, nil for an archive that cannot be fetched or decoded, and
    [None] when [fetchGames] panics, which it does on an address that
    [http.NewRequest] refuses: the request is then nil and
    [req.Header.Set] dereferences it.  The two index expressions are the
    arguments of the progress line.  The result carries the archives
    fetched. *)
Fixpoint fetchLoop (fetch : string -> option (list GameData))
    (archives : list string) (maxGames : Z) (allGames : list GameData)
    (fetched : list string)
  : option (list GameData * list string) :=
  match archives with
  | [] => Some (allGames, fetched)
  | url :: archives' =>
      if Z.of_nat (length allGames) >=? maxGames then Some (allGames, fetched)
      else
        games <- fetch url ;;
        let parts := Split url "/" in
        _ <- at_ parts (Z.of_nat (length parts) - 2) ;;
        _ <- at_ parts (Z.of_nat (length parts) - 1) ;;
        fetchLoop fetch archives' maxGames (allGames ++ games)%list
                  (fetched ++ [url])%list
  end.

(** From [var allGames []GameData] to the cut
    [if len(allGames) > *maxGames { allGames = allGames[:*maxGames] }]. *)
Definition gatherGames (fetch : string -> option (list GameData))
    (archives : list string) (maxGames : Z)
  : option (list GameData * list string) :=
  r <- fetchLoop fetch archives maxGames [] [] ;;
  let '(allGames, fetched) := r in
  if Z.of_nat (length allGames) >? maxGames
  then allGames <- SliceTo allGames maxGames ;; Some (allGames, fetched)
  else Some (allGames, fetched).

(** The texts [analyzeGame] sends for evaluation after each move of [mvs]
    played from [pos], a rejected move leaving the game as the library
    returns it. *)
Fixpoint positionsAfter (L : chess.Library) (pos : chess.Game L)
    (mvs : list (chess.Move L)) : list string :=
  match mvs with
  | [] => []
  | mv :: mvs' =>
      let pos := fst (chess.DoMove L pos mv) in
      chess.FEN L pos :: positionsAfter L pos mvs'
  end.

(** The two commands of one evaluation. *)
Definition evaluation (depth : Z) (fen : string) : list string :=
  [("position fen " ++ fen) ++ LF; ("go depth " ++ Itoa depth) ++ LF].

(** The four commands of [NewStockfishEngine]. *)
Definition greeting (threads : Z) : list string :=
  ["uci" ++ LF;
   ("setoption name Threads value " ++ Itoa threads) ++ LF;
   "setoption name UCI_ShowWDL value true" ++ LF;
   "isready" ++ LF].

(** A line of the shape Stockfish writes for one evaluation. *)
Definition infoLine (pre : string) (w d l : Z) (post : string) : string :=
  pre ++ " wdl " ++ Itoa w ++ " " ++ Itoa d ++ " " ++ Itoa l ++ " " ++ post.

(** The accuracy [main] takes from a result for the target player. *)
Definition picked {F : Type} (target : string) (r : result F) : F :=
  if String.eqb (white r) target then wa r else ba r.

(** ** Exhaustive checks in binary64

    A WDL triple of the data model has three non-negative parts that sum to
    1000, so there are finitely many; [complementary64] runs the two calls
    of [wdlToProb] and the comparison [a + b == 1.0] on one of them. *)

Definition complementary64 (w d : Z) : bool :=
  let l := 1000 - w - d in
  PrimFloat.eqb
    (fadd (wdlToProb (F := float) w d l true) (wdlToProb w d l false)) 1.

(** [f] holds on the [n] integers from [z] upwards. *)
Fixpoint allFrom (n : nat) (z : Z) (f : Z -> bool) : bool :=
  match n with
  | O => true
  | S n' => f z && allFrom n' (z + 1) f
  end.

(** The check at [w] and [d]; there is nothing to check once [w + d] is
    over 1000. *)
Definition complementaryCell (w d : Z) : bool :=
  (1000 <? w + d) || complementary64 w d.

(** The check that both probabilities of the triple [(w, d, 1000 - w - d)]
    lie between 0 and 1 in binary64. *)
Definition unit64 (w d : Z) : bool :=
  let l := 1000 - w - d in
  let pw := wdlToProb (F := float) w d l true in
  let pb := wdlToProb (F := float) w d l false in
  PrimFloat.leb 0 pw && PrimFloat.leb pw 1
  && PrimFloat.leb 0 pb && PrimFloat.leb pb 1.

Definition unitCell (w d : Z) : bool := (1000 <? w + d) || unit64 w d.

(** ** The accuracy of a move in binary64, on all the probabilities of the
    data model

    The probability of a triple for one side depends on [2 * w + d] only
    (on [2 * l + d] for Black): there are 2001 of them.  [gridList] holds
    them in increasing order; [allRows] runs [calcAccuracy] on every pair
    of them, in both directions, and compares the result with what exact
    arithmetic gives. *)

(** Twice the thousandths of the probability of a triple for one side. *)
Definition halfPoints (w d l : Z) (isWhite : bool) : Z :=
  if isWhite then 2 * w + d else 2 * l + d.

(** The binary64 probability with [k] half points. *)
Definition grid (k : Z) : float := wdlToProb (F := float) 0 k 0 true.

(** [calcAccuracy] in binary64, with its constants converted once. *)
Definition calcAccuracy64 (before after : float) : float :=
  if PrimFloat.leb before after then 100%float
  else
    let acc :=
      PrimFloat.mul 100
        (PrimFloat.sub 1 (PrimFloat.mul (PrimFloat.sub before after) 2)) in
    if PrimFloat.ltb acc 0 then 0%float else acc.

(** [r] and [x] differ by at most [2^-45], with the subtraction and the
    comparison of [float64]. *)
Definition near (r x : float) : bool :=
  PrimFloat.leb (PrimFloat.abs (PrimFloat.sub r x)) 0x1p-45%float.

(** [n / 10] rounded to binary64. *)
Definition tenth (n : Z) : float := PrimFloat.div (float64_of_int n) 10.

(** The checks on two probabilities, [small] with fewer half points than
    [large]: no drop from [small] to [large]; from [large] to [small], 0
    when the drop computed in binary64 is at least one half, and the
    expected accuracy, or 0 when none is given. *)
Definition pairOK (small large : float) (expected : option float) : bool :=
  PrimFloat.Leibniz.eqb (calcAccuracy64 small large) 100
  && negb (PrimFloat.leb 0.5 (PrimFloat.sub small large))
  && (negb (PrimFloat.leb 0.5 (PrimFloat.sub large small))
      || PrimFloat.Leibniz.eqb (calcAccuracy64 large small) 0)
  && match expected with
     | Some x => near (calcAccuracy64 large small) x
     | None => PrimFloat.Leibniz.eqb (calcAccuracy64 large small) 0
     end.

Definition sameOK (p : float) : bool :=
  PrimFloat.Leibniz.eqb (calcAccuracy64 p p) 100
  && negb (PrimFloat.leb 0.5 (PrimFloat.sub p p)).

(** [small] against the probabilities above it, the expected accuracies
    going down with the distance. *)
Fixpoint rowOK (small : float) (rest expected : list float) : bool :=
  match rest with
  | [] => true
  | large :: rest' =>
      pairOK small large (hd_error expected)
      && rowOK small rest' (tl expected)
  end.

Fixpoint allRows (g expected : list float) : bool :=
  match g with
  | [] => true
  | p :: rest => sameOK p && rowOK p rest expected && allRows rest expected
  end.

(** [f z], [f (z + 1)], ... : [n] values. *)
Fixpoint tabulate {A : Type} (f : Z -> A) (n : nat) (z : Z) : list A :=
  match n with
  | O => []
  | S n' => f z :: tabulate f n' (z + 1)
  end.

Definition gridList : list float := tabulate grid 2001 0.

(** The accuracies 99.9, 99.8, ..., 0 of the drops of 1, 2, ..., 1000 half
    points. *)
Definition expectedList : list float :=
  tabulate (fun j => tenth (999 - j)) 1000 0.

(** The probability of the triple [(w, d, 1000 - w - d)] for White is the
    one of the grid. *)
Definition gridCell (w d : Z) : bool :=
  (1000 <? w + d)
  || PrimFloat.Leibniz.eqb (wdlToProb (F := float) w d 0 true)
                           (grid (2 * w + d)).

(** The number a binary64 value stands for; none for an infinity and for
    NaN. *)
Definition exactValue (x : float) : option Q :=
  match Prim2SF x with
  | S754_zero _ => Some 0%Q
  | S754_finite s m e =>
      Some (inject_Z (if s then Z.neg m else Z.pos m) * Qpower 2 e)%Q
  | _ => None
  end.

(** The binary64 probability with [k] half points stands for a number
    within 1/8000 of [k / 2000]. *)
Definition valueCell (k : Z) : bool :=
  match exactValue (grid k) with
  | Some v =>
      Qle_bool (4 * inject_Z k - 1) (8000 * v)
      && Qle_bool (8000 * v) (4 * inject_Z k + 1)
  | None => false
  end.

(** Two probabilities 1000 half points apart: when the numbers they stand
    for are at least one half apart, the accuracy is 0. *)
Definition halfCell (ka : Z) : bool :=
  match exactValue (grid (ka + 1000)), exactValue (grid ka) with
  | Some vb, Some va =>
      negb (Qle_bool (1 # 2) (vb - va))
      || PrimFloat.Leibniz.eqb (calcAccuracy64 (grid (ka + 1000)) (grid ka)) 0
  | _, _ => false
  end.

(** Two present results, for concrete runs of the loop over the results. *)
Definition asWhite : result Q :=
  {| wa := 90%Q; ba := 60%Q; moves := 40; white := "hikaru";
     black := "fabiano"; ok := true |}.

Definition asBlack : result Q :=
  {| wa := 70%Q; ba := 80%Q; moves := 31; white := "magnus";
     black := "hikaru"; ok := true |}.

(** Two archives and what they hold, for concrete runs of the loop over
    the archives. *)
Definition january : string :=
  "https://api.chess.com/pub/player/hikaru/games/2024/01".

Definition february : string :=
  "https://api.chess.com/pub/player/hikaru/games/2024/02".

(** An address with a percent sign that begins no escape:
    [http.NewRequest] refuses it. *)
Definition refused : string :=
  "https://api.chess.com/pub/player/hikaru/games/2024/%zz".

Definition fetchSample (url : string) : option (list GameData) :=
  if String.eqb url january then Some [Stub.fourMoves; Stub.rejectedSecond]
  else if String.eqb url february
  then Some [Stub.rejectedSecond; Stub.fourMoves]
  else if String.eqb url refused then None
  else Some [].

(** The games of some archives, one archive after the other. *)
Definition gamesOf (fetch : string -> option (list GameData))
    (urls : list string) : list GameData :=
  concat (map (fun url => match fetch url with
                          | Some games => games
                          | None => []
                          end) urls).

(** Further program points of a goroutine of the scheduler: it has sent
    its result; it has returned; it has not got a slot yet. *)
Definition reported (p : Scheduler.PC) : bool :=
  match p with
  | Scheduler.Reporting | Scheduler.Finished => true
  | _ => false
  end.

Definition finished (p : Scheduler.PC) : bool :=
  match p with
  | Scheduler.Finished => true
  | _ => false
  end.

Definition waiting (p : Scheduler.PC) : bool :=
  match p with
  | Scheduler.Waiting => true
  | _ => false
  end.

(** Every goroutine that owns a session is on a game whose analysis with
    the output of that session returns. *)
Definition sessionsReturn {F : Type} {ops : Float64Ops F} (L : chess.Library)
    (ToLower : string -> string) (username : string) (sfThreads depth : Z)
    (ts : list Scheduler.Task) : Prop :=
  Forall
    (fun t =>
       forall stdout, Scheduler.pc t = Scheduler.InSession stdout ->
         exists (r : result F) e,
           analyzeGame L ToLower (Scheduler.game t) username sfThreads depth
                       (Started stdout)
           = Some (r, Closed e))
    ts.

(** No step can be taken from a state. *)
Definition stuck {F : Type} {ops : Float64Ops F} (L : chess.Library)
    (ToLower : string -> string) (username : string)
    (sfThreads depth workers : Z) (s : Scheduler.State F) : Prop :=
  forall s', ~ Scheduler.step L ToLower username sfThreads depth workers s s'.

(** [r] is what [analyzeGame] returns for [g], whatever the subprocess
    does. *)
Definition analysisOf {F : Type} {ops : Float64Ops F} (L : chess.Library)
    (ToLower : string -> string) (username : string) (sfThreads depth : Z)
    (g : GameData) (r : result F) : Prop :=
  exists os sess,
    analyzeGame L ToLower g username sfThreads depth os = Some (r, sess).

(** The games of the goroutines past their send on [results], in the order
    of the goroutines. *)
Definition reportedGames (ts : list Scheduler.Task) : list GameData :=
  map Scheduler.game (filter (fun t => reported (Scheduler.pc t)) ts).

(** The values sent on [results] are, in some order, one result of
    [analyzeGame] for each of the games [gs]. *)
Definition resultsOf {F : Type} {ops : Float64Ops F} (L : chess.Library)
    (ToLower : string -> string) (username : string) (sfThreads depth : Z)
    (gs : list GameData) (s : Scheduler.State F) : Prop :=
  exists rs,
    Permutation (Scheduler.results s) rs /\
    Forall2 (analysisOf L ToLower username sfThreads depth) gs rs.

(** The end of a batch in which every game went through [analyzeGame]:
    nothing is left to hand out, every goroutine has returned, and
    [results] holds one result per game. *)
Definition allAnalysed {F : Type} {ops : Float64Ops F} (L : chess.Library)
    (ToLower : string -> string) (username : string) (sfThreads depth : Z)
    (allGames : list GameData) (s : Scheduler.State F) : Prop :=
  Scheduler.pending s = [] /\
  Forall (fun t => Scheduler.pc t = Scheduler.Finished) (Scheduler.tasks s) /\
  resultsOf L ToLower username sfThreads depth allGames s.

(** The reading of the specification in which, whatever the limit, every
    game gets into [analyzeGame]: all the games are handed out and no
    goroutine is left at its send on [sem]. *)
Definition everyLimitAnalysesAll {F : Type} {ops : Float64Ops F}
    (L : chess.Library) (ToLower : string -> string) (username : string)
    (sfThreads depth : Z) : Prop :=
  forall workers allGames (s : Scheduler.State F),
    Scheduler.reachable L ToLower username sfThreads depth workers allGames s ->
    Scheduler.inevitably L ToLower username sfThreads depth workers
      (fun s' =>
         Scheduler.pending s' = [] /\
         Forall (fun t => waiting (Scheduler.pc t) = false)
                (Scheduler.tasks s'))
      s.

(** * Properties *)

(** ** The scorer *)

Section ScorerFacts.

Open Scope Q_scope.

Lemma Qle_bool_false (x y : Q) : Qle_bool x y = false -> y < x.
Proof.
  intros E. apply Qnot_le_lt. intros H.
  apply Qle_bool_iff in H. congruence.
Qed.


Lemma wdlToProb_swap {F : Type} {ops : Float64Ops F} (w d l : Z) :
  wdlToProb (F := F) w d l false = wdlToProb l d w true.
Proof. reflexivity. Qed.

Lemma calcAccuracy_cases (before after : Q) :
  calcAccuracy before after
  == if Qle_bool before after then 100
     else Qmax 0 (100 * (1 - 2 * (before - after))).
Proof.
  unfold calcAccuracy; simpl.
  destruct (Qle_bool before after) eqn:E; [reflexivity|].
  set (acc := inject_Z 100 * (inject_Z 1 - (before - after) * inject_Z 2)).
  assert (Hacc : 100 * (1 - 2 * (before - after)) == acc)
    by (unfold acc; ring).
  rewrite Hacc.
  destruct (Qle_bool (inject_Z 0) acc) eqn:E0; simpl.
  - apply Qle_bool_iff in E0. now rewrite Q.max_r.
  - apply Qle_bool_false in E0.
    rewrite Q.max_l; [reflexivity | now apply Qlt_le_weak].
Qed.

Lemma allFrom_spec (n : nat) (z : Z) (f : Z -> bool) :
  allFrom n z f = true ->
  forall x, (z <= x < z + Z.of_nat n)%Z -> f x = true.
Proof.
  revert z. induction n as [|n IH]; intros z Hall x Hx; [lia|].
  simpl in Hall. apply andb_prop in Hall as [Hz Hrest].
  destruct (Z.eq_dec x z) as [->|Hne]; [exact Hz|].
  apply (IH (z + 1)%Z Hrest). lia.
Qed.

Lemma complementaryAll_true :
  allFrom 1001 0 (fun w => allFrom 1001 0 (complementaryCell w)) = true.
Proof. vm_compute. reflexivity. Qed.

Lemma complementary64_holds (w d l : Z) :
  (0 <= w)%Z -> (0 <= d)%Z -> (0 <= l)%Z -> (w + d + l = 1000)%Z ->
  PrimFloat.eqb
    (fadd (wdlToProb (F := float) w d l true) (wdlToProb w d l false)) 1
  = true.
Proof.
  intros Hw Hd Hl Hsum.
  assert (Hw' : (0 <= w < 0 + Z.of_nat 1001)%Z) by lia.
  assert (Hd' : (0 <= d < 0 + Z.of_nat 1001)%Z) by lia.
  pose proof
    (allFrom_spec 1001 0 (complementaryCell w)
       (allFrom_spec 1001 0 (fun w => allFrom 1001 0 (complementaryCell w))
          complementaryAll_true w Hw') d Hd') as Hcell.
  unfold complementaryCell in Hcell.
  apply orb_prop in Hcell as [Hbig|Hcell].
  - apply Z.ltb_lt in Hbig. lia.
  - unfold complementary64 in Hcell.
    replace (1000 - w - d)%Z with l in Hcell by lia. exact Hcell.
Qed.

End ScorerFacts.

(** The first branch in any arithmetic, binary64 included. *)
Lemma calcAccuracy_no_drop {F : Type} {ops : Float64Ops F} (before after : F) :
  fge after before = true -> calcAccuracy before after = ofInt 100.
Proof. intros H. unfold calcAccuracy. now rewrite H. Qed.

(** In binary64 a probability that is a number, not NaN, compares equal to
    itself, and then the accuracy of keeping it is 100. *)
Lemma calcAccuracy_same_binary64 (p : float) :
  PrimFloat.eqb p p = true -> calcAccuracy p p = 100%float.
Proof.
  intros Hnum.
  change (100%float) with (ofInt (F := float) 100).
  apply (calcAccuracy_no_drop (F := float)).
  cbn [fge Binary64Ops]. rewrite leb_spec. rewrite eqb_spec in Hnum.
  unfold SFleb. unfold SFeqb in Hnum.
  now destruct (SFcompare (Prim2SF p) (Prim2SF p)) as [[| |]|].
Qed.

(** *** Binary64 on the probabilities of the data model *)

Lemma calcAccuracy64_eq (before after : float) :
  calcAccuracy (F := float) before after = calcAccuracy64 before after.
Proof. reflexivity. Qed.

Lemma tabulate_nth {A : Type} (f : Z -> A) (n : nat) :
  forall z j, (j < n)%nat ->
  nth_error (tabulate f n z) j = Some (f (z + Z.of_nat j)).
Proof.
  induction n as [|n IH]; intros z j Hj; [lia|].
  destruct j as [|j]; cbn [tabulate nth_error].
  - f_equal. f_equal. lia.
  - rewrite IH by lia. f_equal. f_equal. lia.
Qed.

Lemma tabulate_length {A : Type} (f : Z -> A) (n : nat) :
  forall z, length (tabulate f n z) = n.
Proof. induction n as [|n IH]; intros z; cbn [tabulate length]; auto. Qed.

Lemma rowOK_spec (small : float) (rest : list float) :
  forall expected, rowOK small rest expected = true ->
  forall j large, nth_error rest j = Some large ->
  pairOK small large (nth_error expected j) = true.
Proof.
  induction rest as [|x rest IH]; intros expected Hrow j large Hj.
  - destruct j; discriminate Hj.
  - cbn [rowOK] in Hrow. apply andb_prop in Hrow as [Hx Hrest].
    destruct j as [|j]; cbn [nth_error] in Hj.
    + injection Hj as <-. now destruct expected.
    + specialize (IH (tl expected) Hrest j large Hj).
      now destruct expected as [|y expected]; [destruct j|].
Qed.

Lemma allRows_spec (g : list float) (expected : list float) :
  allRows g expected = true ->
  forall i p, nth_error g i = Some p ->
  sameOK p = true /\
  forall j large, nth_error g (i + S j) = Some large ->
    pairOK p large (nth_error expected j) = true.
Proof.
  induction g as [|x g IH]; intros Hall i p Hi.
  - destruct i; discriminate Hi.
  - cbn [allRows] in Hall. apply andb_prop in Hall as [Hx Hrest].
    apply andb_prop in Hx as [Hsame Hrow].
    destruct i as [|i]; cbn [nth_error] in Hi.
    + injection Hi as <-. split; [exact Hsame|].
      intros j large Hj. cbn [plus nth_error] in Hj.
      exact (rowOK_spec _ _ _ Hrow j large Hj).
    + destruct (IH Hrest i p Hi) as [Hs Hp]. split; [exact Hs|].
      intros j large Hj. apply Hp. exact Hj.
Qed.

Lemma allRows_true : allRows gridList expectedList = true.
Proof. vm_compute. reflexivity. Qed.

Lemma gridCells_true :
  allFrom 1001 0 (fun w => allFrom 1001 0 (gridCell w)) = true.
Proof. vm_compute. reflexivity. Qed.

Lemma grid_same (k : Z) : 0 <= k <= 2000 -> sameOK (grid k) = true.
Proof.
  intros Hk.
  apply (allRows_spec _ _ allRows_true (Z.to_nat k)).
  unfold gridList. rewrite tabulate_nth by lia. f_equal. f_equal. lia.
Qed.

Lemma grid_pair (ka kb : Z) :
  0 <= ka -> ka < kb -> kb <= 2000 ->
  pairOK (grid ka) (grid kb)
         (if kb - ka <=? 1000 then Some (tenth (1000 - (kb - ka))) else None)
  = true.
Proof.
  intros H0 Hlt Hk.
  destruct (allRows_spec _ _ allRows_true (Z.to_nat ka) (grid ka)) as [_ Hp].
  { unfold gridList. rewrite tabulate_nth by lia. f_equal. f_equal. lia. }
  specialize (Hp (Z.to_nat (kb - ka - 1)) (grid kb)).
  replace (nth_error expectedList (Z.to_nat (kb - ka - 1)))
    with (if kb - ka <=? 1000 then Some (tenth (1000 - (kb - ka))) else None)
    in Hp.
  - apply Hp. unfold gridList. rewrite tabulate_nth by lia.
    f_equal. f_equal. lia.
  - destruct (Z.leb_spec (kb - ka) 1000) as [Hle|Hgt].
    + unfold expectedList. rewrite tabulate_nth by lia.
      f_equal. f_equal. lia.
    + symmetry. apply nth_error_None. unfold expectedList.
      rewrite tabulate_length. lia.
Qed.

Lemma wdlToProb_grid (w d l : Z) (isWhite : bool) :
  0 <= w -> 0 <= d -> 0 <= l -> w + d + l = 1000 ->
  wdlToProb (F := float) w d l isWhite = grid (halfPoints w d l isWhite).
Proof.
  assert (Hwhite : forall w d l, 0 <= w -> 0 <= d -> 0 <= l ->
            w + d + l = 1000 ->
            wdlToProb (F := float) w d l true = grid (2 * w + d)).
  { clear. intros w d l Hw Hd Hl Hsum.
    assert (Hw' : 0 <= w < 0 + Z.of_nat 1001) by lia.
    assert (Hd' : 0 <= d < 0 + Z.of_nat 1001) by lia.
    pose proof
      (allFrom_spec 1001 0 (gridCell w)
         (allFrom_spec 1001 0 (fun w => allFrom 1001 0 (gridCell w))
            gridCells_true w Hw') d Hd') as Hcell.
    unfold gridCell in Hcell.
    apply orb_prop in Hcell as [Hbig|Hcell].
    - apply Z.ltb_lt in Hbig. lia.
    - apply FloatAxioms.Leibniz.eqb_spec in Hcell. exact Hcell. }
  intros Hw Hd Hl Hsum. destruct isWhite; cbn [halfPoints].
  - now apply Hwhite.
  - rewrite wdlToProb_swap. apply Hwhite; lia.
Qed.

Lemma wdlToProb_exact (w d l : Z) (isWhite : bool) :
  (2000 * wdlToProb (F := Q) w d l isWhite
   == inject_Z (halfPoints w d l isWhite))%Q.
Proof.
  destruct isWhite; unfold wdlToProb, halfPoints;
    cbn [negb fdiv fadd fmul ofInt half ExactOps];
    rewrite inject_Z_plus, inject_Z_mult;
    change (inject_Z 1000) with 1000%Q; change (inject_Z 2) with 2%Q; field.
Qed.

Lemma halfPoints_range (w d l : Z) (isWhite : bool) :
  0 <= w -> 0 <= d -> 0 <= l -> w + d + l = 1000 ->
  0 <= halfPoints w d l isWhite <= 2000.
Proof. intros. destruct isWhite; unfold halfPoints; lia. Qed.

Lemma pairOK_parts (small large : float) (expected : option float) :
  pairOK small large expected = true ->
  calcAccuracy64 small large = 100%float /\
  PrimFloat.leb 0.5 (PrimFloat.sub small large) = false /\
  (PrimFloat.leb 0.5 (PrimFloat.sub large small) = true ->
   calcAccuracy64 large small = 0%float) /\
  match expected with
  | Some x => near (calcAccuracy64 large small) x = true
  | None => calcAccuracy64 large small = 0%float
  end.
Proof.
  unfold pairOK. intros H.
  apply andb_prop in H as [H H4]. apply andb_prop in H as [H H3].
  apply andb_prop in H as [H1 H2].
  apply FloatAxioms.Leibniz.eqb_spec in H1.
  apply negb_true_iff in H2.
  repeat split; try assumption.
  - intros Hdrop. rewrite Hdrop in H3. cbn [negb orb] in H3.
    now apply FloatAxioms.Leibniz.eqb_spec in H3.
  - destruct expected; [exact H4|].
    now apply FloatAxioms.Leibniz.eqb_spec in H4.
Qed.

Lemma sameOK_parts (p : float) :
  sameOK p = true ->
  calcAccuracy64 p p = 100%float /\
  PrimFloat.leb 0.5 (PrimFloat.sub p p) = false.
Proof.
  unfold sameOK. intros H. apply andb_prop in H as [H1 H2].
  apply FloatAxioms.Leibniz.eqb_spec in H1. apply negb_true_iff in H2.
  now split.
Qed.

(** The accuracy in binary64 on two grid probabilities. *)
Lemma calcAccuracy_grid (kb ka : Z) :
  0 <= kb <= 2000 -> 0 <= ka <= 2000 ->
  (kb <= ka -> calcAccuracy (F := float) (grid kb) (grid ka) = 100%float) /\
  (1000 < kb - ka ->
   calcAccuracy (F := float) (grid kb) (grid ka) = 0%float) /\
  (PrimFloat.leb 0.5 (PrimFloat.sub (grid kb) (grid ka)) = true ->
   calcAccuracy (F := float) (grid kb) (grid ka) = 0%float) /\
  near (calcAccuracy (F := float) (grid kb) (grid ka))
       (tenth (Z.min 1000 (Z.max 0 (1000 - (kb - ka))))) = true.
Proof.
  intros Hb Ha. rewrite calcAccuracy64_eq.
  destruct (Z.lt_trichotomy kb ka) as [Hlt|[->|Hgt]].
  - destruct (pairOK_parts _ _ _ (grid_pair kb ka (proj1 Hb) Hlt (proj2 Ha)))
      as (H100 & Hno & _).
    rewrite H100. split; [reflexivity|]. split; [lia|].
    split; [rewrite Hno; discriminate|].
    replace (Z.min 1000 (Z.max 0 (1000 - (kb - ka)))) with 1000 by lia.
    now vm_compute.
  - destruct (sameOK_parts _ (grid_same ka Ha)) as [H100 Hno].
    rewrite H100. split; [reflexivity|]. split; [lia|].
    split; [rewrite Hno; discriminate|].
    replace (Z.min 1000 (Z.max 0 (1000 - (ka - ka)))) with 1000 by lia.
    now vm_compute.
  - destruct (pairOK_parts _ _ _ (grid_pair ka kb (proj1 Ha) Hgt (proj2 Hb)))
      as (_ & _ & Hdrop & Hexp).
    split; [lia|].
    destruct (Z.leb_spec (kb - ka) 1000) as [Hle|Hbig].
    + split; [lia|]. split; [exact Hdrop|].
      replace (Z.min 1000 (Z.max 0 (1000 - (kb - ka))))
        with (1000 - (kb - ka)) by lia.
      exact Hexp.
    + rewrite Hexp. split; [reflexivity|]. split; [reflexivity|].
      replace (Z.min 1000 (Z.max 0 (1000 - (kb - ka)))) with 0 by lia.
      now vm_compute.
Qed.

(** The exact accuracy on two grid probabilities is a number of tenths. *)
Lemma calcAccuracy_tenths (qb qa : Q) (kb ka : Z) :
  (2000 * qb == inject_Z kb)%Q -> (2000 * qa == inject_Z ka)%Q ->
  (calcAccuracy qb qa
   == inject_Z (Z.min 1000 (Z.max 0 (1000 - (kb - ka)))) / 10)%Q.
Proof.
  intros Hb Ha. rewrite calcAccuracy_cases.
  assert (Hdiff : (inject_Z (kb - ka) == 2000 * (qb - qa))%Q).
  { unfold Z.sub. rewrite inject_Z_plus, inject_Z_opp. lra. }
  destruct (Qle_bool qb qa) eqn:E.
  - apply Qle_bool_iff in E.
    assert (Hz : kb <= ka).
    { rewrite Zle_Qle. lra. }
    replace (Z.min 1000 (Z.max 0 (1000 - (kb - ka)))) with 1000 by lia.
    reflexivity.
  - assert (Hlt : (qa < qb)%Q).
    { apply Qnot_le_lt. intros H. apply Qle_bool_iff in H. congruence. }
    assert (Hz : ka < kb).
    { rewrite Zlt_Qlt. lra. }
    destruct (Z.leb_spec (kb - ka) 1000) as [Hle|Hbig].
    + replace (Z.min 1000 (Z.max 0 (1000 - (kb - ka))))
        with (1000 - (kb - ka)) by lia.
      assert (Hq : (inject_Z (kb - ka) <= 1000)%Q).
      { change 1000%Q with (inject_Z 1000). now rewrite <- Zle_Qle. }
      rewrite Q.max_r by lra.
      unfold Z.sub at 1. rewrite inject_Z_plus, inject_Z_opp.
      change (inject_Z 1000) with 1000%Q. rewrite Hdiff. field.
    + replace (Z.min 1000 (Z.max 0 (1000 - (kb - ka)))) with 0 by lia.
      assert (Hq : (1000 < inject_Z (kb - ka))%Q).
      { change 1000%Q with (inject_Z 1000). now rewrite <- Zlt_Qlt. }
      rewrite Q.max_l by lra. reflexivity.
Qed.

Lemma calcAccuracy_triples (w d l w' d' l' : Z) (isWhite : bool) :
  0 <= w -> 0 <= d -> 0 <= l -> w + d + l = 1000 ->
  0 <= w' -> 0 <= d' -> 0 <= l' -> w' + d' + l' = 1000 ->
  ((wdlToProb (F := Q) w d l isWhite <= wdlToProb w' d' l' isWhite)%Q ->
   calcAccuracy (F := float) (wdlToProb w d l isWhite)
                (wdlToProb w' d' l' isWhite) = 100%float) /\
  (((1 # 2) < wdlToProb (F := Q) w d l isWhite
              - wdlToProb w' d' l' isWhite)%Q ->
   calcAccuracy (F := float) (wdlToProb w d l isWhite)
                (wdlToProb w' d' l' isWhite) = 0%float) /\
  (PrimFloat.leb 0.5 (PrimFloat.sub (wdlToProb w d l isWhite)
                                    (wdlToProb w' d' l' isWhite)) = true ->
   calcAccuracy (F := float) (wdlToProb w d l isWhite)
                (wdlToProb w' d' l' isWhite) = 0%float) /\
  exists n : Z,
    (calcAccuracy (F := Q) (wdlToProb w d l isWhite)
                  (wdlToProb w' d' l' isWhite) == inject_Z n / 10)%Q /\
    PrimFloat.leb
      (PrimFloat.abs
         (PrimFloat.sub
            (calcAccuracy (F := float) (wdlToProb w d l isWhite)
                          (wdlToProb w' d' l' isWhite))
            (PrimFloat.div (float64_of_int n) 10)))
      0x1p-45%float = true.
Proof.
  intros Hw Hd Hl Hsum Hw' Hd' Hl' Hsum'.
  pose proof (wdlToProb_exact w d l isWhite) as Hqb.
  pose proof (wdlToProb_exact w' d' l' isWhite) as Hqa.
  pose proof (halfPoints_range w d l isWhite Hw Hd Hl Hsum) as Hkb.
  pose proof (halfPoints_range w' d' l' isWhite Hw' Hd' Hl' Hsum') as Hka.
  rewrite (wdlToProb_grid w d l isWhite Hw Hd Hl Hsum).
  rewrite (wdlToProb_grid w' d' l' isWhite Hw' Hd' Hl' Hsum').
  set (kb := halfPoints w d l isWhite) in *.
  set (ka := halfPoints w' d' l' isWhite) in *.
  set (qb := wdlToProb (F := Q) w d l isWhite) in *.
  set (qa := wdlToProb (F := Q) w' d' l' isWhite) in *.
  destruct (calcAccuracy_grid kb ka Hkb Hka) as (H100 & H0 & Hdrop & Hnear).
  split.
  { intros Hle. apply H100. rewrite Zle_Qle. lra. }
  split.
  { intros Hbig. apply H0.
    assert (Hq : (inject_Z 1000 < inject_Z (kb - ka))%Q).
    { unfold Z.sub. rewrite inject_Z_plus, inject_Z_opp.
      change (inject_Z 1000) with 1000%Q. lra. }
    now rewrite <- Zlt_Qlt in Hq. }
  split; [exact Hdrop|].
  exists (Z.min 1000 (Z.max 0 (1000 - (kb - ka)))). split.
  - now apply calcAccuracy_tenths.
  - exact Hnear.
Qed.

Lemma valueCells_true : allFrom 2001 0 valueCell = true.
Proof. vm_compute. reflexivity. Qed.

Lemma halfCells_true : allFrom 1001 0 halfCell = true.
Proof. vm_compute. reflexivity. Qed.

Lemma grid_value (k : Z) :
  0 <= k <= 2000 ->
  exists v,
    exactValue (grid k) = Some v /\
    (4 * inject_Z k - 1 <= 8000 * v)%Q /\ (8000 * v <= 4 * inject_Z k + 1)%Q.
Proof.
  intros Hk.
  pose proof (allFrom_spec 2001 0 valueCell valueCells_true k) as Hcell.
  unfold valueCell in Hcell.
  destruct (exactValue (grid k)) as [v|]; [|discriminate Hcell; lia].
  exists v. split; [reflexivity|].
  assert (H : Qle_bool (4 * inject_Z k - 1) (8000 * v)
              && Qle_bool (8000 * v) (4 * inject_Z k + 1) = true)
    by (apply Hcell; lia).
  apply andb_prop in H as [H1 H2].
  split; now apply Qle_bool_iff.
Qed.

Lemma inject_Z_succ_le (a b : Z) : a < b -> (inject_Z a + 1 <= inject_Z b)%Q.
Proof.
  intros H. change 1%Q with (inject_Z 1).
  rewrite <- inject_Z_plus, <- Zle_Qle. lia.
Qed.

Lemma calcAccuracy_values (w d l w' d' l' : Z) (isWhite : bool) :
  0 <= w -> 0 <= d -> 0 <= l -> w + d + l = 1000 ->
  0 <= w' -> 0 <= d' -> 0 <= l' -> w' + d' + l' = 1000 ->
  exists vb va : Q,
    exactValue (wdlToProb (F := float) w d l isWhite) = Some vb /\
    exactValue (wdlToProb (F := float) w' d' l' isWhite) = Some va /\
    ((vb <= va)%Q ->
     calcAccuracy (F := float) (wdlToProb w d l isWhite)
                  (wdlToProb w' d' l' isWhite) = 100%float) /\
    (((1 # 2) <= vb - va)%Q ->
     calcAccuracy (F := float) (wdlToProb w d l isWhite)
                  (wdlToProb w' d' l' isWhite) = 0%float).
Proof.
  intros Hw Hd Hl Hsum Hw' Hd' Hl' Hsum'.
  pose proof (halfPoints_range w d l isWhite Hw Hd Hl Hsum) as Hkb.
  pose proof (halfPoints_range w' d' l' isWhite Hw' Hd' Hl' Hsum') as Hka.
  rewrite (wdlToProb_grid w d l isWhite Hw Hd Hl Hsum).
  rewrite (wdlToProb_grid w' d' l' isWhite Hw' Hd' Hl' Hsum').
  set (kb := halfPoints w d l isWhite) in *.
  set (ka := halfPoints w' d' l' isWhite) in *.
  destruct (grid_value kb Hkb) as (vb & Hvb & Hb1 & Hb2).
  destruct (grid_value ka Hka) as (va & Hva & Ha1 & Ha2).
  destruct (calcAccuracy_grid kb ka Hkb Hka) as (H100 & H0 & _ & _).
  exists vb, va. split; [exact Hvb|]. split; [exact Hva|]. split.
  - intros Hle. apply H100.
    destruct (Z_le_gt_dec kb ka) as [|Hgt]; [assumption|exfalso].
    pose proof (inject_Z_succ_le ka kb ltac:(lia)). lra.
  - intros Hdrop.
    destruct (Z_lt_le_dec (kb - ka) 1000) as [Hsmall|Hbig].
    + exfalso.
      pose proof (inject_Z_succ_le (kb - ka) 1000 Hsmall) as Hq.
      unfold Z.sub in Hq. rewrite inject_Z_plus, inject_Z_opp in Hq.
      change (inject_Z 1000) with 1000%Q in Hq. lra.
    + destruct (Z.eq_dec (kb - ka) 1000) as [Heq|Hne]; [|apply H0; lia].
      pose proof (allFrom_spec 1001 0 halfCell halfCells_true ka) as Hcell.
      unfold halfCell in Hcell.
      replace (ka + 1000) with kb in Hcell by lia.
      rewrite Hvb, Hva in Hcell.
      assert (H : negb (Qle_bool (1 # 2) (vb - va))
                  || PrimFloat.Leibniz.eqb (calcAccuracy64 (grid kb) (grid ka)) 0
                  = true) by (apply Hcell; lia).
      apply Qle_bool_iff in Hdrop. rewrite Hdrop in H. cbn [negb orb] in H.
      apply FloatAxioms.Leibniz.eqb_spec in H.
      rewrite calcAccuracy64_eq. exact H.
Qed.

(** C2. [calcAccuracy] is 100 when the probability does not go down, and
    otherwise the larger of 0 and [100 * (1 - 2 * (before - after))]; so it
    is 100 on equal probabilities and 0 once the drop reaches one half.
    This holds as it stands in exact arithmetic.  In binary64, the
    arithmetic of the program, the result is 100 whenever [after >= before]
    holds, so on equal probabilities that are numbers.  On the
    probabilities [wdlToProb] gives for any two triples without a negative
    part that sum to 1000, for the same side: with the numbers the two
    binary64 values stand for, the result is 100 when the second is not
    below the first and 0 when the first is above the second by one half
    or more; with the exact probabilities of the triples, it is 100 when
    the probability does not go down, 0 when it goes down by more than
    one half, and always within [2^-45] of the exact accuracy, which is a
    number of tenths. *)
Theorem calcAccuracy_formula :
  (forall before after : Q,
     ((before <= after)%Q -> (calcAccuracy before after == 100)%Q) /\
     ((after < before)%Q ->
      (calcAccuracy before after
       == Qmax 0 (100 * (1 - 2 * (before - after))))%Q) /\
     (calcAccuracy before before == 100)%Q /\
     (((1 # 2) <= before - after)%Q -> (calcAccuracy before after == 0)%Q)) /\
  (forall before after : float,
     PrimFloat.leb before after = true ->
     calcAccuracy before after = 100%float) /\
  (forall p : float,
     PrimFloat.eqb p p = true -> calcAccuracy p p = 100%float) /\
  (forall (w d l w' d' l' : Z) (isWhite : bool),
     0 <= w -> 0 <= d -> 0 <= l -> w + d + l = 1000 ->
     0 <= w' -> 0 <= d' -> 0 <= l' -> w' + d' + l' = 1000 ->
     ((wdlToProb (F := Q) w d l isWhite <= wdlToProb w' d' l' isWhite)%Q ->
      calcAccuracy (F := float) (wdlToProb w d l isWhite)
                   (wdlToProb w' d' l' isWhite) = 100%float) /\
     (((1 # 2) < wdlToProb (F := Q) w d l isWhite
                 - wdlToProb w' d' l' isWhite)%Q ->
      calcAccuracy (F := float) (wdlToProb w d l isWhite)
                   (wdlToProb w' d' l' isWhite) = 0%float) /\
     (PrimFloat.leb 0.5 (PrimFloat.sub (wdlToProb w d l isWhite)
                                       (wdlToProb w' d' l' isWhite)) = true ->
      calcAccuracy (F := float) (wdlToProb w d l isWhite)
                   (wdlToProb w' d' l' isWhite) = 0%float) /\
     exists n : Z,
       (calcAccuracy (F := Q) (wdlToProb w d l isWhite)
                     (wdlToProb w' d' l' isWhite) == inject_Z n / 10)%Q /\
       PrimFloat.leb
         (PrimFloat.abs
            (PrimFloat.sub
               (calcAccuracy (F := float) (wdlToProb w d l isWhite)
                             (wdlToProb w' d' l' isWhite))
               (PrimFloat.div (float64_of_int n) 10)))
         0x1p-45%float = true) /\
  (forall (w d l w' d' l' : Z) (isWhite : bool),
     0 <= w -> 0 <= d -> 0 <= l -> w + d + l = 1000 ->
     0 <= w' -> 0 <= d' -> 0 <= l' -> w' + d' + l' = 1000 ->
     exists vb va : Q,
       exactValue (wdlToProb (F := float) w d l isWhite) = Some vb /\
       exactValue (wdlToProb (F := float) w' d' l' isWhite) = Some va /\
       ((vb <= va)%Q ->
        calcAccuracy (F := float) (wdlToProb w d l isWhite)
                     (wdlToProb w' d' l' isWhite) = 100%float) /\
       (((1 # 2) <= vb - va)%Q ->
        calcAccuracy (F := float) (wdlToProb w d l isWhite)
                     (wdlToProb w' d' l' isWhite) = 0%float)).
Proof.
  split.
  { intros before after.
    pose proof (calcAccuracy_cases before after) as Hc.
    repeat split.
    - intros Hle. apply Qle_bool_iff in Hle. now rewrite Hle in Hc.
    - intros Hlt. destruct (Qle_bool before after) eqn:E; [|exact Hc].
      apply Qle_bool_iff in E. exfalso. apply (Qlt_not_le _ _ Hlt E).
    - pose proof (calcAccuracy_cases before before) as Hp.
      assert (E : Qle_bool before before = true)
        by (apply Qle_bool_iff; apply Qle_refl).
      now rewrite E in Hp.
    - intros Hdrop.
      destruct (Qle_bool before after) eqn:E.
      + apply Qle_bool_iff in E. exfalso. lra.
      + rewrite Hc. apply Q.max_l. lra. }
  split.
  { intros before after Hle.
    exact (calcAccuracy_no_drop (F := float) before after Hle). }
  split; [exact calcAccuracy_same_binary64|].
  split; [exact calcAccuracy_triples|exact calcAccuracy_values].
Qed.

Lemma calcAccuracy_formula_witness :
  (calcAccuracy (9 # 10) (3 # 10) == 0)%Q /\
  calcAccuracy (F := float) (wdlToProb 900 0 100 true)
               (wdlToProb 300 0 700 true) = 0%float /\
  calcAccuracy (F := float) (wdlToProb 300 0 700 true)
               (wdlToProb 900 0 100 true) = 100%float.
Proof.
  destruct calcAccuracy_formula as (Hexact & _ & _ & Htriples & _).
  split.
  - apply (proj2 (proj2 (proj2 (Hexact (9 # 10) (3 # 10))))).
    unfold Qle; simpl; lia.
  - split.
    + apply (Htriples 900 0 100 300 0 700 true); try lia. now vm_compute.
    + apply (Htriples 300 0 700 900 0 100 true); try lia.
      unfold Qle. now vm_compute.
Defined.

(** The triples (500, 1, 499) and (0, 1, 999) are one half apart for White
    in exact arithmetic; the two binary64 probabilities stand for numbers
    less than one half apart, and the accuracy is not 0 but, as the
    formula has it for such a drop, a little above. *)
Example calcAccuracy_half_drop_binary64 :
  (wdlToProb (F := Q) 500 1 499 true - wdlToProb 0 1 999 true == 1 # 2)%Q /\
  (exists vb va,
     exactValue (wdlToProb (F := float) 500 1 499 true) = Some vb /\
     exactValue (wdlToProb (F := float) 0 1 999 true) = Some va /\
     (vb - va < 1 # 2)%Q) /\
  calcAccuracy (F := float) (wdlToProb 500 1 499 true)
               (wdlToProb 0 1 999 true) = 0x1.9p-47%float.
Proof.
  split; [now vm_compute|]. split; [|now vm_compute].
  eexists. eexists. split; [vm_compute; reflexivity|].
  split; [vm_compute; reflexivity|]. now vm_compute.
Qed.

(** The middle branch rounds: from 0.6 to 0.4 the accuracy is the next
    number above 60; and it does not turn NaN into a number. *)
Example calcAccuracy_rounds_binary64 :
  calcAccuracy (F := float) (wdlToProb 600 0 400 true)
               (wdlToProb 400 0 600 true) = 0x1.e000000000001p+5%float /\
  calcAccuracy (F := float) nan nan = nan.
Proof. split; now vm_compute. Qed.

(** The same function run in binary64, on probabilities that are exact
    there. *)
Example calcAccuracy_binary64 :
  calcAccuracy 0.5%float 0.5%float = 100%float /\
  calcAccuracy 0.25%float 0.5%float = 100%float /\
  calcAccuracy 0.5%float 0.25%float = 50%float /\
  calcAccuracy 0.75%float 0.25%float = 0%float /\
  calcAccuracy 1%float 0%float = 0%float.
Proof. repeat split; now vm_compute. Qed.


(** C10. For a triple that sums to 1000 the probabilities of the two sides
    add up to 1: in exact arithmetic for all integers, and in binary64, with
    the sum and the comparison of [float64], for all triples without a
    negative part. *)
Theorem wdlToProb_complementary (w d l : Z) :
  w + d + l = 1000 ->
  (wdlToProb (F := Q) w d l true + wdlToProb w d l false == 1)%Q /\
  (0 <= w -> 0 <= d -> 0 <= l ->
   PrimFloat.eqb
     (fadd (wdlToProb (F := float) w d l true) (wdlToProb w d l false)) 1
   = true).
Proof.
  intros Hsum. split.
  - unfold wdlToProb; simpl.
    assert (Hq : (inject_Z w + inject_Z d + inject_Z l == 1000)%Q).
    { rewrite <- !inject_Z_plus. now rewrite Hsum. }
    assert (Hl : (inject_Z l == 1000 - inject_Z w - inject_Z d)%Q) by lra.
    rewrite Hl. field.
  - intros Hw Hd Hl. now apply complementary64_holds.
Qed.

Lemma wdlToProb_complementary_witness :
  (wdlToProb (F := Q) 300 450 250 true + wdlToProb 300 450 250 false == 1)%Q /\
  PrimFloat.eqb
    (fadd (wdlToProb (F := float) 300 450 250 true)
          (wdlToProb 300 450 250 false)) 1
  = true.
Proof.
  destruct (wdlToProb_complementary 300 450 250) as [Hq Hf].
  - reflexivity.
  - split; [exact Hq | apply Hf; lia].
Defined.

(** ** Strings *)

Lemma HasPrefix_length (s p : string) :
  HasPrefix s p = true -> len p <= len s.
Proof.
  unfold len. revert s.
  induction p as [|c p IH]; intros s H; simpl in *; [lia|].
  destruct s as [|c' s]; [discriminate|].
  apply andb_prop in H as [_ H]. specialize (IH s H). simpl. lia.
Qed.

Lemma Index_cons (c : ascii) (s sub : string) :
  Index (String c s) sub
  = if HasPrefix (String c s) sub then 0
    else if Index s sub =? -1 then -1 else Index s sub + 1.
Proof.
  cbn [Index]. destruct (HasPrefix (String c s) sub); [reflexivity|].
  destruct (Index s sub) as [|p|[p|p|]]; reflexivity.
Qed.

Lemma Index_range (s sub : string) :
  Index s sub = -1 \/ (0 <= Index s sub /\ Index s sub + len sub <= len s).
Proof.
  induction s as [|c s IH].
  - destruct sub as [|p sub]; [right|left; reflexivity].
    unfold len; simpl; lia.
  - rewrite Index_cons.
    destruct (HasPrefix (String c s) sub) eqn:E.
    + right. apply HasPrefix_length in E. lia.
    + destruct (Z.eqb_spec (Index s sub) (-1)) as [Heq|Hne]; [now left|].
      right. destruct IH as [IH|IH]; [contradiction|].
      unfold len in *. simpl String.length. lia.
Qed.

Lemma SliceFrom_marker (line : string) :
  Index line " wdl " <> -1 ->
  SliceFrom line (Index line " wdl " + 5)
  = Some (drop (Z.to_nat (Index line " wdl " + 5)) line).
Proof.
  intros Hne. unfold SliceFrom.
  destruct (Index_range line " wdl ") as [H|[H0 H1]]; [contradiction|].
  change (len " wdl ") with 5 in H1.
  replace (0 <=? Index line " wdl " + 5) with true
    by (symmetry; apply Z.leb_le; lia).
  replace (Index line " wdl " + 5 <=? len line) with true
    by (symmetry; apply Z.leb_le; lia).
  reflexivity.
Qed.

(** ** One line of engine output *)

(** What [scanLine] does, without the panics it could have had. *)
Lemma scanLine_total (line : string) (held : WDL) :
  scanLine line held = Some (scanned held line).
Proof.
  destruct held as [[w d] l]. unfold scanLine, scanned, markerFields.
  destruct (Z.eqb_spec (Index line " wdl ") (-1)) as [Heq|Hne]; simpl;
    [reflexivity|].
  rewrite (SliceFrom_marker line Hne). simpl.
  destruct (SplitN _ " " 4) as [|f0 [|f1 [|f2 fs]]]; try reflexivity.
  replace (3 <=? Z.of_nat (length (f0 :: f1 :: f2 :: fs))) with true
    by (symmetry; apply Z.leb_le; simpl length; lia).
  reflexivity.
Qed.

Lemma scanned_plain (held : WDL) (line : string) :
  bearsWDL line = false -> scanned held line = held.
Proof.
  destruct held as [[w d] l]. unfold bearsWDL, scanned, markerFields.
  intros H. apply negb_false_iff in H. now rewrite H.
Qed.

Lemma scanned_wdlOf (held t : WDL) (line : string) :
  wdlOf line = Some t -> scanned held line = t.
Proof.
  destruct held as [[w d] l]. unfold wdlOf, scanned.
  destruct (markerFields line) as [[|f0 [|f1 [|f2 fs]]]|]; try discriminate.
  simpl. destruct (Atoi f0), (Atoi f1), (Atoi f2); try discriminate.
  now intros [= <-].
Qed.

Lemma wdlOf_bears (line : string) (t : WDL) :
  wdlOf line = Some t -> bearsWDL line = true.
Proof.
  unfold wdlOf, markerFields, bearsWDL.
  destruct (Index line " wdl " =? -1); [discriminate|reflexivity].
Qed.

(** ** The loop of [analyze] *)

Lemma analyzeLoop_total (reader : list string) (held : WDL) :
  exists r, analyzeLoop reader held = Some r.
Proof.
  revert held. induction reader as [|line reader IH]; intros held;
    cbn [analyzeLoop].
  - eauto.
  - rewrite scanLine_total. cbn [bind].
    destruct (HasPrefix line "bestmove"); eauto.
Qed.

(** Up to the first best-move line the loop folds [scanned] over the lines
    it reads, that line included, and leaves the rest unread. *)
Lemma analyzeLoop_bestmove (before : list string) (bm : string)
    (after : list string) (held : WDL) :
  noBestmove before ->
  HasPrefix bm "bestmove" = true ->
  analyzeLoop (before ++ bm :: after)%list held
  = Some (fold_left scanned (before ++ [bm])%list held, after).
Proof.
  intros Hno Hbm. revert held.
  induction Hno as [|line before Hline Hno IH]; intros held;
    cbn [app analyzeLoop fold_left].
  - rewrite scanLine_total. cbn [bind]. now rewrite Hbm.
  - rewrite scanLine_total. cbn [bind]. rewrite Hline. apply IH.
Qed.

(** At end of file the loop has folded [scanned] over all it could read. *)
Lemma analyzeLoop_eof (lines : list string) (held : WDL) :
  noBestmove lines ->
  analyzeLoop lines held = Some (fold_left scanned lines held, []).
Proof.
  intros Hno. revert held.
  induction Hno as [|line lines Hline Hno IH]; intros held;
    cbn [analyzeLoop fold_left].
  - reflexivity.
  - rewrite scanLine_total. cbn [bind]. rewrite Hline. apply IH.
Qed.

Lemma fold_scanned_plain (lines : list string) (held : WDL) :
  Forall (fun line => bearsWDL line = false) lines ->
  fold_left scanned lines held = held.
Proof.
  intros H. revert held.
  induction H as [|line lines Hline _ IH]; intros held; simpl.
  - reflexivity.
  - rewrite (scanned_plain held line Hline). apply IH.
Qed.

Lemma lastBearing_none (lines : list string) :
  lastBearing lines = None ->
  Forall (fun line => bearsWDL line = false) lines.
Proof.
  unfold lastBearing. intros H. apply Forall_forall. intros line Hin.
  apply (find_none _ _ H). now apply in_rev in Hin.
Qed.

Lemma lastBearing_some (lines : list string) (line : string) :
  lastBearing lines = Some line ->
  exists l1 l2,
    lines = (l1 ++ line :: l2)%list /\
    Forall (fun x => bearsWDL x = false) l2.
Proof.
  unfold lastBearing.
  induction lines as [|x lines IH] using rev_ind; [discriminate|].
  rewrite rev_app_distr. simpl.
  destruct (bearsWDL x) eqn:E.
  - intros [= ->]. exists lines, []. split; [reflexivity|constructor].
  - intros H. destruct (IH H) as (l1 & l2 & -> & Hl2).
    exists l1, (l2 ++ [x])%list. split.
    + now rewrite <- app_assoc.
    + apply Forall_app. split; [assumption|]. now constructor.
Qed.

(** The triple after a run of lines is decided by the last marker line
    when that line carries three integers. *)
Lemma fold_scanned_last (lines : list string) (held t : WDL) :
  match lastBearing lines with
  | Some line => wdlOf line
  | None => Some held
  end = Some t ->
  fold_left scanned lines held = t.
Proof.
  destruct (lastBearing lines) as [line|] eqn:E.
  - intros Ht. destruct (lastBearing_some _ _ E) as (l1 & l2 & -> & Hl2).
    rewrite fold_left_app. simpl.
    rewrite (scanned_wdlOf _ t line Ht). now apply fold_scanned_plain.
  - intros [= <-]. apply fold_scanned_plain. now apply lastBearing_none.
Qed.

Lemma analyze_run (e : StockfishEngine) (fen : string)
    (before : list string) (bm : string) (after : list string) :
  reader e = (before ++ bm :: after)%list ->
  noBestmove before ->
  HasPrefix bm "bestmove" = true ->
  analyze e fen
  = Some (fold_left scanned (before ++ [bm])%list defaultWDL,
          afterAnalyze e fen after).
Proof.
  intros Hr Hno Hbm. unfold analyze. simpl reader. rewrite Hr.
  rewrite (analyzeLoop_bestmove before bm after defaultWDL Hno Hbm).
  reflexivity.
Qed.

(** [analyze] always returns: no slice or index of it is out of range. *)
Lemma analyze_total (e : StockfishEngine) (fen : string) :
  exists r, analyze e fen = Some r.
Proof.
  unfold analyze.
  match goal with
  | |- context [analyzeLoop ?lines ?held] =>
      destruct (analyzeLoop_total lines held) as [r Hr]; rewrite Hr
  end.
  simpl. eauto.
Qed.

(** The best-move line is scanned like every other line, so a marker on it
    overrides the lines before it. *)
Lemma analyze_scans_bestmove_line : ~ lastLineBeforeBestmoveWins.
Proof.
  intros claim.
  pose (l1 := "info depth 4 score cp 25 wdl 10 20 30 nodes 512" ++ LF).
  pose (l2 := "bestmove e2e4 wdl 1 2 3 ponder e7e5" ++ LF).
  assert (Hno : noBestmove [l1]) by (constructor; [now vm_compute|constructor]).
  assert (Hbm : HasPrefix l2 "bestmove" = true) by now vm_compute.
  assert (Hlast : match lastBearing [l1] with
                  | Some line => wdlOf line
                  | None => Some defaultWDL
                  end = Some (10, 20, 30)) by now vm_compute.
  pose proof (claim {| stdin := []; reader := [l1; l2]; depth := 4 |}
                    "8/8/8/8/8/8/8/8 w - - 0 1" [l1] l2 [] (10, 20, 30)
                    eq_refl Hno Hbm Hlast) as Hrun.
  vm_compute in Hrun. discriminate Hrun.
Qed.

(** C1 (amended). Up to the first line that starts with [bestmove],
    [analyze] returns the triple of the last line it read that bears the
    marker, the best-move line itself included, when the three fields after
    that marker are integers; it returns (333, 334, 333) when no line it read
    bears the marker.  The lines after the best-move line stay unread. *)
Theorem analyze_last_line_wins (e : StockfishEngine) (fen : string)
    (before : list string) (bm : string) (after : list string) (t : WDL) :
  reader e = (before ++ bm :: after)%list ->
  noBestmove before ->
  HasPrefix bm "bestmove" = true ->
  match lastBearing (before ++ [bm])%list with
  | Some line => wdlOf line
  | None => Some defaultWDL
  end = Some t ->
  analyze e fen = Some (t, afterAnalyze e fen after).
Proof.
  intros Hr Hno Hbm Ht.
  rewrite (analyze_run e fen before bm after Hr Hno Hbm).
  now rewrite (fold_scanned_last _ defaultWDL t Ht).
Qed.

Lemma analyze_last_line_wins_witness :
  analyze Stub.searching Stub.startFEN
  = Some ((420, 290, 290),
          afterAnalyze Stub.searching Stub.startFEN
                       ["info string next" ++ LF]).
Proof.
  apply (analyze_last_line_wins Stub.searching Stub.startFEN
           ["info depth 3 score cp 31 wdl 400 300 300 nodes 90" ++ LF;
            "info depth 4 score cp 35 wdl 420 290 290 nodes 512" ++ LF]
           ("bestmove e2e4 ponder e7e5" ++ LF)
           ["info string next" ++ LF]).
  - reflexivity.
  - repeat (constructor; [now vm_compute|]). constructor.
  - now vm_compute.
  - now vm_compute.
Defined.

(** Without a marker line before the best move the default comes back. *)
Example analyze_default :
  analyze {| stdin := [];
             reader := ["info depth 4 score cp 35 nodes 512" ++ LF;
                        "bestmove e2e4" ++ LF];
             depth := 4 |} "8/8/8/8/8/8/8/8 w - - 0 1"
  = Some ((333, 334, 333),
          {| stdin := ["position fen 8/8/8/8/8/8/8/8 w - - 0 1" ++ LF;
                       "go depth 4" ++ LF];
             reader := [];
             depth := 4 |}).
Proof. now vm_compute. Qed.

(** A line with fewer than three fields after the marker changes nothing,
    even if its first field is an integer. *)
Lemma scanLine_two_fields : ~ everyParsedFieldUpdates.
Proof.
  intros claim.
  assert (Hfields : markerFields ("info depth 1 score cp 13 wdl 10 20" ++ LF)
                    = Some ["10"; "20" ++ LF]) by now vm_compute.
  pose proof (claim _ _ 333 334 333 Hfields) as Hrun.
  vm_compute in Hrun. discriminate Hrun.
Qed.

(** C9 (amended). A field after the marker that is not an integer never
    aborts the evaluation.  On a line with at least three fields after the
    marker each of the first three that is an integer replaces its part of
    the triple and each that is not leaves its part as it was; a line with
    fewer fields, or without the marker, leaves the whole triple as it
    was.  [scanLine], the loop of [analyze] and [analyze] never panic. *)
Theorem scanLine_keeps_unparsed (line : string) (w d l : Z) :
  scanLine line (w, d, l)
  = Some match markerFields line with
         | Some (f0 :: f1 :: f2 :: _) =>
             (orHeld (Some f0) w, orHeld (Some f1) d, orHeld (Some f2) l)
         | _ => (w, d, l)
         end
  /\ (forall reader, exists r, analyzeLoop reader (w, d, l) = Some r)
  /\ (forall e fen, exists r, analyze e fen = Some r).
Proof.
  split; [apply (scanLine_total line (w, d, l))|].
  split; [intros reader; apply analyzeLoop_total|].
  intros e fen; apply analyze_total.
Qed.

(** A third field that ends the line is read together with the line feed,
    which [Atoi] refuses: the third part keeps the number held before. *)
Example scanLine_field_at_end_of_line :
  scanLine ("info depth 1 score cp 13 wdl 10 20 30" ++ LF) defaultWDL
  = Some (10, 20, 333).
Proof. now vm_compute. Qed.

(** A field that is not an integer keeps the number held before. *)
Example scanLine_malformed_field :
  scanLine ("info depth 2 wdl 5 x 7 nodes 3" ++ LF) (400, 300, 300)
  = Some (5, 300, 7).
Proof. now vm_compute. Qed.

(** ** The game analyzer *)

Section AnalyzerFacts.

Context {F : Type} {ops : Float64Ops F}.
Variable L : chess.Library.
Variable ToLower : string -> string.

Lemma admitted_empty (g : GameData) (username : string) :
  PGN g = "" -> admitted L ToLower g username = None.
Proof. intros H. unfold admitted. now rewrite H. Qed.

Lemma admitted_names (g : GameData) (username : string) :
  loweredName ToLower (White g) <> ToLower username ->
  loweredName ToLower (Black g) <> ToLower username ->
  admitted L ToLower g username = None.
Proof.
  intros Hw Hb. unfold admitted.
  destruct (String.eqb (PGN g) ""); [reflexivity|].
  apply String.eqb_neq in Hw, Hb. unfold loweredName in Hw, Hb.
  now rewrite Hw, Hb.
Qed.

Lemma admitted_some (g : GameData) (username white black : string)
    (mvs : list (chess.Move L)) :
  admitted L ToLower g username = Some (white, black, mvs) ->
  PGN g <> "" /\
  white = loweredName ToLower (White g) /\
  black = loweredName ToLower (Black g) /\
  (white = ToLower username \/ black = ToLower username) /\
  chess.PGN L (PGN g) = Some mvs /\
  mvs <> [].
Proof.
  unfold admitted, loweredName.
  destruct (String.eqb_spec (PGN g) "") as [|Hpgn]; [discriminate|].
  set (w := match White g with Some p => ToLower (Username p) | None => "" end).
  set (b := match Black g with Some p => ToLower (Username p) | None => "" end).
  destruct (String.eqb_spec w (ToLower username)) as [Hw|Hw];
    destruct (String.eqb_spec b (ToLower username)) as [Hb|Hb]; simpl;
    try discriminate;
    (destruct (chess.PGN L (PGN g)) as [ms|]; [|discriminate];
     destruct ms as [|m ms]; [discriminate|];
     intros [= <- <- <-]; repeat split; auto; discriminate).
Qed.

(** The loop never panics, and it appends one accuracy per move. *)
Lemma scoreMoves_lengths (mvs : list (chess.Move L)) :
  forall pos e prev (whiteAcc blackAcc : list F),
  exists whiteAcc' blackAcc' e',
    scoreMoves L mvs pos e prev whiteAcc blackAcc
    = Some (whiteAcc', blackAcc', e') /\
    (length whiteAcc' + length blackAcc'
     = length whiteAcc + length blackAcc + length mvs)%nat.
Proof.
  induction mvs as [|mv mvs IH]; intros pos e prev whiteAcc blackAcc.
  - exists whiteAcc, blackAcc, e. split; [reflexivity|simpl; lia].
  - cbn [scoreMoves].
    destruct (analyze_total e (chess.FEN L (fst (chess.DoMove L pos mv))))
      as [[[[cw cd] cl] e1] Ha].
    rewrite Ha. cbn [bind]. destruct prev as [[pw pd] pl].
    destruct (chess.Color_eqb (chess.Turn L pos) chess.White).
    + edestruct IH as (wA & bA & e' & Hs & Hlen).
      exists wA, bA, e'. split; [exact Hs|].
      rewrite Hlen, length_app. simpl. lia.
    + edestruct IH as (wA & bA & e' & Hs & Hlen).
      exists wA, bA, e'. split; [exact Hs|].
      rewrite Hlen, length_app. simpl. lia.
Qed.

Lemma replay_lengths (mvs : list (chess.Move L)) (e : StockfishEngine) :
  exists (whiteAcc blackAcc : list F) e',
    replay L mvs e = Some (whiteAcc, blackAcc, e') /\
    (length whiteAcc + length blackAcc = length mvs)%nat.
Proof.
  unfold replay.
  destruct (analyze_total e (chess.FEN L (chess.NewGame L))) as [[t e0] Ha].
  rewrite Ha. cbn [bind fst snd].
  destruct (scoreMoves_lengths mvs (chess.NewGame L) e0 t [] [])
    as (wA & bA & e' & Hs & Hlen).
  exists wA, bA, e'. split; [exact Hs|exact Hlen].
Qed.

(** A present result comes from a full run: the record is admitted, the
    engine starts, the loop runs and the session is closed. *)
Lemma analyzeGame_present (g : GameData) (username : string)
    (sfThreads depth : Z) (os : Start) (r : result F) (sess : Session) :
  analyzeGame L ToLower g username sfThreads depth os = Some (r, sess) ->
  ok r = true ->
  exists white black mvs e whiteAcc blackAcc e',
    admitted L ToLower g username = Some (white, black, mvs) /\
    NewStockfishEngine os sfThreads depth = inl e /\
    replay L mvs e = Some (whiteAcc, blackAcc, e') /\
    r = {| wa := meanAcc whiteAcc;
           ba := meanAcc blackAcc;
           moves := Z.of_nat (length whiteAcc) + Z.of_nat (length blackAcc);
           white := white;
           black := black;
           ok := true |} /\
    sess = Closed (quit e').
Proof.
  unfold analyzeGame.
  destruct (admitted L ToLower g username) as [[[white black] mvs]|];
    [|intros [= <- <-]; discriminate].
  destruct (NewStockfishEngine os sfThreads depth) as [e|err];
    [|intros [= <- <-]; discriminate].
  destruct (replay_lengths mvs e) as (wA & bA & e' & Hr & _).
  rewrite Hr. cbn [bind]. intros [= <- <-] _.
  exists white, black, mvs, e, wA, bA, e'. repeat split; assumption.
Qed.

(** With the rules of chess and moves that are all accepted, the entries
    go to the two sides in turn. *)
Lemma scoreMoves_sides (mvs : list (chess.Move L)) :
  chess.Lawful L ->
  forall pos e prev (whiteAcc blackAcc whiteAcc' blackAcc' : list F) e',
    chess.applies L pos mvs = true ->
    chess.Turn L pos = chess.White \/ chess.Turn L pos = chess.Black ->
    scoreMoves L mvs pos e prev whiteAcc blackAcc
    = Some (whiteAcc', blackAcc', e') ->
    length whiteAcc'
    = (length whiteAcc
       + if chess.Color_eqb (chess.Turn L pos) chess.White
         then Nat.div2 (S (length mvs)) else Nat.div2 (length mvs))%nat /\
    length blackAcc'
    = (length blackAcc
       + if chess.Color_eqb (chess.Turn L pos) chess.White
         then Nat.div2 (length mvs) else Nat.div2 (S (length mvs)))%nat.
Proof.
  intros [_ Hturn].
  induction mvs as [|mv mvs IH];
    intros pos e prev whiteAcc blackAcc wA bA e' Happ Hside Hs.
  - cbn in Hs. injection Hs as <- <- <-.
    destruct (chess.Color_eqb _ _); simpl; lia.
  - cbn [chess.applies] in Happ. apply andb_prop in Happ as [Hacc Happ].
    apply negb_true_iff in Hacc. specialize (Hturn pos mv Hacc).
    cbn [scoreMoves] in Hs.
    destruct (analyze_total e (chess.FEN L (fst (chess.DoMove L pos mv))))
      as [[[[cw cd] cl] e1] Ha].
    rewrite Ha in Hs. cbn [bind] in Hs. destruct prev as [[pw pd] pl].
    destruct Hside as [Hside|Hside]; rewrite Hside in Hs, Hturn |- *;
      cbn [chess.Color_eqb chess.opposite] in Hs, Hturn |- *;
      apply IH in Hs; auto;
      rewrite Hturn in Hs; cbn [chess.Color_eqb] in Hs;
      destruct Hs as [Hw Hb]; rewrite Hw, Hb, ?length_app; simpl; lia.
Qed.

Lemma meanAcc_nil : meanAcc (F := F) [] = ofInt 0.
Proof. reflexivity. Qed.

Lemma collect_app (target : string) (rs1 rs2 : list (result F)) :
  collect target (rs1 ++ rs2)%list
  = fold_left
      (fun '(userAcc, totalMoves, analyzed) r =>
         if ok r then
           ((userAcc ++ [if String.eqb (white r) target then wa r else ba r])%list,
            totalMoves + moves r,
            analyzed + 1)
         else (userAcc, totalMoves, analyzed))
      rs2 (collect target rs1).
Proof. unfold collect. now rewrite fold_left_app. Qed.

(** The loop of [main] passes over a result that is absent. *)
Lemma collect_skips (target : string) (rs1 rs2 : list (result F))
    (r : result F) :
  ok r = false ->
  collect target (rs1 ++ r :: rs2)%list = collect target (rs1 ++ rs2)%list.
Proof.
  intros Hr. rewrite !collect_app. cbn [fold_left].
  destruct (collect target rs1) as [[userAcc totalMoves] analyzed].
  now rewrite Hr.
Qed.

End AnalyzerFacts.

Lemma fold_left_Qplus (xs : list Q) (a : Q) :
  (fold_left Qplus xs a == a + fold_right Qplus 0 xs)%Q.
Proof.
  revert a. induction xs as [|x xs IH]; intros a; simpl.
  - ring.
  - rewrite IH. ring.
Qed.

(** In exact arithmetic the aggregation is the arithmetic mean. *)
Lemma meanAcc_arithmeticMean (xs : list Q) :
  (meanAcc xs == arithmeticMean xs)%Q.
Proof.
  unfold meanAcc, arithmeticMean.
  destruct xs as [|x xs]; [reflexivity|].
  replace (0 <? Z.of_nat (length (x :: xs))) with true
    by (symmetry; apply Z.ltb_lt; simpl length; lia).
  cbn [fdiv ExactOps fadd ofInt].
  rewrite fold_left_Qplus.
  change (inject_Z 0) with 0%Q. now rewrite Qplus_0_l.
Qed.

Lemma Stub_lawful : chess.Lawful Stub.lib.
Proof.
  split; [reflexivity|].
  intros g [|]; [intros _|discriminate].
  change (chess.Turn Stub.lib (S g) = chess.opposite (chess.Turn Stub.lib g)).
  unfold Stub.lib, chess.Turn.
  rewrite Nat.even_succ, <- Nat.negb_even.
  now destruct (Nat.even g).
Qed.

(** C5. [analyzeGame] returns the absent result, and no engine has been
    started, when the record has no move text, and when neither of its two
    names is the target name once all three are lowered. *)
Theorem analyzeGame_rejects {F : Type} {ops : Float64Ops F}
    (L : chess.Library) (ToLower : string -> string) (g : GameData)
    (username : string) (sfThreads depth : Z) (os : Start) :
  PGN g = "" \/
  (loweredName ToLower (White g) <> ToLower username /\
   loweredName ToLower (Black g) <> ToLower username) ->
  analyzeGame (F := F) L ToLower g username sfThreads depth os
  = Some (absent, NotStarted) /\
  ok (absent (F := F)) = false.
Proof.
  intros H. split; [|reflexivity]. unfold analyzeGame.
  destruct H as [H|[Hw Hb]].
  - now rewrite admitted_empty.
  - now rewrite admitted_names.
Qed.

Lemma analyzeGame_rejects_witness :
  analyzeGame (F := Q) Stub.lib strings.ToLower Stub.fourMoves "magnus" 1 4
              (Started Stub.fiveSearches)
  = Some (absent, NotStarted) /\
  ok (absent (F := Q)) = false.
Proof.
  apply (analyzeGame_rejects (F := Q)).
  right. split; vm_compute; discriminate.
Defined.

(** A name matches whatever its case. *)
Example analyzeGame_accepts_any_case :
  exists r sess,
    analyzeGame (F := Q) Stub.lib strings.ToLower Stub.fourMoves "hikaru" 1 4
                (Started Stub.fiveSearches) = Some (r, sess) /\
    ok r = true /\ white r = "hikaru" /\ black r = "fabiano".
Proof. eexists. eexists. split; [vm_compute; reflexivity|]. repeat split. Qed.

Lemma replay_sides {F : Type} {ops : Float64Ops F} (L : chess.Library)
    (mvs : list (chess.Move L)) (e e' : StockfishEngine)
    (whiteAcc blackAcc : list F) :
  chess.Lawful L ->
  chess.applies L (chess.NewGame L) mvs = true ->
  replay L mvs e = Some (whiteAcc, blackAcc, e') ->
  length whiteAcc = Nat.div2 (S (length mvs)) /\
  length blackAcc = Nat.div2 (length mvs).
Proof.
  intros Hlaw Happ. unfold replay.
  destruct (analyze_total e (chess.FEN L (chess.NewGame L))) as [[t e0] Ha].
  rewrite Ha. cbn [bind fst snd]. intros Hs.
  pose proof Hlaw as [Hfirst _].
  apply (scoreMoves_sides L mvs Hlaw) in Hs; auto.
  rewrite Hfirst in Hs. exact Hs.
Qed.

(** In binary64 the aggregation is the mean computed with the operations
    of [float64]. *)
Lemma meanAcc_arithmeticMean64 (xs : list float) :
  meanAcc xs = arithmeticMean64 xs.
Proof. destruct xs as [|x xs]; reflexivity. Qed.

(** C6. A present result has for each side the aggregation [meanAcc] of the
    accuracies the loop collected for that side, and for [totalMoves] the
    number of accuracies of the two sides together; under the rules of
    chess a game of four moves that all apply has two accuracies on each
    side and [totalMoves = 4].  This holds in every arithmetic.  The
    aggregation is the arithmetic mean: in exact arithmetic the sum over
    the number of values, and in binary64 the sum, added up in the order of
    the moves from 0, divided by the number of values converted to
    [float64]; for a side without accuracies it is 0, in binary64 the
    number 0 and not NaN. *)
Theorem analyzeGame_aggregates :
  (forall (F : Type) (ops : Float64Ops F) (L : chess.Library)
          (ToLower : string -> string) (g : GameData) (username : string)
          (sfThreads depth : Z) (os : Start) (r : result F) (sess : Session),
     analyzeGame L ToLower g username sfThreads depth os = Some (r, sess) ->
     ok r = true ->
     exists whiteAcc blackAcc,
       accuracyLists L ToLower g username sfThreads depth os
       = Some (whiteAcc, blackAcc) /\
       wa r = meanAcc whiteAcc /\
       ba r = meanAcc blackAcc /\
       moves r = Z.of_nat (length whiteAcc) + Z.of_nat (length blackAcc) /\
       (chess.Lawful L ->
        forall mvs,
          chess.PGN L (PGN g) = Some mvs ->
          length mvs = 4%nat ->
          chess.applies L (chess.NewGame L) mvs = true ->
          length whiteAcc = 2%nat /\ length blackAcc = 2%nat /\
          moves r = 4)) /\
  (forall accs : list Q,
     (meanAcc accs == arithmeticMean accs)%Q /\
     (accs = [] -> meanAcc accs = 0%Q)) /\
  (forall accs : list float,
     meanAcc accs = arithmeticMean64 accs /\
     (accs = [] ->
      meanAcc accs = 0%float /\ PrimFloat.is_nan (meanAcc accs) = false)).
Proof.
  split; [|split].
  - intros F ops L ToLower g username sfThreads depth os r sess Hrun Hok.
    destruct (analyzeGame_present L ToLower g username sfThreads depth os r
                sess Hrun Hok)
      as (white & black & mvs & e & wA & bA & e' & Hadm & Hnew & Hrep & ->
          & _).
    exists wA, bA. cbn [wa ba moves].
    split.
    { unfold accuracyLists. rewrite Hadm, Hnew, Hrep. reflexivity. }
    split; [reflexivity|]. split; [reflexivity|]. split; [reflexivity|].
    intros Hlaw mvs' Hpgn Hfour Happ.
    apply admitted_some in Hadm as (_ & _ & _ & _ & Hpgn' & _).
    rewrite Hpgn' in Hpgn. injection Hpgn as ->.
    destruct (replay_sides L mvs' e e' wA bA Hlaw Happ Hrep) as [Hw Hb].
    rewrite Hfour in Hw, Hb. simpl in Hw, Hb. rewrite Hw, Hb.
    repeat split; reflexivity.
  - intros accs. split; [apply meanAcc_arithmeticMean|now intros ->].
  - intros accs. split; [apply meanAcc_arithmeticMean64|].
    intros ->. split; reflexivity.
Qed.

Lemma analyzeGame_aggregates_witness :
  exists r sess,
    analyzeGame (F := float) Stub.lib strings.ToLower Stub.fourMoves "hikaru"
                1 4 (Started Stub.fiveSearches) = Some (r, sess) /\
    ok r = true /\
    wa r = arithmeticMean64 [0x1.67fffffffffffp+6%float; 100%float] /\
    ba r = arithmeticMean64 [96%float; 100%float] /\
    wa r = 95%float /\ ba r = 98%float /\ moves r = 4.
Proof.
  destruct analyzeGame_aggregates as (Hany & _ & H64).
  eexists. eexists. split; [vm_compute; reflexivity|].
  split; [reflexivity|].
  edestruct (Hany float Binary64Ops Stub.lib strings.ToLower Stub.fourMoves
               "hikaru" 1 4 (Started Stub.fiveSearches))
    as (wA & bA & Hlists & Hwa & Hba & _ & Hfour);
    [vm_compute; reflexivity|reflexivity|].
  destruct (Hfour Stub_lawful [true; true; true; true] eq_refl eq_refl eq_refl)
    as (_ & _ & Hmoves).
  assert (HwA : wA = [0x1.67fffffffffffp+6%float; 100%float]).
  { vm_compute in Hlists. now injection Hlists as <- _. }
  assert (HbA : bA = [96%float; 100%float]).
  { vm_compute in Hlists. now injection Hlists as _ <-. }
  split; [rewrite <- HwA, <- (proj1 (H64 wA)); exact Hwa|].
  split; [rewrite <- HbA, <- (proj1 (H64 bA)); exact Hba|].
  split; [reflexivity|]. split; [reflexivity|]. exact Hmoves.
Defined.

(** In binary64 the accuracy of a side without moves is 0, not NaN. *)
Example meanAcc_empty_binary64 : meanAcc (F := float) [] = 0%float.
Proof. reflexivity. Qed.

(** C8 (what the code does). The loop of [analyzeGame] goes through the
    whole decoded list: the error of [pos.Move(mv)] is dropped, so a move
    that is rejected gets an accuracy like any other and the moves after it
    are scored as well.  A present result has [totalMoves] equal to the
    length of the decoded list, whether or not its moves apply. *)
Theorem analyzeGame_scores_every_move {F : Type} {ops : Float64Ops F}
    (L : chess.Library) (ToLower : string -> string) (g : GameData)
    (username : string) (sfThreads depth : Z) (os : Start)
    (r : result F) (sess : Session) :
  analyzeGame L ToLower g username sfThreads depth os = Some (r, sess) ->
  ok r = true ->
  exists mvs,
    chess.PGN L (PGN g) = Some mvs /\
    moves r = Z.of_nat (length mvs).
Proof.
  intros Hrun Hok.
  destruct (analyzeGame_present L ToLower g username sfThreads depth os r sess
              Hrun Hok)
    as (white & black & mvs & e & wA & bA & e' & Hadm & _ & Hrep & -> & _).
  apply admitted_some in Hadm as (_ & _ & _ & _ & Hpgn & _).
  exists mvs. split; [exact Hpgn|]. cbn [moves].
  destruct (replay_lengths L mvs e) as (wA' & bA' & e'' & Hrep' & Hlen).
  rewrite Hrep in Hrep'. injection Hrep' as <- <- <-. lia.
Qed.

Lemma analyzeGame_scores_every_move_witness :
  exists r sess,
    analyzeGame (F := Q) Stub.lib strings.ToLower Stub.rejectedSecond
                "hikaru" 1 4 (Started Stub.fiveSearches) = Some (r, sess) /\
    chess.applies Stub.lib (chess.NewGame Stub.lib) [true; false; true; true]
    = false /\
    ok r = true /\
    moves r = 4.
Proof.
  eexists. eexists. split; [vm_compute; reflexivity|].
  split; [reflexivity|]. split; [reflexivity|].
  edestruct (analyzeGame_scores_every_move (F := Q) Stub.lib strings.ToLower
               Stub.rejectedSecond "hikaru" 1 4 (Started Stub.fiveSearches))
    as (mvs & Hpgn & Hmoves); [vm_compute; reflexivity|reflexivity|].
  vm_compute in Hpgn. injection Hpgn as <-. exact Hmoves.
Defined.

(** The run on four moves of which the second is rejected: the rejected
    move is scored for Black, on the position it left unchanged, and the
    two moves after it are scored too. *)
Example analyzeGame_rejected_move_run :
  snd (chess.DoMove Stub.lib 1%nat false) = true /\
  option_map (fun lists => (map Qred (fst lists), map Qred (snd lists)))
    (accuracyLists (F := Q) Stub.lib strings.ToLower Stub.rejectedSecond
                   "hikaru" 1 4 (Started Stub.fiveSearches))
  = Some ([90%Q; 100%Q], [96%Q; 74%Q]).
Proof. split; now vm_compute. Qed.

(** When the pipe closes after the banner, before [uciok], an engine is
    returned all the same. *)
Lemma NewStockfishEngine_closed_pipe : ~ startupFailsOnClosedPipe.
Proof.
  intros claim.
  destruct (claim ["Stockfish 16 by the Stockfish developers" ++ LF] 1 4)
    as [err Herr].
  - intros line [<-|[]]. now vm_compute.
  - discriminate Herr.
Qed.

(** C7 (amended). [NewStockfishEngine] fails exactly when the subprocess
    cannot be started, with the error of [cmd.Start()]; [analyzeGame] then
    returns the absent result without a session, and the loop of [main]
    passes over it.  When the subprocess starts, an engine comes back with
    no error, whatever the subprocess writes: [waitForReady] also returns
    when the pipe closes. *)
Theorem NewStockfishEngine_fails_on_start_only :
  (forall err threads depth,
     NewStockfishEngine (StartFails err) threads depth = inr err) /\
  (forall stdout threads depth,
     NewStockfishEngine (Started stdout) threads depth
     = inl {| stdin := ["uci" ++ LF;
                        ("setoption name Threads value " ++ Itoa threads)
                          ++ LF;
                        "setoption name UCI_ShowWDL value true" ++ LF;
                        "isready" ++ LF];
              reader := waitLoop (waitLoop stdout "uciok") "readyok";
              depth := depth |}) /\
  (forall (F : Type) (ops : Float64Ops F) (L : chess.Library) ToLower g
          username sfThreads depth err,
     exists sess,
       analyzeGame (F := F) L ToLower g username sfThreads depth
                   (StartFails err) = Some (absent, sess) /\
       forall e, sess <> Closed e) /\
  (forall (F : Type) (ops : Float64Ops F) target (rs1 rs2 : list (result F)),
     collect target (rs1 ++ absent :: rs2)%list
     = collect target (rs1 ++ rs2)%list).
Proof.
  split; [reflexivity|].
  split.
  { intros stdout threads depth. reflexivity. }
  split.
  - intros F ops L ToLower g username sfThreads depth err. unfold analyzeGame.
    destruct (admitted L ToLower g username) as [[[white black] mvs]|].
    + exists (StartFailed err). split; [reflexivity|discriminate].
    + exists NotStarted. split; [reflexivity|discriminate].
  - intros F ops target rs1 rs2. now apply collect_skips.
Qed.

(** On a session whose pipe is already closed every evaluation gives the
    default triple, so every move scores 100. *)
Example analyzeGame_closed_pipe :
  exists sess,
    analyzeGame (F := float) Stub.lib strings.ToLower Stub.rejectedSecond
                "hikaru" 1 4 (Started []) 
    = Some ({| wa := 100%float; ba := 100%float; moves := 4;
               white := "hikaru"; black := "fabiano"; ok := true |}, sess).
Proof. eexists. now vm_compute. Qed.

(** ** The batch scheduler *)

Section SchedulerFacts.

Import Scheduler.

Context {F : Type} {ops : Float64Ops F}.
Variable L : chess.Library.
Variable ToLower : string -> string.
Variables (username : string) (sfThreads depth workers : Z).

#[local] Abbreviation step :=
  (Scheduler.step L ToLower username sfThreads depth workers).
#[local] Abbreviation reachable :=
  (Scheduler.reachable L ToLower username sfThreads depth workers).
#[local] Abbreviation inevitably :=
  (Scheduler.inevitably L ToLower username sfThreads depth workers).
#[local] Abbreviation invariant := (Scheduler.invariant workers).

Lemma count_middle (f : PC -> bool) (ts1 ts2 : list Task) (t : Task) :
  count f (ts1 ++ t :: ts2)%list
  = count f ts1 + (if f (pc t) then 1 else 0) + count f ts2.
Proof.
  unfold count. rewrite filter_app, length_app. cbn [filter].
  destruct (f (pc t)); cbn [length]; lia.
Qed.

Lemma count_last (f : PC -> bool) (ts : list Task) (t : Task) :
  count f (ts ++ [t])%list = count f ts + (if f (pc t) then 1 else 0).
Proof.
  rewrite count_middle. assert (H0 : count f [] = 0) by reflexivity. lia.
Qed.

Lemma count_nonneg (f : PC -> bool) (ts : list Task) : 0 <= count f ts.
Proof. unfold count. lia. Qed.

Lemma count_le (f g : PC -> bool) (ts : list Task) :
  (forall p, f p = true -> g p = true) -> count f ts <= count g ts.
Proof.
  intros Hfg. unfold count.
  induction ts as [|t ts IH]; cbn [filter]; [lia|].
  destruct (f (pc t)) eqn:Ef.
  - rewrite (Hfg _ Ef). cbn [length]. lia.
  - destruct (g (pc t)); cbn [length]; lia.
Qed.

Lemma invariant_init (allGames : list GameData) :
  0 <= workers -> invariant allGames (init (F := F) allGames).
Proof. intros Hw. repeat split; simpl; auto. Qed.

Lemma submitted_middle (ps : list GameData) (ts1 ts2 : list Task)
    (g : GameData) (p q : PC) (n m : Z) (rs rs' : list (result F)) :
  submitted {| pending := ps;
               tasks := ts1 ++ {| game := g; pc := p |} :: ts2;
               sem := n; results := rs |}
  = submitted {| pending := ps;
                 tasks := ts1 ++ {| game := g; pc := q |} :: ts2;
                 sem := m; results := rs' |}.
Proof. unfold submitted. cbn [tasks]. now rewrite !map_app. Qed.

Lemma invariant_step (allGames : list GameData) (s s' : State F) :
  invariant allGames s -> step s s' -> invariant allGames s'.
Proof.
  intros (Hsem & Hle & Hsub) Hstep.
  destruct Hstep; unfold Scheduler.invariant in *;
    cbn [sem tasks pending] in *;
    rewrite ?count_last, ?count_middle in *; cbn [pc holds] in *;
    (split; [lia|split; [lia|]]);
    try (erewrite submitted_middle; exact Hsub).
  unfold submitted in *. cbn [tasks pending] in *.
  rewrite map_app, <- app_assoc. exact Hsub.
Qed.

Lemma reachable_invariant (allGames : list GameData) (s : State F) :
  reachable allGames s -> invariant allGames s.
Proof.
  induction 1 as [Hw|s s' _ IH Hstep].
  - now apply invariant_init.
  - exact (invariant_step allGames s s' IH Hstep).
Qed.

Lemma wsum_middle (ts1 ts2 : list Task) (t : Task) :
  wsum (ts1 ++ t :: ts2)%list = (wsum ts1 + weight (pc t) + wsum ts2)%nat.
Proof. unfold wsum. rewrite map_app, list_sum_app. simpl. lia. Qed.

Lemma measure_step (s s' : State F) :
  step s s' -> (measure s' < measure s)%nat.
Proof.
  intros Hstep. unfold measure.
  destruct Hstep; cbn [tasks pending]; rewrite ?wsum_middle;
    change (wsum []) with 0%nat; cbn [pc weight length]; lia.
Qed.

(** On every run all the games end up handed to a goroutine: the [for]
    loop is never blocked, and no run goes on for ever. *)
Lemma all_submitted (allGames : list GameData) (s : State F) :
  (submitted s ++ pending s)%list = allGames ->
  inevitably (fun s' => pending s' = [] /\ submitted s' = allGames) s.
Proof.
  remember (measure s) as n eqn:Hn. revert s Hn.
  induction n as [n IH] using lt_wf_ind. intros s Hn Hsub.
  destruct (pending s) as [|g gs] eqn:Hp.
  - apply inev_now. split; [exact Hp|]. now rewrite app_nil_r in Hsub.
  - apply inev_later.
    + destruct s as [ps ts n' rs]. cbn [pending] in Hp. subst ps.
      eexists. apply step_go.
    + intros s' Hstep. apply (IH (measure s')); [|reflexivity|].
      * subst n. now apply measure_step.
      * rewrite <- Hp in Hsub. clear Hp.
        destruct Hstep; cbn [pending] in *;
          try (erewrite submitted_middle; exact Hsub).
        unfold submitted in *. cbn [tasks] in *.
        rewrite map_app, <- app_assoc. exact Hsub.
Qed.

End SchedulerFacts.

(** ** Lines of the shape Stockfish writes

    [wdlOf] is stated with the cuts of the code.  The lemmas below give it
    on the text of a line: some text in which the marker is not found
    before its end, the marker, three integers each followed by one space,
    and the rest of the line. *)

Lemma append_length (s t : string) : len (s ++ t) = len s + len t.
Proof.
  unfold len. induction s as [|c s IH]; simpl String.length; [lia|].
  simpl in IH. lia.
Qed.

Lemma append_assoc (s t u : string) : (s ++ t) ++ u = s ++ t ++ u.
Proof. induction s as [|c s IH]; simpl; [reflexivity|now rewrite IH]. Qed.

Lemma HasPrefix_self (m rest : string) : HasPrefix (m ++ rest) m = true.
Proof.
  induction m as [|c m IH]; simpl; [reflexivity|].
  now rewrite Ascii.eqb_refl.
Qed.

Lemma HasPrefix_app (m s t : string) :
  len m <= len s -> HasPrefix (s ++ t) m = HasPrefix s m.
Proof.
  unfold len. revert s.
  induction m as [|p m IH]; intros s Hlen; [reflexivity|].
  destruct s as [|c s]; [simpl in Hlen; lia|].
  simpl. rewrite IH; [reflexivity|]. simpl in Hlen. lia.
Qed.

Lemma Index_prefix (s sub : string) :
  HasPrefix s sub = true -> Index s sub = 0.
Proof. intros H. destruct s; cbn [Index]; now rewrite H. Qed.

(** A marker that is first found at the end of [pre ++ m] is first found
    there in every line that goes on after it. *)
Lemma Index_first (pre m rest : string) :
  Index (pre ++ m) m = len pre -> Index (pre ++ m ++ rest) m = len pre.
Proof.
  induction pre as [|c pre IH]; intros H.
  - change (Index (m ++ rest) m = 0).
    apply Index_prefix. apply HasPrefix_self.
  - change (String c pre ++ m) with (String c (pre ++ m)) in H.
    change (String c pre ++ m ++ rest) with (String c (pre ++ m ++ rest)).
    rewrite Index_cons in H. rewrite Index_cons.
    assert (Hlen : len (String c pre) = len pre + 1)
      by (unfold len; simpl String.length; lia).
    assert (Hpos : 0 <= len pre) by (unfold len; lia).
    rewrite Hlen in *.
    destruct (HasPrefix (String c (pre ++ m)) m) eqn:E; [lia|].
    destruct (Z.eqb_spec (Index (pre ++ m) m) (-1)) as [Hm|Hm]; [lia|].
    assert (E' : HasPrefix (String c (pre ++ m ++ rest)) m = false).
    { rewrite <- E, <- append_assoc.
      change (String c ((pre ++ m) ++ rest))
        with (String c (pre ++ m) ++ rest).
      apply HasPrefix_app.
      change (String c (pre ++ m)) with (String c pre ++ m).
      rewrite append_length. lia. }
    rewrite E', IH by lia.
    destruct (Z.eqb_spec (len pre) (-1)); lia.
Qed.

Lemma drop_app (p x : string) (k : nat) :
  drop (String.length p + k) (p ++ x) = drop k x.
Proof. induction p as [|c p IH]; simpl; [reflexivity|exact IH]. Qed.

Lemma take_app (p x : string) : take (String.length p) (p ++ x) = p.
Proof. induction p as [|c p IH]; simpl; [now destruct x|now rewrite IH]. Qed.

(** A field without a space ends at the first space after it. *)
Lemma Index_field (f rest : string) :
  Index f " " = -1 -> Index (f ++ " " ++ rest) " " = len f.
Proof.
  induction f as [|c f IH]; intros H; [reflexivity|].
  change (String c f ++ " " ++ rest) with (String c (f ++ " " ++ rest)).
  rewrite Index_cons in H. rewrite Index_cons.
  assert (Hlen : len (String c f) = len f + 1)
    by (unfold len; simpl String.length; lia).
  assert (Hpos : 0 <= len f) by (unfold len; lia).
  destruct (HasPrefix (String c f) " ") eqn:E; [discriminate|].
  destruct (Z.eqb_spec (Index f " ") (-1)) as [Hf|Hf];
    [|destruct (Index_range f " "); lia].
  assert (E' : HasPrefix (String c (f ++ " " ++ rest)) " " = false).
  { simpl in E |- *. now rewrite andb_true_r in *. }
  rewrite E', (IH Hf), Hlen.
  destruct (Z.eqb_spec (len f) (-1)); lia.
Qed.

Lemma genSplit_field (f rest : string) (n : nat) :
  Index f " " = -1 ->
  genSplit (f ++ " " ++ rest) " " (S n) = f :: genSplit rest " " n.
Proof.
  intros H. cbn [genSplit]. rewrite (Index_field f rest H).
  assert (Hpos : 0 <= len f) by (unfold len; lia).
  destruct (Z.ltb_spec (len f) 0) as [|_]; [lia|].
  unfold len at 1. rewrite Nat2Z.id, take_app.
  replace (Z.to_nat (len f + len " ")) with (String.length f + 1)%nat.
  - rewrite drop_app. reflexivity.
  - unfold len. simpl String.length. lia.
Qed.

Lemma digits_field (s : string) :
  forall acc v, digits s acc = Some v -> Index s " " = -1.
Proof.
  induction s as [|c s IH]; intros acc v H; [reflexivity|].
  cbn [digits] in H. destruct (is_digit c) eqn:Ec; [|discriminate].
  rewrite Index_cons, (IH _ _ H).
  assert (E : HasPrefix (String c s) " " = false).
  { simpl. destruct (Ascii.eqb_spec c " ") as [->|]; [discriminate Ec|].
    reflexivity. }
  now rewrite E.
Qed.

(** An integer as [Atoi] reads it has no space in it. *)
Lemma Atoi_field (f : string) (v : Z) : Atoi f = Some v -> Index f " " = -1.
Proof.
  unfold Atoi. intros H.
  assert (Hbody : forall body neg,
            match body with
            | "" => None
            | String _ _ =>
                match digits body 0 with
                | Some v0 =>
                    let v1 := if neg : bool then - v0 else v0 in
                    if (minInt <=? v1) && (v1 <=? maxInt) then Some v1
                    else None
                | None => None
                end
            end = Some v -> Index body " " = -1).
  { intros body neg Hb. destruct body as [|c body]; [discriminate|].
    destruct (digits (String c body) 0) as [v0|] eqn:Ed; [|discriminate].
    exact (digits_field _ _ _ Ed). }
  destruct f as [|c f]; [discriminate|].
  destruct (Ascii.eqb_spec c "+") as [->|Hplus].
  { rewrite Index_cons, (Hbody f false H). reflexivity. }
  destruct (Ascii.eqb_spec c "-") as [->|Hminus].
  { rewrite Index_cons, (Hbody f true H). reflexivity. }
  apply (Hbody (String c f) false).
  destruct c as [[|] [|] [|] [|] [|] [|] [|] [|]]; try exact H;
    exfalso; auto.
Qed.

(** The triple of a line of that shape. *)
Lemma wdlOf_line (pre f0 f1 f2 post : string) (w d l : Z) :
  Index (pre ++ " wdl ") " wdl " = len pre ->
  Atoi f0 = Some w -> Atoi f1 = Some d -> Atoi f2 = Some l ->
  wdlOf (pre ++ " wdl " ++ f0 ++ " " ++ f1 ++ " " ++ f2 ++ " " ++ post)
  = Some (w, d, l).
Proof.
  intros Hpre H0 H1 H2. unfold wdlOf, markerFields.
  set (fields := f0 ++ " " ++ f1 ++ " " ++ f2 ++ " " ++ post).
  rewrite (Index_first pre " wdl " fields Hpre).
  assert (Hpos : 0 <= len pre) by (unfold len; lia).
  destruct (Z.eqb_spec (len pre) (-1)) as [|_]; [lia|].
  replace (Z.to_nat (len pre + 5)) with (String.length pre + 5)%nat
    by (unfold len; lia).
  rewrite drop_app. cbn [drop append].
  assert (Hsplit : SplitN fields " " 4 = [f0; f1; f2; post]).
  { unfold SplitN. cbn [Z.eqb Z.ltb Z.compare].
    assert (Hlen : 3 <= len fields).
    { unfold fields. rewrite !append_length.
      change (len " ") with 1. unfold len. lia. }
    destruct (Z.ltb_spec (len fields + 1) 4) as [|_]; [lia|].
    change (Z.to_nat (4 - 1)) with 3%nat. unfold fields.
    rewrite (genSplit_field f0 _ 2 (Atoi_field f0 w H0)).
    rewrite (genSplit_field f1 _ 1 (Atoi_field f1 d H1)).
    rewrite (genSplit_field f2 _ 0 (Atoi_field f2 l H2)).
    reflexivity. }
  rewrite Hsplit, H0, H1, H2. reflexivity.
Qed.

(** * Further properties of the program *)

(** ** The handshake *)

(** [waitForReady] drops the lines up to and including the first one that
    holds the token. *)
Lemma waitLoop_found (before : list string) (line : string)
    (after : list string) (token : string) :
  Forall (fun x => Contains x token = false) before ->
  Contains line token = true ->
  waitLoop (before ++ line :: after)%list token = after.
Proof.
  intros Hb Hl. induction Hb as [|x before Hx _ IH]; cbn [app waitLoop].
  - now rewrite Hl.
  - now rewrite Hx.
Qed.

(** Without the token it reads to the end of the output. *)
Lemma waitLoop_missing (lines : list string) (token : string) :
  Forall (fun x => Contains x token = false) lines ->
  waitLoop lines token = [].
Proof.
  intros H. induction H as [|x lines Hx _ IH]; cbn [waitLoop];
    [reflexivity|now rewrite Hx].
Qed.

(** X1. [waitForReady] leaves the reader just after the first line that
    contains the token, whatever came before it; when no line contains the
    token it comes back with nothing left to read.  It writes nothing. *)
Theorem waitForReady_consumes (e : StockfishEngine) (token : string)
    (before : list string) (line : string) (after : list string) :
  Forall (fun x => Contains x token = false) before ->
  (reader e = (before ++ line :: after)%list ->
   Contains line token = true ->
   waitForReady e token
   = {| stdin := stdin e; reader := after; depth := depth e |}) /\
  (reader e = before ->
   waitForReady e token
   = {| stdin := stdin e; reader := []; depth := depth e |}).
Proof.
  intros Hb. split.
  - intros Hr Hl. unfold waitForReady.
    now rewrite Hr, (waitLoop_found before line after token Hb Hl).
  - intros Hr. unfold waitForReady. rewrite Hr.
    now rewrite (waitLoop_missing before token Hb).
Qed.

Lemma waitForReady_consumes_witness :
  waitForReady {| stdin := ["uci" ++ LF]; reader := Stub.handshake;
                  depth := 4 |} "uciok"
  = {| stdin := ["uci" ++ LF]; reader := ["readyok" ++ LF]; depth := 4 |}.
Proof.
  assert (Hb : Forall (fun x => Contains x "uciok" = false)
                 ["Stockfish 16 by the Stockfish developers" ++ LF;
                  "id name Stockfish 16" ++ LF])
    by (repeat (constructor; [now vm_compute|]); constructor).
  apply (proj1 (waitForReady_consumes
                  {| stdin := ["uci" ++ LF]; reader := Stub.handshake;
                     depth := 4 |}
                  "uciok" _ ("uciok" ++ LF) ["readyok" ++ LF] Hb)).
  - reflexivity.
  - now vm_compute.
Defined.

(** X2. When the subprocess answers the handshake, [NewStockfishEngine]
    returns an engine that has written its four commands in order and whose
    reader stands just after the first [readyok] line that follows the
    first [uciok] line: the output of the searches is all that is left. *)
Theorem NewStockfishEngine_handshake (banner : list string) (uciok : string)
    (options : list string) (readyok : string) (rest : list string)
    (threads depth : Z) :
  Forall (fun x => Contains x "uciok" = false) banner ->
  Contains uciok "uciok" = true ->
  Forall (fun x => Contains x "readyok" = false) options ->
  Contains readyok "readyok" = true ->
  NewStockfishEngine
    (Started (banner ++ uciok :: options ++ readyok :: rest)%list)
    threads depth
  = inl {| stdin := greeting threads; reader := rest; depth := depth |}.
Proof.
  intros Hb Hu Ho Hr. unfold NewStockfishEngine, waitForReady, send.
  cbn [stdin reader app].
  rewrite (waitLoop_found banner uciok _ "uciok" Hb Hu).
  rewrite (waitLoop_found options readyok rest "readyok" Ho Hr).
  reflexivity.
Qed.

Lemma NewStockfishEngine_handshake_witness :
  NewStockfishEngine
    (Started (Stub.handshake ++ Stub.search 350 400 250)%list) 1 4
  = inl {| stdin := greeting 1; reader := Stub.search 350 400 250;
           depth := 4 |}.
Proof.
  apply (NewStockfishEngine_handshake
           ["Stockfish 16 by the Stockfish developers" ++ LF;
            "id name Stockfish 16" ++ LF]
           ("uciok" ++ LF) [] ("readyok" ++ LF) (Stub.search 350 400 250)).
  - repeat (constructor; [now vm_compute|]). constructor.
  - now vm_compute.
  - constructor.
  - now vm_compute.
Defined.

(** ** One evaluation *)

Lemma analyzeLoop_suffix (lines : list string) (held : WDL) :
  exists t consumed rest,
    analyzeLoop lines held = Some (t, rest) /\
    lines = (consumed ++ rest)%list.
Proof.
  revert held. induction lines as [|line lines IH]; intros held;
    cbn [analyzeLoop].
  - exists held, [], []. split; reflexivity.
  - rewrite scanLine_total. cbn [bind].
    destruct (HasPrefix line "bestmove").
    + exists (scanned held line), [line], lines. split; reflexivity.
    + destruct (IH (scanned held line)) as (t & consumed & rest & Hrun & ->).
      exists t, (line :: consumed), rest. split; [exact Hrun|reflexivity].
Qed.

(** X3. Whatever the subprocess writes, [analyze] returns; it has then
    written exactly the two commands of one evaluation after what was
    written before, it has kept the depth, and what is left to read is an
    end piece of what was there: nothing is read twice or put back. *)
Theorem analyze_frame (e : StockfishEngine) (fen : string) :
  exists t e' consumed,
    analyze e fen = Some (t, e') /\
    stdin e' = (stdin e ++ evaluation (depth e) fen)%list /\
    depth e' = depth e /\
    reader e = (consumed ++ reader e')%list.
Proof.
  unfold analyze.
  destruct (analyzeLoop_suffix
              (reader (send (send e ("position fen " ++ fen))
                            ("go depth "
                             ++ Itoa (depth (send e ("position fen " ++ fen))))))
              defaultWDL) as (t & consumed & rest & Hrun & Hsplit).
  rewrite Hrun. cbn [bind fst snd].
  eexists. eexists. exists consumed. split; [reflexivity|].
  cbn [stdin reader depth send] in *.
  split; [now rewrite <- app_assoc|]. split; [reflexivity|exact Hsplit].
Qed.

(** X4. When the pipe closes before a best-move line, [analyze] returns
    with what the lines it read gave and nothing left to read, and every
    evaluation after that returns the default triple (333, 334, 333). *)
Theorem analyze_after_eof (e : StockfishEngine) (fen : string) :
  noBestmove (reader e) ->
  exists e',
    analyze e fen = Some (fold_left scanned (reader e) defaultWDL, e') /\
    reader e' = [] /\
    forall e2 fen2,
      reader e2 = [] ->
      exists e3, analyze e2 fen2 = Some (defaultWDL, e3) /\ reader e3 = [].
Proof.
  intros Hno. unfold analyze. cbn [reader send].
  rewrite (analyzeLoop_eof (reader e) defaultWDL Hno). cbn [bind fst snd].
  eexists. split; [reflexivity|]. split; [reflexivity|].
  intros e2 fen2 H2. unfold analyze. cbn [reader send]. rewrite H2.
  cbn [analyzeLoop bind fst snd]. eexists. split; reflexivity.
Qed.

Lemma analyze_after_eof_witness :
  exists e',
    analyze {| stdin := [];
               reader := ["info depth 3 score cp 31 wdl 400 300 300 nodes 90"
                            ++ LF];
               depth := 4 |} Stub.startFEN
    = Some ((400, 300, 300), e') /\
    reader e' = [].
Proof.
  destruct (analyze_after_eof
              {| stdin := [];
                 reader := ["info depth 3 score cp 31 wdl 400 300 300 nodes 90"
                              ++ LF];
                 depth := 4 |} Stub.startFEN) as (e' & Hrun & Hr & _).
  - repeat (constructor; [now vm_compute|]). constructor.
  - exists e'. split; [|exact Hr]. rewrite Hrun. now vm_compute.
Defined.

(** ** The scorer *)

(** In exact arithmetic [calcAccuracy] is the line [100 - 200 * drop] cut
    off at 0 and at 100. *)
Lemma calcAccuracy_clamp (before after : Q) :
  (calcAccuracy before after
   == Qmin 100 (Qmax 0 (100 - 200 * (before - after))))%Q.
Proof.
  rewrite calcAccuracy_cases.
  assert (Heq : (100 * (1 - 2 * (before - after))
                 == 100 - 200 * (before - after))%Q) by ring.
  destruct (Qle_bool before after) eqn:E;
    [apply Qle_bool_iff in E|apply Qle_bool_false in E; rewrite Heq];
    clear Heq;
    set (x := (100 - 200 * (before - after))%Q);
    assert (Hx : (x == 100 - 200 * (before - after))%Q) by reflexivity;
    clearbody x;
    destruct (Q.max_spec 0 x) as [[H Hm]|[H Hm]]; rewrite Hm;
    match goal with
    | |- context [Qmin 100 ?y] =>
        destruct (Q.min_spec 100 y) as [[H' Hn]|[H' Hn]]; rewrite Hn
    end; lra.
Qed.

Lemma calcAccuracy_range_aux (before after : Q) :
  (0 <= calcAccuracy before after)%Q /\ (calcAccuracy before after <= 100)%Q.
Proof.
  rewrite calcAccuracy_clamp.
  set (x := (100 - 200 * (before - after))%Q). clearbody x.
  destruct (Q.max_spec 0 x) as [[H Hm]|[H Hm]]; rewrite Hm;
    match goal with
    | |- context [Qmin 100 ?y] =>
        destruct (Q.min_spec 100 y) as [[H' Hn]|[H' Hn]]; rewrite Hn
    end; split; lra.
Qed.

(** X5. In exact arithmetic [calcAccuracy] is [100 - 200 * (before - after)]
    cut off below at 0 and above at 100, so every accuracy lies between 0
    and 100. *)
Theorem calcAccuracy_range (before after : Q) :
  (calcAccuracy before after
   == Qmin 100 (Qmax 0 (100 - 200 * (before - after))))%Q /\
  (0 <= calcAccuracy before after)%Q /\ (calcAccuracy before after <= 100)%Q.
Proof.
  split; [apply calcAccuracy_clamp|apply calcAccuracy_range_aux].
Qed.

(** X6. In exact arithmetic the accuracy of a move does not go down when
    the probability after it goes up, and does not go up when the
    probability before it goes up. *)
Theorem calcAccuracy_monotone (before before' after after' : Q) :
  (before' <= before)%Q -> (after <= after')%Q ->
  (calcAccuracy before after <= calcAccuracy before' after')%Q.
Proof.
  intros Hb Ha. rewrite !calcAccuracy_clamp.
  apply Q.min_le_compat_l. apply Q.max_le_compat_l. lra.
Qed.

Lemma calcAccuracy_monotone_witness :
  (calcAccuracy (6 # 10) (4 # 10) <= calcAccuracy (5 # 10) (45 # 100))%Q.
Proof.
  apply calcAccuracy_monotone; unfold Qle; simpl; lia.
Defined.

Lemma unitAll_true :
  allFrom 1001 0 (fun w => allFrom 1001 0 (unitCell w)) = true.
Proof. vm_compute. reflexivity. Qed.

(** X7. For a triple without a negative part that sums to 1000, the win
    probability of either side lies between 0 and 1: in exact arithmetic,
    and in binary64 with the comparisons of [float64], by running every
    such triple. *)
Theorem wdlToProb_range (w d l : Z) (isWhite : bool) :
  0 <= w -> 0 <= d -> 0 <= l -> w + d + l = 1000 ->
  ((0 <= wdlToProb (F := Q) w d l isWhite)%Q /\
   (wdlToProb (F := Q) w d l isWhite <= 1)%Q) /\
  (PrimFloat.leb 0 (wdlToProb (F := float) w d l isWhite) = true /\
   PrimFloat.leb (wdlToProb (F := float) w d l isWhite) 1 = true).
Proof.
  intros Hw Hd Hl Hsum. split.
  - assert (Hq : (inject_Z w + inject_Z d + inject_Z l == 1000)%Q).
    { rewrite <- !inject_Z_plus. now rewrite Hsum. }
    assert (Hw' : (inject_Z 0 <= inject_Z w)%Q)
      by (rewrite <- Zle_Qle; exact Hw).
    assert (Hd' : (inject_Z 0 <= inject_Z d)%Q)
      by (rewrite <- Zle_Qle; exact Hd).
    assert (Hl' : (inject_Z 0 <= inject_Z l)%Q)
      by (rewrite <- Zle_Qle; exact Hl).
    change (inject_Z 0) with 0%Q in *.
    assert (Hdiv : forall x : Q, (x / inject_Z 1000 == x * (1 # 1000))%Q)
      by (intros x; field).
    destruct isWhite; unfold wdlToProb;
      cbn [negb fdiv fadd fmul ofInt half ExactOps]; rewrite Hdiv;
      split; lra.
  - assert (Hw' : 0 <= w < 0 + Z.of_nat 1001) by lia.
    assert (Hd' : 0 <= d < 0 + Z.of_nat 1001) by lia.
    pose proof
      (allFrom_spec 1001 0 (unitCell w)
         (allFrom_spec 1001 0 (fun w => allFrom 1001 0 (unitCell w))
            unitAll_true w Hw') d Hd') as Hcell.
    unfold unitCell in Hcell.
    apply orb_prop in Hcell as [Hbig|Hcell];
      [apply Z.ltb_lt in Hbig; lia|].
    unfold unit64 in Hcell.
    replace (1000 - w - d) with l in Hcell by lia.
    apply andb_prop in Hcell as [Hcell H4].
    apply andb_prop in Hcell as [Hcell H3].
    apply andb_prop in Hcell as [H1 H2].
    destruct isWhite; split; assumption.
Qed.

Lemma wdlToProb_range_witness :
  ((0 <= wdlToProb (F := Q) 300 450 250 false)%Q /\
   (wdlToProb (F := Q) 300 450 250 false <= 1)%Q) /\
  (PrimFloat.leb 0 (wdlToProb (F := float) 300 450 250 false) = true /\
   PrimFloat.leb (wdlToProb (F := float) 300 450 250 false) 1 = true).
Proof. apply wdlToProb_range; lia. Defined.

(** ** The game analyzer, further *)

Section AnalyzerMore.

Context {F : Type} {ops : Float64Ops F}.
Variable L : chess.Library.
Variable ToLower : string -> string.

Lemma analyze_stdin (e e' : StockfishEngine) (fen : string) (t : WDL) :
  analyze e fen = Some (t, e') ->
  stdin e' = (stdin e ++ evaluation (depth e) fen)%list /\
  depth e' = depth e.
Proof.
  unfold analyze.
  match goal with
  | |- context [analyzeLoop ?lines ?held] =>
      destruct (analyzeLoop lines held) as [[t0 rest]|]; [|discriminate]
  end.
  cbn [bind fst snd]. intros [= <- <-]. cbn [stdin depth send].
  split; [now rewrite <- app_assoc|reflexivity].
Qed.

Lemma analyze_silent (e : StockfishEngine) (fen : string) :
  reader e = [] ->
  exists e', analyze e fen = Some (defaultWDL, e') /\ reader e' = [].
Proof.
  intros Hr. unfold analyze. cbn [reader send]. rewrite Hr.
  cbn [analyzeLoop bind fst snd]. eexists. split; reflexivity.
Qed.

Lemma scoreMoves_stdin (mvs : list (chess.Move L)) :
  forall pos e prev (whiteAcc blackAcc whiteAcc' blackAcc' : list F) e',
    scoreMoves L mvs pos e prev whiteAcc blackAcc
    = Some (whiteAcc', blackAcc', e') ->
    stdin e'
    = (stdin e ++ flat_map (evaluation (depth e)) (positionsAfter L pos mvs))%list
    /\ depth e' = depth e.
Proof.
  induction mvs as [|mv mvs IH];
    intros pos e prev whiteAcc blackAcc wA bA e' Hs.
  - cbn in Hs. injection Hs as <- <- <-. cbn [positionsAfter flat_map].
    now rewrite app_nil_r.
  - cbn [scoreMoves] in Hs.
    destruct (analyze e (chess.FEN L (fst (chess.DoMove L pos mv))))
      as [[[[cw cd] cl] e1]|] eqn:Ha; [|discriminate].
    cbn [bind] in Hs. destruct prev as [[pw pd] pl].
    apply analyze_stdin in Ha as [Hs1 Hd1].
    destruct (chess.Color_eqb (chess.Turn L pos) chess.White);
      apply IH in Hs as [Hs2 Hd2]; rewrite Hs2, Hs1, Hd1, Hd2;
      cbn [positionsAfter flat_map]; now rewrite <- app_assoc.
Qed.

(** The loop appends nothing but values of [calcAccuracy]. *)
Lemma scoreMoves_entries (P : F -> Prop) (mvs : list (chess.Move L)) :
  (forall before after, P (calcAccuracy before after)) ->
  forall pos e prev (whiteAcc blackAcc whiteAcc' blackAcc' : list F) e',
    Forall P whiteAcc -> Forall P blackAcc ->
    scoreMoves L mvs pos e prev whiteAcc blackAcc
    = Some (whiteAcc', blackAcc', e') ->
    Forall P whiteAcc' /\ Forall P blackAcc'.
Proof.
  intros HP.
  induction mvs as [|mv mvs IH];
    intros pos e prev whiteAcc blackAcc wA bA e' Hw Hb Hs.
  - cbn in Hs. injection Hs as <- <- <-. now split.
  - cbn [scoreMoves] in Hs.
    destruct (analyze e (chess.FEN L (fst (chess.DoMove L pos mv))))
      as [[[[cw cd] cl] e1]|] eqn:Ha; [|discriminate].
    cbn [bind] in Hs. destruct prev as [[pw pd] pl].
    destruct (chess.Color_eqb (chess.Turn L pos) chess.White);
      apply IH in Hs; auto; apply Forall_app; split; auto.
Qed.

(** On an engine with nothing left to read every move scores 100. *)
Lemma scoreMoves_silent (mvs : list (chess.Move L)) :
  (forall c, fge (wdlToProb (F := F) 333 334 333 c) (wdlToProb 333 334 333 c)
             = true) ->
  forall pos e (whiteAcc blackAcc whiteAcc' blackAcc' : list F) e',
    reader e = [] ->
    Forall (eq (ofInt 100)) whiteAcc -> Forall (eq (ofInt 100)) blackAcc ->
    scoreMoves L mvs pos e defaultWDL whiteAcc blackAcc
    = Some (whiteAcc', blackAcc', e') ->
    Forall (eq (ofInt 100)) whiteAcc' /\ Forall (eq (ofInt 100)) blackAcc'.
Proof.
  intros Hrefl.
  induction mvs as [|mv mvs IH];
    intros pos e whiteAcc blackAcc wA bA e' Hr Hw Hb Hs.
  - cbn in Hs. injection Hs as <- <- <-. now split.
  - cbn [scoreMoves] in Hs.
    destruct (analyze_silent e (chess.FEN L (fst (chess.DoMove L pos mv)))
                Hr) as (e1 & Ha & Hr1).
    rewrite Ha in Hs.
    cbn [bind defaultWDL] in Hs.
    destruct (chess.Color_eqb (chess.Turn L pos) chess.White);
      rewrite (calcAccuracy_no_drop _ _ (Hrefl _)) in Hs;
      apply (IH _ _ _ _ _ _ _ Hr1) in Hs; auto;
      apply Forall_app; split; auto.
Qed.

End AnalyzerMore.

Lemma sum_range (xs : list Q) :
  Forall (fun x => (0 <= x)%Q /\ (x <= 100)%Q) xs ->
  (0 <= fold_right Qplus 0 xs)%Q /\
  (fold_right Qplus 0 xs <= 100 * inject_Z (Z.of_nat (length xs)))%Q.
Proof.
  induction 1 as [|x xs [Hx0 Hx1] _ [IH0 IH1]]; cbn [fold_right length].
  - split; [apply Qle_refl|]. unfold Qle; simpl; lia.
  - rewrite Nat2Z.inj_succ, <- Z.add_1_r, inject_Z_plus.
    change (inject_Z 1) with 1%Q. split; lra.
Qed.

Lemma meanAcc_range (xs : list Q) :
  Forall (fun x => (0 <= x)%Q /\ (x <= 100)%Q) xs ->
  (0 <= meanAcc xs)%Q /\ (meanAcc xs <= 100)%Q.
Proof.
  intros H. rewrite meanAcc_arithmeticMean. unfold arithmeticMean.
  destruct xs as [|x xs].
  - split; unfold Qle; simpl; lia.
  - destruct (sum_range _ H) as [H0 H1].
    assert (Hn : (0 < inject_Z (Z.of_nat (length (x :: xs))))%Q).
    { change 0%Q with (inject_Z 0). rewrite <- Zlt_Qlt. simpl length. lia. }
    split.
    + apply Qle_shift_div_l; [exact Hn|]. lra.
    + apply Qle_shift_div_r; [exact Hn|]. exact H1.
Qed.

(** X8. [analyzeGame] returns the absent result, and no engine has been
    started, when the move text of an admitted record does not decode, and
    when it decodes to no move at all. *)
Theorem analyzeGame_undecodable {F : Type} {ops : Float64Ops F}
    (L : chess.Library) (ToLower : string -> string) (g : GameData)
    (username : string) (sfThreads depth : Z) (os : Start) :
  chess.PGN L (PGN g) = None \/ chess.PGN L (PGN g) = Some [] ->
  analyzeGame (F := F) L ToLower g username sfThreads depth os
  = Some (absent, NotStarted).
Proof.
  intros H. unfold analyzeGame, admitted.
  destruct (String.eqb (PGN g) ""); [reflexivity|].
  destruct (negb _ && negb _); [reflexivity|].
  destruct H as [-> | ->]; reflexivity.
Qed.

Lemma analyzeGame_undecodable_witness :
  analyzeGame (F := Q) Stub.lib strings.ToLower
    {| PGN := "mm?m"; White := Stub.player "Hikaru";
       Black := Stub.player "Fabiano" |}
    "hikaru" 1 4 (Started Stub.fiveSearches)
  = Some (absent, NotStarted).
Proof. apply analyzeGame_undecodable. left. now vm_compute. Defined.

(** A record that passes the four checks is admitted. *)
Lemma admitted_complete (L : chess.Library) (ToLower : string -> string)
    (g : GameData) (username : string) (mvs : list (chess.Move L)) :
  PGN g <> "" ->
  loweredName ToLower (White g) = ToLower username \/
  loweredName ToLower (Black g) = ToLower username ->
  chess.PGN L (PGN g) = Some mvs ->
  mvs <> [] ->
  admitted L ToLower g username
  = Some (loweredName ToLower (White g), loweredName ToLower (Black g), mvs).
Proof.
  intros Hpgn Hname Hdec Hmvs. unfold admitted, loweredName in *.
  destruct (String.eqb_spec (PGN g) "") as [|_]; [contradiction|].
  set (w := match White g with Some p => ToLower (Username p) | None => "" end)
    in *.
  set (b := match Black g with Some p => ToLower (Username p) | None => "" end)
    in *.
  assert (Hcheck : negb (String.eqb w (ToLower username))
                   && negb (String.eqb b (ToLower username)) = false).
  { destruct Hname as [Hn|Hn]; apply String.eqb_eq in Hn; rewrite Hn;
      [reflexivity|apply andb_false_r]. }
  rewrite Hcheck, Hdec.
  destruct mvs as [|m ms]; [contradiction|reflexivity].
Qed.

(** X9. On engine output that is a finite sequence of lines followed by
    end of file, [analyzeGame] returns without a panic.  Its result is
    present exactly when the record has a move text, the lowered target is
    the lowered name of one of its players (the empty name for a player the
    record does not have), the move text decodes to at least one move, and
    the subprocess starts.  The session has then been closed, [quit] being
    the last command written to it.  In every other case the result is the
    absent one and no session has been closed. *)
Theorem analyzeGame_session {F : Type} {ops : Float64Ops F}
    (L : chess.Library) (ToLower : string -> string) (g : GameData)
    (username : string) (sfThreads depth : Z) (os : Start) :
  exists r sess,
    analyzeGame (F := F) L ToLower g username sfThreads depth os
    = Some (r, sess) /\
    (ok r = true <->
     PGN g <> "" /\
     (loweredName ToLower (White g) = ToLower username \/
      loweredName ToLower (Black g) = ToLower username) /\
     (exists mvs, chess.PGN L (PGN g) = Some mvs /\ mvs <> []) /\
     (exists stdout, os = Started stdout)) /\
    (ok r = true ->
     exists e, sess = Closed e /\ last (stdin e) "" = "quit" ++ LF) /\
    (ok r = false -> r = absent /\ forall e, sess <> Closed e).
Proof.
  unfold analyzeGame.
  destruct (admitted L ToLower g username) as [[[white black] mvs]|] eqn:Hadm.
  - apply admitted_some in Hadm
      as (Hpgn & -> & -> & Hname & Hdec & Hmvs).
    destruct os as [err|stdout]; cbn [NewStockfishEngine].
    + eexists. eexists. split; [reflexivity|]. cbn [ok absent].
      split; [|split; [discriminate|]].
      * split; [discriminate|]. intros (_ & _ & _ & stdout & [=]).
      * intros _. split; [reflexivity|discriminate].
    + match goal with
      | |- context [replay L mvs ?e] =>
          destruct (replay_lengths (F := F) L mvs e)
            as (wA & bA & e' & Hr & _)
      end.
      rewrite Hr. cbn [bind]. eexists. eexists. split; [reflexivity|].
      cbn [ok]. split; [|split; [|discriminate]].
      * split; [|reflexivity]. intros _.
        split; [exact Hpgn|]. split; [exact Hname|].
        split; [now exists mvs|now exists stdout].
      * intros _. exists (quit e'). split; [reflexivity|].
        unfold quit, send. cbn [stdin]. apply last_last.
  - eexists. eexists. split; [reflexivity|]. cbn [ok absent].
    split; [|split; [discriminate|]].
    + split; [discriminate|].
      intros (Hpgn & Hname & (mvs & Hdec & Hmvs) & _).
      rewrite (admitted_complete L ToLower g username mvs Hpgn Hname Hdec
                 Hmvs) in Hadm.
      discriminate Hadm.
    + intros _. split; [reflexivity|discriminate].
Qed.

(** X10. The commands of a game that is analyzed are, in order: the four of
    the handshake, then for the start position and for the position after
    each move of the decoded list one [position fen] and one [go depth] at
    the depth asked for, then [quit].  One evaluation is asked for per
    move, plus one. *)
Theorem analyzeGame_commands {F : Type} {ops : Float64Ops F}
    (L : chess.Library) (ToLower : string -> string) (g : GameData)
    (username : string) (sfThreads depth : Z) (os : Start)
    (r : result F) (sess : Session) :
  analyzeGame L ToLower g username sfThreads depth os = Some (r, sess) ->
  ok r = true ->
  exists mvs e,
    chess.PGN L (PGN g) = Some mvs /\
    sess = Closed e /\
    stdin e
    = (greeting sfThreads
       ++ flat_map (evaluation depth)
            (chess.FEN L (chess.NewGame L)
             :: positionsAfter L (chess.NewGame L) mvs)
       ++ [("quit" ++ LF)%string])%list.
Proof.
  intros Hrun Hok.
  destruct (analyzeGame_present L ToLower g username sfThreads depth os r sess
              Hrun Hok)
    as (white & black & mvs & e & wA & bA & e' & Hadm & Hnew & Hrep & _ & ->).
  apply admitted_some in Hadm as (_ & _ & _ & _ & Hpgn & _).
  exists mvs, (quit e'). split; [exact Hpgn|]. split; [reflexivity|].
  destruct os as [err|stdout]; [discriminate|].
  injection Hnew as <-.
  unfold replay in Hrep.
  match type of Hrep with
  | context [analyze ?e0 ?fen] =>
      destruct (analyze e0 fen) as [[t e1]|] eqn:Ha; [|discriminate];
      apply analyze_stdin in Ha as [Hs1 Hd1]
  end.
  cbn [bind fst snd] in Hrep.
  apply scoreMoves_stdin in Hrep as [Hs2 Hd2].
  unfold quit, send. cbn [stdin]. rewrite Hs2, Hs1, Hd1.
  cbn [flat_map]. rewrite <- !app_assoc. reflexivity.
Qed.

Lemma analyzeGame_commands_witness :
  exists r e,
    analyzeGame (F := Q) Stub.lib strings.ToLower Stub.rejectedSecond
                "hikaru" 1 4 (Started Stub.fiveSearches)
    = Some (r, Closed e) /\
    stdin e
    = (greeting 1
       ++ flat_map (evaluation 4)
            ["ply 0"; "ply 1"; "ply 1"; "ply 2"; "ply 3"]
       ++ [("quit" ++ LF)%string])%list.
Proof.
  destruct (analyzeGame (F := Q) Stub.lib strings.ToLower Stub.rejectedSecond
              "hikaru" 1 4 (Started Stub.fiveSearches))
    as [[r sess]|] eqn:Hrun; [|now vm_compute in Hrun].
  assert (Hok : ok r = true) by (vm_compute in Hrun; now injection Hrun as <- _).
  destruct (analyzeGame_commands _ _ _ _ _ _ _ _ _ Hrun Hok)
    as (mvs & e & Hpgn & -> & Hstdin).
  exists r, e. split; [reflexivity|].
  vm_compute in Hpgn. injection Hpgn as <-. exact Hstdin.
Defined.

(** X11. In exact arithmetic every accuracy that [analyzeGame] collects
    lies between 0 and 100, and so do the two averages of a present
    result. *)
Theorem analyzeGame_accuracy_range (L : chess.Library)
    (ToLower : string -> string) (g : GameData) (username : string)
    (sfThreads depth : Z) (os : Start) (r : result Q) (sess : Session) :
  analyzeGame L ToLower g username sfThreads depth os = Some (r, sess) ->
  ok r = true ->
  (exists whiteAcc blackAcc,
     accuracyLists L ToLower g username sfThreads depth os
     = Some (whiteAcc, blackAcc) /\
     Forall (fun a => (0 <= a)%Q /\ (a <= 100)%Q) whiteAcc /\
     Forall (fun a => (0 <= a)%Q /\ (a <= 100)%Q) blackAcc) /\
  ((0 <= wa r)%Q /\ (wa r <= 100)%Q) /\
  ((0 <= ba r)%Q /\ (ba r <= 100)%Q).
Proof.
  intros Hrun Hok.
  destruct (analyzeGame_present L ToLower g username sfThreads depth os r sess
              Hrun Hok)
    as (white & black & mvs & e & wA & bA & e' & Hadm & Hnew & Hrep & -> & _).
  assert (Hlists : Forall (fun a => (0 <= a)%Q /\ (a <= 100)%Q) wA /\
                   Forall (fun a => (0 <= a)%Q /\ (a <= 100)%Q) bA).
  { unfold replay in Hrep.
    match type of Hrep with
    | context [analyze ?e0 ?fen] =>
        destruct (analyze e0 fen) as [[t e1]|]; [|discriminate]
    end.
    cbn [bind fst snd] in Hrep.
    apply (scoreMoves_entries L (fun a => (0 <= a)%Q /\ (a <= 100)%Q) mvs
             calcAccuracy_range_aux) in Hrep; auto. }
  destruct Hlists as [Hw Hb]. cbn [wa ba]. split.
  - exists wA, bA. split; [|now split].
    unfold accuracyLists. now rewrite Hadm, Hnew, Hrep.
  - split; now apply meanAcc_range.
Qed.

Lemma analyzeGame_accuracy_range_witness :
  exists r sess,
    analyzeGame (F := Q) Stub.lib strings.ToLower Stub.rejectedSecond
                "hikaru" 1 4 (Started Stub.fiveSearches) = Some (r, sess) /\
    ((0 <= wa r)%Q /\ (wa r <= 100)%Q) /\
    ((0 <= ba r)%Q /\ (ba r <= 100)%Q).
Proof.
  destruct (analyzeGame (F := Q) Stub.lib strings.ToLower Stub.rejectedSecond
              "hikaru" 1 4 (Started Stub.fiveSearches))
    as [[r sess]|] eqn:Hrun; [|now vm_compute in Hrun].
  assert (Hok : ok r = true) by (vm_compute in Hrun; now injection Hrun as <- _).
  exists r, sess. split; [reflexivity|].
  exact (proj2 (analyzeGame_accuracy_range _ _ _ _ _ _ _ r sess Hrun Hok)).
Defined.

(** X12. When the pipe of the subprocess closes during the handshake, a
    record that is admitted is still reported as analyzed: every
    evaluation gives the default triple, every move of the decoded list
    scores exactly 100, for either side, in exact arithmetic and in
    binary64 alike. *)
Theorem analyzeGame_silent_engine (L : chess.Library)
    (ToLower : string -> string) (g : GameData) (username : string)
    (sfThreads depth : Z) (stdout : list string) (white black : string)
    (mvs : list (chess.Move L)) :
  admitted L ToLower g username = Some (white, black, mvs) ->
  waitLoop (waitLoop stdout "uciok") "readyok" = [] ->
  (exists whiteAcc blackAcc,
     accuracyLists (F := Q) L ToLower g username sfThreads depth
                   (Started stdout) = Some (whiteAcc, blackAcc) /\
     Forall (eq 100%Q) whiteAcc /\ Forall (eq 100%Q) blackAcc /\
     (length whiteAcc + length blackAcc = length mvs)%nat) /\
  (exists whiteAcc blackAcc,
     accuracyLists (F := float) L ToLower g username sfThreads depth
                   (Started stdout) = Some (whiteAcc, blackAcc) /\
     Forall (eq 100%float) whiteAcc /\ Forall (eq 100%float) blackAcc /\
     (length whiteAcc + length blackAcc = length mvs)%nat) /\
  (exists r e,
     analyzeGame (F := float) L ToLower g username sfThreads depth
                 (Started stdout) = Some (r, Closed e) /\ ok r = true).
Proof.
  intros Hadm Hdead.
  assert (Hgen : forall (F : Type) (ops : Float64Ops F),
             (forall c, fge (wdlToProb (F := F) 333 334 333 c)
                            (wdlToProb 333 334 333 c) = true) ->
             exists whiteAcc blackAcc e',
               replay (F := F) L mvs
                 {| stdin := greeting sfThreads; reader := [];
                    depth := depth |} = Some (whiteAcc, blackAcc, e') /\
               Forall (eq (ofInt 100)) whiteAcc /\
               Forall (eq (ofInt 100)) blackAcc /\
               (length whiteAcc + length blackAcc = length mvs)%nat).
  { intros F ops Hrefl.
    destruct (replay_lengths (F := F) L mvs
                {| stdin := greeting sfThreads; reader := [];
                   depth := depth |}) as (wA & bA & e' & Hrep & Hlen).
    exists wA, bA, e'. split; [exact Hrep|].
    unfold replay in Hrep.
    match type of Hrep with
    | context [analyze ?e0 ?fen] =>
        destruct (analyze_silent e0 fen eq_refl) as (e1 & Ha & Hr1)
    end.
    rewrite Ha in Hrep. cbn [bind fst snd] in Hrep.
    destruct (scoreMoves_silent L mvs Hrefl _ _ _ _ _ _ _ Hr1
                (Forall_nil _) (Forall_nil _) Hrep) as [Hw Hb].
    repeat split; assumption. }
  assert (Hnew : NewStockfishEngine (Started stdout) sfThreads depth
                 = inl {| stdin := greeting sfThreads; reader := [];
                          depth := depth |}).
  { unfold NewStockfishEngine, waitForReady, send. cbn [stdin reader app].
    rewrite Hdead. reflexivity. }
  destruct (Hgen Q ExactOps) as (wq & bq & eq' & Hrq & Hwq & Hbq & Hlq).
  { intros []; reflexivity. }
  destruct (Hgen float Binary64Ops) as (wf & bf & ef' & Hrf & Hwf & Hbf & Hlf).
  { intros []; reflexivity. }
  split; [|split].
  - exists wq, bq. unfold accuracyLists. rewrite Hadm, Hnew, Hrq.
    repeat split; assumption.
  - exists wf, bf. unfold accuracyLists. rewrite Hadm, Hnew, Hrf.
    repeat split; assumption.
  - unfold analyzeGame. rewrite Hadm, Hnew, Hrf. cbn [bind].
    eexists. eexists. split; reflexivity.
Qed.

Lemma analyzeGame_silent_engine_witness :
  exists r e,
    analyzeGame (F := float) Stub.lib strings.ToLower Stub.rejectedSecond
                "hikaru" 1 4
                (Started ["Stockfish 16 by the Stockfish developers" ++ LF])
    = Some (r, Closed e) /\ ok r = true.
Proof.
  refine (proj2 (proj2 (analyzeGame_silent_engine Stub.lib strings.ToLower
                          Stub.rejectedSecond "hikaru" 1 4 _
                          "hikaru" "fabiano" [true; false; true; true] _ _))).
  - now vm_compute.
  - now vm_compute.
Defined.

(** X13. A present result carries the two lowered names of the record, and
    the accuracy that [main] takes from it is that of a side whose lowered
    name is the lowered target: White's when White's name is the target,
    otherwise Black's, whose name then is the target. *)
Theorem analyzeGame_picks_target {F : Type} {ops : Float64Ops F}
    (L : chess.Library) (ToLower : string -> string) (g : GameData)
    (username : string) (sfThreads depth : Z) (os : Start)
    (r : result F) (sess : Session) :
  analyzeGame L ToLower g username sfThreads depth os = Some (r, sess) ->
  ok r = true ->
  white r = loweredName ToLower (White g) /\
  black r = loweredName ToLower (Black g) /\
  ((white r = ToLower username /\ picked (ToLower username) r = wa r) \/
   (white r <> ToLower username /\ black r = ToLower username /\
    picked (ToLower username) r = ba r)).
Proof.
  intros Hrun Hok.
  destruct (analyzeGame_present L ToLower g username sfThreads depth os r sess
              Hrun Hok)
    as (wn & bn & mvs & e & wA & bA & e' & Hadm & _ & _ & -> & _).
  apply admitted_some in Hadm as (_ & Hw & Hb & Hside & _).
  unfold picked. cbn [white black wa ba].
  split; [exact Hw|]. split; [exact Hb|].
  destruct (String.eqb_spec wn (ToLower username)) as [Heq|Hne].
  - left. now split.
  - right. destruct Hside as [Hside|Hside]; [contradiction|].
    repeat split; assumption.
Qed.

Lemma analyzeGame_picks_target_witness :
  exists r sess,
    analyzeGame (F := Q) Stub.lib strings.ToLower Stub.fourMoves "FABIANO" 1 4
                (Started Stub.fiveSearches) = Some (r, sess) /\
    black r = "fabiano" /\ picked "fabiano" r = ba r.
Proof.
  destruct (analyzeGame (F := Q) Stub.lib strings.ToLower Stub.fourMoves
              "FABIANO" 1 4 (Started Stub.fiveSearches))
    as [[r sess]|] eqn:Hrun; [|now vm_compute in Hrun].
  assert (Hok : ok r = true) by (vm_compute in Hrun; now injection Hrun as <- _).
  exists r, sess. split; [reflexivity|].
  destruct (analyzeGame_picks_target _ _ _ _ _ _ _ r sess Hrun Hok)
    as (Hw & Hb & [[Hwt _]|(_ & Hbt & Hp)]).
  - rewrite Hw in Hwt. now vm_compute in Hwt.
  - split; [exact Hbt|exact Hp].
Defined.

(** X14. Under the rules of chess, when every move of the decoded list is
    accepted, the accuracies go to the two sides in turn, White first: of
    [n] moves White gets the upper half and Black the lower half. *)
Theorem analyzeGame_side_counts {F : Type} {ops : Float64Ops F}
    (L : chess.Library) (ToLower : string -> string) (g : GameData)
    (username : string) (sfThreads depth : Z) (os : Start)
    (whiteAcc blackAcc : list F) (mvs : list (chess.Move L)) :
  chess.Lawful L ->
  chess.PGN L (PGN g) = Some mvs ->
  chess.applies L (chess.NewGame L) mvs = true ->
  accuracyLists L ToLower g username sfThreads depth os
  = Some (whiteAcc, blackAcc) ->
  length whiteAcc = Nat.div2 (S (length mvs)) /\
  length blackAcc = Nat.div2 (length mvs).
Proof.
  intros Hlaw Hpgn Happ. unfold accuracyLists.
  destruct (admitted L ToLower g username) as [[[wn bn] mvs']|] eqn:Hadm;
    [|discriminate].
  apply admitted_some in Hadm as (_ & _ & _ & _ & Hpgn' & _).
  rewrite Hpgn in Hpgn'. injection Hpgn' as <-.
  destruct (NewStockfishEngine os sfThreads depth) as [e|err]; [|discriminate].
  destruct (replay L mvs e) as [[[wA bA] e']|] eqn:Hrep; [|discriminate].
  cbn [bind fst snd]. intros [= <- <-].
  exact (replay_sides L mvs e e' wA bA Hlaw Happ Hrep).
Qed.

Lemma analyzeGame_side_counts_witness :
  exists whiteAcc blackAcc : list Q,
    accuracyLists Stub.lib strings.ToLower
      {| PGN := "mmmmm"; White := Stub.player "Hikaru";
         Black := Stub.player "Fabiano" |}
      "hikaru" 1 4 (Started Stub.fiveSearches) = Some (whiteAcc, blackAcc) /\
    length whiteAcc = 3%nat /\ length blackAcc = 2%nat.
Proof.
  destruct (accuracyLists (F := Q) Stub.lib strings.ToLower
              {| PGN := "mmmmm"; White := Stub.player "Hikaru";
                 Black := Stub.player "Fabiano" |}
              "hikaru" 1 4 (Started Stub.fiveSearches))
    as [[wA bA]|] eqn:Hlists; [|now vm_compute in Hlists].
  exists wA, bA. split; [reflexivity|].
  apply (analyzeGame_side_counts Stub.lib strings.ToLower
           {| PGN := "mmmmm"; White := Stub.player "Hikaru";
              Black := Stub.player "Fabiano" |}
           "hikaru" 1 4 (Started Stub.fiveSearches)
           wA bA [true; true; true; true; true] Stub_lawful eq_refl eq_refl
           Hlists).
Defined.

(** ** The loop over the results in [main] *)

Lemma collect_fold {F : Type} (target : string) (rs : list (result F))
    (userAcc : list F) (totalMoves analyzed : Z) :
  fold_left
    (fun '(userAcc, totalMoves, analyzed) r =>
       if ok r then
         ((userAcc ++ [if String.eqb (white r) target then wa r else ba r])%list,
          totalMoves + moves r,
          analyzed + 1)
       else (userAcc, totalMoves, analyzed))
    rs (userAcc, totalMoves, analyzed)
  = ((userAcc ++ map (picked target) (filter (fun r => ok r) rs))%list,
     totalMoves + fold_right Z.add 0 (map moves (filter (fun r => ok r) rs)),
     analyzed + Z.of_nat (length (filter (fun r => ok r) rs))).
Proof.
  revert userAcc totalMoves analyzed.
  induction rs as [|r rs IH]; intros userAcc totalMoves analyzed;
    cbn [fold_left filter].
  - cbn [map fold_right length]. rewrite app_nil_r. f_equal; [f_equal|]; lia.
  - destruct (ok r); [|apply IH].
    rewrite IH. cbn [map fold_right length]. unfold picked at 2.
    rewrite <- app_assoc. cbn [app]. f_equal; [f_equal|]; lia.
Qed.

(** X15. The loop over the results keeps, in the order of arrival, one
    accuracy per present result, the one taken for the target, counts the
    present results and adds up their moves; an absent result changes
    nothing. *)
Theorem collect_summary {F : Type} {ops : Float64Ops F} (target : string)
    (rs : list (result F)) :
  collect target rs
  = (map (picked target) (filter (fun r => ok r) rs),
     fold_right Z.add 0 (map moves (filter (fun r => ok r) rs)),
     Z.of_nat (length (filter (fun r => ok r) rs))).
Proof. unfold collect. now rewrite collect_fold. Qed.

Lemma filter_Permutation {A : Type} (f : A -> bool) (xs ys : list A) :
  Permutation xs ys -> Permutation (filter f xs) (filter f ys).
Proof.
  induction 1 as [|x xs ys _ IH|x y xs|xs ys zs _ IH1 _ IH2]; cbn [filter].
  - constructor.
  - destruct (f x); [now constructor|exact IH].
  - destruct (f x), (f y); try apply Permutation_refl. apply perm_swap.
  - exact (Permutation_trans IH1 IH2).
Qed.

Lemma sumZ_Permutation (xs ys : list Z) :
  Permutation xs ys -> fold_right Z.add 0 xs = fold_right Z.add 0 ys.
Proof.
  induction 1 as [|x xs ys _ IH|x y xs|xs ys zs _ IH1 _ IH2];
    cbn [fold_right]; lia.
Qed.

Lemma sumQ_Permutation (xs ys : list Q) :
  Permutation xs ys ->
  (fold_right Qplus 0 xs == fold_right Qplus 0 ys)%Q.
Proof.
  induction 1 as [|x xs ys _ IH|x y xs|xs ys zs _ IH1 _ IH2];
    cbn [fold_right].
  - reflexivity.
  - now rewrite IH.
  - ring.
  - now rewrite IH1.
Qed.

(** X16. The results arrive in the order in which the goroutines finish.
    Whatever that order, the number of games analyzed and the total of
    moves are the same, the accuracies kept are the same up to their
    order, and in exact arithmetic so is their average. *)
Theorem collect_any_order (target : string) (rs rs' : list (result Q)) :
  Permutation rs rs' ->
  snd (collect target rs) = snd (collect target rs') /\
  snd (fst (collect target rs)) = snd (fst (collect target rs')) /\
  Permutation (fst (fst (collect target rs))) (fst (fst (collect target rs')))
  /\
  (meanAcc (fst (fst (collect target rs)))
   == meanAcc (fst (fst (collect target rs'))))%Q.
Proof.
  intros Hperm. unfold collect. rewrite !collect_fold. cbn [fst snd app].
  pose proof (filter_Permutation (fun r : result Q => ok r) _ _ Hperm) as Hf.
  split; [now rewrite (Permutation_length Hf)|].
  split.
  { f_equal. apply sumZ_Permutation. now apply Permutation_map. }
  pose proof (Permutation_map (picked target) Hf) as Hu.
  split; [exact Hu|].
  rewrite !meanAcc_arithmeticMean. unfold arithmeticMean.
  rewrite (sumQ_Permutation _ _ Hu), (Permutation_length Hu). reflexivity.
Qed.

Lemma collect_any_order_witness :
  snd (collect "hikaru" [absent; asWhite; asBlack]) = 2 /\
  snd (fst (collect "hikaru" [asBlack; absent; asWhite])) = 71.
Proof.
  destruct (collect_any_order "hikaru" [absent; asWhite; asBlack]
              [asBlack; absent; asWhite]) as (Hn & Ht & _).
  - apply Permutation_trans with [absent; asBlack; asWhite].
    + apply perm_skip. apply perm_swap.
    + apply perm_swap.
  - split; [reflexivity|]. rewrite <- Ht. reflexivity.
Defined.

(** ** The archives and the games in [main] *)

Lemma at_middle {A : Type} (pre : list A) (x : A) (post : list A) :
  at_ (pre ++ x :: post)%list (Z.of_nat (length pre)) = Some x.
Proof.
  unfold at_. rewrite length_app. cbn [length].
  replace ((0 <=? Z.of_nat (length pre))
           && (Z.of_nat (length pre)
               <? Z.of_nat (length pre + S (length post)))) with true
    by (symmetry; apply andb_true_intro; split;
        [apply Z.leb_le|apply Z.ltb_lt]; lia).
  rewrite Nat2Z.id, nth_error_app2 by lia.
  now rewrite Nat.sub_diag.
Qed.

Lemma setNth_middle {A : Type} (pre : list A) (x v : A) (post : list A) :
  setNth (length pre) v (pre ++ x :: post)%list = (pre ++ v :: post)%list.
Proof. induction pre as [|p pre IH]; cbn; [reflexivity|now rewrite IH]. Qed.

Lemma assign_middle {A : Type} (pre : list A) (x v : A) (post : list A) :
  assign (pre ++ x :: post)%list (Z.of_nat (length pre)) v
  = Some (pre ++ v :: post)%list.
Proof.
  unfold assign. rewrite length_app. cbn [length].
  replace ((0 <=? Z.of_nat (length pre))
           && (Z.of_nat (length pre)
               <? Z.of_nat (length pre + S (length post)))) with true
    by (symmetry; apply andb_true_intro; split;
        [apply Z.leb_le|apply Z.ltb_lt]; lia).
  now rewrite Nat2Z.id, setNth_middle.
Qed.

(** Two lists that differ by the bracketing of [++] only. *)
Ltac same_list :=
  repeat first [rewrite <- app_assoc | progress cbn [app]]; reflexivity.

(** The loop turns round the part between its two indices. *)
Lemma reverseLoop_middle (fuel : nat) :
  forall pre mid post : list string,
    (length mid <= fuel)%nat ->
    reverseLoop fuel (pre ++ mid ++ post)%list (Z.of_nat (length pre))
                (Z.of_nat (length pre) + Z.of_nat (length mid) - 1)
    = Some (pre ++ rev mid ++ post)%list.
Proof.
  induction fuel as [|fuel IH]; intros pre mid post Hlen.
  - destruct mid; [|simpl in Hlen; lia]. cbn [reverseLoop length].
    replace (Z.of_nat (length pre) <? Z.of_nat (length pre) + Z.of_nat 0 - 1)
      with false by (symmetry; apply Z.ltb_ge; lia).
    reflexivity.
  - destruct mid as [|x mid].
    { cbn [reverseLoop length].
      replace (Z.of_nat (length pre) <? Z.of_nat (length pre) + Z.of_nat 0 - 1)
        with false by (symmetry; apply Z.ltb_ge; lia).
      reflexivity. }
    destruct (exists_last (l := x :: mid) ltac:(discriminate))
      as (front & y & Hlast).
    destruct front as [|x' m].
    { (* one element *)
      destruct mid; [|discriminate Hlast]. cbn [reverseLoop length].
      replace (Z.of_nat (length pre) <? Z.of_nat (length pre) + Z.of_nat 1 - 1)
        with false by (symmetry; apply Z.ltb_ge; lia).
      reflexivity. }
    injection Hlast as <- ->.
    cbn [reverseLoop].
    replace (Z.of_nat (length pre)
             <? Z.of_nat (length pre) + Z.of_nat (length (x :: m ++ [y])) - 1)
      with true
      by (symmetry; apply Z.ltb_lt; cbn [length]; rewrite length_app;
          cbn [length]; lia).
    cbn [app]. rewrite at_middle. cbn [bind].
    assert (Hj : Z.of_nat (length pre) + Z.of_nat (length (x :: m ++ [y])) - 1
                 = Z.of_nat (length (pre ++ x :: m))).
    { cbn [length]. rewrite !length_app. cbn [length]. lia. }
    rewrite Hj.
    replace (pre ++ x :: (m ++ [y]) ++ post)%list
      with ((pre ++ x :: m) ++ y :: post)%list
      by same_list.
    rewrite at_middle. cbn [bind].
    replace ((pre ++ x :: m) ++ y :: post)%list
      with (pre ++ x :: (m ++ y :: post))%list
      by same_list.
    rewrite assign_middle. cbn [bind].
    replace (pre ++ y :: m ++ y :: post)%list
      with ((pre ++ y :: m) ++ y :: post)%list
      by same_list.
    replace (Z.of_nat (length (pre ++ x :: m)))
      with (Z.of_nat (length (pre ++ y :: m)))
      by (rewrite !length_app; reflexivity).
    rewrite assign_middle. cbn [bind].
    replace ((pre ++ y :: m) ++ x :: post)%list
      with ((pre ++ [y]) ++ m ++ (x :: post))%list
      by same_list.
    replace (Z.of_nat (length pre) + 1)
      with (Z.of_nat (length (pre ++ [y])%list))
      by (rewrite length_app; cbn [length]; lia).
    replace (Z.of_nat (length (pre ++ y :: m)) - 1)
      with (Z.of_nat (length (pre ++ [y])%list) + Z.of_nat (length m) - 1)
      by (rewrite !length_app; cbn [length]; lia).
    rewrite IH.
    + cbn [rev]. rewrite rev_app_distr. cbn [rev]. same_list.
    + cbn [length] in Hlen. rewrite length_app in Hlen. cbn [length] in Hlen.
      lia.
Qed.

(** X17. The loop that swaps [archives[i]] and [archives[j]] from both ends
    inwards never indexes out of range and leaves the list of archives
    reversed, whatever its length: the newest archive comes first. *)
Theorem reverseArchives_rev (archives : list string) :
  reverseArchives archives = Some (rev archives).
Proof.
  unfold reverseArchives.
  pose proof (reverseLoop_middle (length archives) [] archives []
                (Nat.le_refl _)) as H.
  cbn [app length] in H. rewrite !app_nil_r in H.
  replace (Z.of_nat (length archives) - 1)
    with (Z.of_nat 0 + Z.of_nat (length archives) - 1) by lia.
  exact H.
Qed.

Lemma genSplit_nonempty (s sep : string) (n : nat) :
  (1 <= length (genSplit s sep n))%nat.
Proof.
  destruct n; cbn [genSplit]; [simpl; lia|].
  destruct (Index s sep <? 0); simpl; lia.
Qed.

(** A text with a slash splits into two parts at least, one without a
    slash into one. *)
Lemma Split_slash (url : string) :
  (Index url "/" <> -1 -> (2 <= length (Split url "/"))%nat) /\
  (Index url "/" = -1 -> Split url "/" = [url]).
Proof.
  unfold Split, SplitN. cbn [Z.eqb Z.ltb Z.compare].
  replace (len url + 1 <? len url + 1) with false
    by (symmetry; apply Z.ltb_ge; lia).
  replace (Z.to_nat (len url + 1 - 1)) with (String.length url)
    by (unfold len; lia).
  split; intros H.
  - destruct (Index_range url "/") as [Hi|[H0 H1]]; [contradiction|].
    change (len "/") with 1 in H1. unfold len in H1.
    destruct (String.length url) as [|k] eqn:Ek; [lia|].
    cbn [genSplit].
    destruct (Z.ltb_spec (Index url "/") 0) as [|_]; [lia|].
    cbn [length]. pose proof (genSplit_nonempty
      (drop (Z.to_nat (Index url "/" + strings.len "/")) url) "/" k). lia.
  - destruct (String.length url); cbn [genSplit]; [reflexivity|].
    now rewrite H.
Qed.

Lemma at_last_two {A : Type} (parts : list A) :
  (2 <= length parts)%nat ->
  (exists x, at_ parts (Z.of_nat (length parts) - 2) = Some x) /\
  (exists y, at_ parts (Z.of_nat (length parts) - 1) = Some y).
Proof.
  intros H. unfold at_. split.
  - replace ((0 <=? Z.of_nat (length parts) - 2)
             && (Z.of_nat (length parts) - 2 <? Z.of_nat (length parts)))
      with true
      by (symmetry; apply andb_true_intro; split;
          [apply Z.leb_le|apply Z.ltb_lt]; lia).
    destruct (nth_error parts (Z.to_nat (Z.of_nat (length parts) - 2))) eqn:E;
      [eauto|]. apply nth_error_None in E. lia.
  - replace ((0 <=? Z.of_nat (length parts) - 1)
             && (Z.of_nat (length parts) - 1 <? Z.of_nat (length parts)))
      with true
      by (symmetry; apply andb_true_intro; split;
          [apply Z.leb_le|apply Z.ltb_lt]; lia).
    destruct (nth_error parts (Z.to_nat (Z.of_nat (length parts) - 1))) eqn:E;
      [eauto|]. apply nth_error_None in E. lia.
Qed.

(** One round of the loop on an archive with a slash in its address. *)
Lemma fetchLoop_round (fetch : string -> option (list GameData))
    (url : string) (archives : list string) (maxGames : Z)
    (allGames games : list GameData) (fetched : list string) :
  Index url "/" <> -1 ->
  fetch url = Some games ->
  Z.of_nat (length allGames) < maxGames ->
  fetchLoop fetch (url :: archives) maxGames allGames fetched
  = fetchLoop fetch archives maxGames (allGames ++ games)%list
              (fetched ++ [url])%list.
Proof.
  intros Hslash Hgames Hfew. cbn [fetchLoop].
  replace (Z.of_nat (length allGames) >=? maxGames) with false
    by (symmetry; rewrite Z.geb_leb; apply Z.leb_gt; lia).
  rewrite Hgames. cbn [bind].
  destruct (at_last_two (Split url "/") (proj1 (Split_slash url) Hslash))
    as [[x Hx] [y Hy]].
  rewrite Hx, Hy. reflexivity.
Qed.

Lemma gamesOf_nil (fetch : string -> option (list GameData)) :
  gamesOf fetch [] = [].
Proof. reflexivity. Qed.

Lemma gamesOf_cons (fetch : string -> option (list GameData)) (url : string)
    (urls : list string) (games : list GameData) :
  fetch url = Some games ->
  gamesOf fetch (url :: urls) = (games ++ gamesOf fetch urls)%list.
Proof. intros H. unfold gamesOf. cbn [map concat]. now rewrite H. Qed.

Lemma gamesOf_app (fetch : string -> option (list GameData))
    (us vs : list string) :
  gamesOf fetch (us ++ vs) = (gamesOf fetch us ++ gamesOf fetch vs)%list.
Proof. unfold gamesOf. now rewrite map_app, concat_app. Qed.

(** The loop fetches a first part of the archives and stops at the first
    archive before which it holds enough games. *)
Lemma fetchLoop_prefix (fetch : string -> option (list GameData))
    (maxGames : Z) (archives : list string) :
  Forall (fun url => Index url "/" <> -1) archives ->
  Forall (fun url => fetch url <> None) archives ->
  forall allGames fetched,
  exists pre post,
    archives = (pre ++ post)%list /\
    fetchLoop fetch archives maxGames allGames fetched
    = Some ((allGames ++ gamesOf fetch pre)%list,
            (fetched ++ pre)%list) /\
    (post = [] \/
     maxGames <= Z.of_nat (length (allGames ++ gamesOf fetch pre))) /\
    (forall p1 url p2,
       pre = (p1 ++ url :: p2)%list ->
       Z.of_nat (length (allGames ++ gamesOf fetch p1)) < maxGames).
Proof.
  induction 1 as [|url archives Hslash _ IH]; intros Hok allGames fetched.
  - exists [], []. cbn [fetchLoop]. rewrite gamesOf_nil, !app_nil_r.
    repeat split; auto. intros [|? ?] ? ? [=].
  - inversion Hok as [|? ? Hurl Hrest]; subst.
    destruct (fetch url) as [games|] eqn:Hgames; [clear Hurl|congruence].
    destruct (Z.lt_ge_cases (Z.of_nat (length allGames)) maxGames)
      as [Hfew|Henough].
    + rewrite (fetchLoop_round fetch url archives maxGames allGames games
                 fetched Hslash Hgames Hfew).
      destruct (IH Hrest (allGames ++ games)%list (fetched ++ [url])%list)
        as (pre & post & -> & Hrun & Hstop & Hmin).
      exists (url :: pre), post. rewrite (gamesOf_cons _ _ _ _ Hgames).
      cbn [app].
      split; [reflexivity|]. split.
      { rewrite Hrun. f_equal. f_equal; same_list. }
      split.
      { destruct Hstop as [->|Hstop]; [now left|right].
        now rewrite app_assoc. }
      intros [|u p1] url' p2 Hsplit.
      * rewrite gamesOf_nil. now rewrite app_nil_r.
      * injection Hsplit as <- ->. rewrite (gamesOf_cons _ _ _ _ Hgames).
        rewrite app_assoc. now apply (Hmin p1 url' p2).
    + exists [], (url :: archives). cbn [fetchLoop app].
      replace (Z.of_nat (length allGames) >=? maxGames) with true
        by (symmetry; rewrite Z.geb_leb; apply Z.leb_le; lia).
      rewrite gamesOf_nil, !app_nil_r. repeat split; auto.
      intros [|? ?] ? ? [=].
Qed.

(** The loop comes to an archive on which one of its steps panics. *)
Lemma fetchLoop_panics (fetch : string -> option (list GameData))
    (before : list string) (url : string) (after : list string)
    (maxGames : Z) :
  Forall (fun u => Index u "/" <> -1) before ->
  fetch url = None \/ Index url "/" = -1 ->
  forall allGames fetched,
    Z.of_nat (length (allGames ++ gamesOf fetch before)) < maxGames ->
    fetchLoop fetch (before ++ url :: after)%list maxGames allGames fetched
    = None.
Proof.
  intros Hslash Hbad.
  induction Hslash as [|u before Hu _ IH]; intros allGames fetched Hlt.
  - rewrite gamesOf_nil, app_nil_r in Hlt. cbn [app fetchLoop].
    replace (Z.of_nat (length allGames) >=? maxGames) with false
      by (symmetry; rewrite Z.geb_leb; apply Z.leb_gt; lia).
    destruct (fetch url) as [games|]; [|reflexivity]. cbn [bind].
    destruct Hbad as [Hbad|Hbad]; [discriminate Hbad|].
    rewrite (proj2 (Split_slash url) Hbad). reflexivity.
  - cbn [app].
    destruct (fetch u) as [games|] eqn:Hgames.
    + rewrite (gamesOf_cons _ _ _ _ Hgames), app_assoc in Hlt.
      rewrite (fetchLoop_round fetch u _ maxGames allGames games fetched
                 Hu Hgames); [now apply IH|].
      rewrite !length_app in Hlt. lia.
    + cbn [fetchLoop].
      destruct (Z.of_nat (length allGames) >=? maxGames) eqn:E.
      * rewrite Z.geb_leb in E. apply Z.leb_le in E.
        rewrite length_app in Hlt. lia.
      * now rewrite Hgames.
Qed.

(** X18. With [maxGames] not negative, a slash in the address of every
    archive and no archive on which [fetchGames] panics, [main] analyzes
    exactly the first [maxGames] games of the archives taken in order, all
    of them when there are fewer; stopping early changes nothing.  The
    archives it fetches are a first part of the list, and an archive is
    fetched only while fewer than [maxGames] games are held. *)
Theorem gatherGames_first (fetch : string -> option (list GameData))
    (archives : list string) (maxGames : Z) :
  0 <= maxGames ->
  Forall (fun url => Index url "/" <> -1) archives ->
  Forall (fun url => fetch url <> None) archives ->
  exists fetched rest,
    gatherGames fetch archives maxGames
    = Some (firstn (Z.to_nat maxGames) (gamesOf fetch archives), fetched) /\
    archives = (fetched ++ rest)%list /\
    (forall p1 url p2,
       fetched = (p1 ++ url :: p2)%list ->
       Z.of_nat (length (gamesOf fetch p1)) < maxGames).
Proof.
  intros Hmax Hslash Hok.
  destruct (fetchLoop_prefix fetch maxGames archives Hslash Hok [] [])
    as (pre & post & -> & Hrun & Hstop & Hmin).
  cbn [app] in Hrun, Hstop, Hmin.
  exists pre, post. unfold gatherGames. rewrite Hrun. cbn [bind].
  split; [|split; [reflexivity|exact Hmin]].
  rewrite gamesOf_app.
  set (got := gamesOf fetch pre) in *.
  destruct (Z.gtb_spec (Z.of_nat (length got)) maxGames) as [Hcut|Hkeep].
  - unfold SliceTo.
    replace ((0 <=? maxGames) && (maxGames <=? Z.of_nat (length got)))
      with true
      by (symmetry; apply andb_true_intro; split; apply Z.leb_le; lia).
    cbn [bind]. f_equal. f_equal.
    rewrite firstn_app.
    replace (Z.to_nat maxGames - length got)%nat with 0%nat by lia.
    cbn [firstn]. now rewrite app_nil_r.
  - f_equal. f_equal. destruct Hstop as [->|Hstop].
    + rewrite gamesOf_nil, app_nil_r.
      symmetry. apply firstn_all2. lia.
    + rewrite firstn_app.
      replace (Z.to_nat maxGames - length got)%nat with 0%nat by lia.
      cbn [firstn]. rewrite app_nil_r. symmetry. apply firstn_all2. lia.
Qed.

(** X19. With a negative [maxGames] no archive is fetched and the cut
    [allGames[:*maxGames]] panics: [main] does not reach the analysis. *)
Theorem gatherGames_negative (fetch : string -> option (list GameData))
    (archives : list string) (maxGames : Z) :
  maxGames < 0 -> gatherGames fetch archives maxGames = None.
Proof.
  intros Hneg. unfold gatherGames.
  assert (Hrun : fetchLoop fetch archives maxGames [] [] = Some ([], [])).
  { destruct archives as [|url archives]; cbn [fetchLoop length];
      [reflexivity|].
    replace (Z.of_nat 0 >=? maxGames) with true
      by (symmetry; rewrite Z.geb_leb; apply Z.leb_le; lia).
    reflexivity. }
  rewrite Hrun. cbn [bind length].
  replace (Z.of_nat 0 >? maxGames) with true
    by (symmetry; apply Z.gtb_lt; lia).
  unfold SliceTo.
  replace (0 <=? maxGames) with false by (symmetry; apply Z.leb_gt; lia).
  reflexivity.
Qed.

(** X20. The progress line takes the last two parts of the address of an
    archive: when the loop comes to an archive whose address has no slash
    while it still holds fewer than [maxGames] games, [main] panics on the
    index [parts[len(parts)-2]], if not before. *)
Theorem gatherGames_no_slash (fetch : string -> option (list GameData))
    (before : list string) (url : string) (after : list string)
    (maxGames : Z) :
  Forall (fun u => Index u "/" <> -1) before ->
  Z.of_nat (length (gamesOf fetch before)) < maxGames ->
  Index url "/" = -1 ->
  gatherGames fetch (before ++ url :: after)%list maxGames = None.
Proof.
  intros Hslash Hfew Hnone. unfold gatherGames.
  rewrite (fetchLoop_panics fetch before url after maxGames Hslash
             (or_intror Hnone) [] []); [reflexivity|exact Hfew].
Qed.

Lemma gatherGames_first_witness :
  exists fetched rest,
    gatherGames fetchSample [february; january] 3
    = Some ([Stub.rejectedSecond; Stub.fourMoves; Stub.fourMoves], fetched) /\
    [february; january] = (fetched ++ rest)%list.
Proof.
  destruct (gatherGames_first fetchSample [february; january] 3)
    as (fetched & rest & Hrun & Hsplit & _).
  - lia.
  - repeat (constructor; [now vm_compute|]). constructor.
  - repeat (constructor; [now vm_compute|]). constructor.
  - exists fetched, rest. split; [exact Hrun|exact Hsplit].
Defined.

Lemma gatherGames_negative_witness :
  gatherGames fetchSample [february; january] (-1) = None.
Proof. apply gatherGames_negative. lia. Defined.

Lemma gatherGames_no_slash_witness :
  gatherGames fetchSample [february; "archive-2024-01"; january] 3 = None.
Proof.
  apply (gatherGames_no_slash fetchSample [february] "archive-2024-01"
           [january] 3).
  - repeat (constructor; [now vm_compute|]). constructor.
  - now vm_compute.
  - now vm_compute.
Defined.

(** ** Numbers in decimal *)

Lemma digits_step (c : ascii) (s : string) (acc k : Z) :
  is_digit c = true -> digit_value c = k ->
  digits (String c s) acc = digits s (acc * 10 + k).
Proof. intros Hc Hk. cbn [digits]. now rewrite Hc, Hk. Qed.

Lemma digits_of_uint_acc (d : Decimal.uint) (acc : positive) :
  digits (NilEmpty.string_of_uint d) (Z.pos acc)
  = Some (Z.pos (Pos.of_uint_acc d acc)).
Proof.
  revert acc.
  induction d; intros acc; cbn [NilEmpty.string_of_uint Pos.of_uint_acc];
    [reflexivity|..];
    (erewrite digits_step; [|reflexivity|vm_compute; reflexivity]);
    rewrite <- IHd; f_equal; lia.
Qed.

Lemma digits_of_uint (d : Decimal.uint) :
  digits (NilEmpty.string_of_uint d) 0 = Some (Z.of_N (Pos.of_uint d)).
Proof.
  induction d; cbn [NilEmpty.string_of_uint Pos.of_uint];
    [reflexivity|..];
    (erewrite digits_step; [|reflexivity|vm_compute; reflexivity]);
    cbn [Z.mul Z.add Z.of_N]; try exact IHd; apply digits_of_uint_acc.
Qed.

(** What [%d] writes for a number that fits [int], [Atoi] reads back. *)
Lemma Atoi_Itoa (n : Z) :
  minInt <= n <= maxInt -> Atoi (Itoa n) = Some n.
Proof.
  intros Hrange. unfold Itoa, Z.to_int.
  assert (Hpos : forall p,
            exists c s, NilEmpty.string_of_uint (Pos.to_uint p) = String c s /\
                        is_digit c = true /\
                        digits (String c s) 0 = Some (Z.pos p)).
  { intros p. pose proof (digits_of_uint (Pos.to_uint p)) as Hd.
    rewrite DecimalPos.Unsigned.of_to in Hd. cbn [Z.of_N] in Hd.
    destruct (Pos.to_uint p) eqn:Eu; cbn [NilEmpty.string_of_uint] in *;
      [discriminate Hd|..]; eexists; eexists;
      (split; [reflexivity|split; [reflexivity|exact Hd]]). }
  assert (Hplain : forall c s v,
            is_digit c = true -> digits (String c s) 0 = Some v ->
            minInt <= v <= maxInt -> Atoi (String c s) = Some v).
  { intros c s v Hc Hd Hv. unfold Atoi.
    destruct (Ascii.eqb_spec c "+") as [->|Hp]; [discriminate Hc|].
    destruct (Ascii.eqb_spec c "-") as [->|Hm]; [discriminate Hc|].
    assert (Hbody :
              (let '(neg, body) :=
                 match String c s with
                 | String "+" r => (false, r)
                 | String "-" r => (true, r)
                 | _ => (false, String c s)
                 end in (neg, body)) = (false, String c s)).
    { destruct c as [[|] [|] [|] [|] [|] [|] [|] [|]]; try reflexivity;
        exfalso; auto. }
    destruct c as [[|] [|] [|] [|] [|] [|] [|] [|]];
      try (exfalso; auto; fail);
      rewrite Hd;
      (replace ((minInt <=? v) && (v <=? maxInt)) with true
         by (symmetry; apply andb_true_intro; split; apply Z.leb_le; lia));
      reflexivity. }
  destruct n as [|p|p].
  - reflexivity.
  - destruct (Hpos p) as (c & s & Hs & Hc & Hd).
    cbn [NilEmpty.string_of_int]. rewrite Hs. now apply Hplain.
  - destruct (Hpos p) as (c & s & Hs & Hc & Hd).
    cbn [NilEmpty.string_of_int]. rewrite Hs. unfold Atoi.
    rewrite Hd.
    replace ((minInt <=? - Z.pos p) && (- Z.pos p <=? maxInt)) with true
      by (symmetry; apply andb_true_intro; split; apply Z.leb_le; lia).
    reflexivity.
Qed.

(** X21. Whatever triple is held, a line that has the marker, then three
    numbers that fit [int] written in decimal, each followed by one space,
    replaces it by these three numbers, provided the marker is not found
    earlier in the line. *)
Theorem scanLine_infoLine (pre post : string) (w d l : Z) (held : WDL) :
  Index (pre ++ " wdl ") " wdl " = len pre ->
  minInt <= w <= maxInt -> minInt <= d <= maxInt -> minInt <= l <= maxInt ->
  scanLine (infoLine pre w d l post) held = Some (w, d, l).
Proof.
  intros Hpre Hw Hd Hl. rewrite scanLine_total. f_equal.
  apply scanned_wdlOf. unfold infoLine.
  apply wdlOf_line; [exact Hpre|now apply Atoi_Itoa..].
Qed.

Lemma scanLine_infoLine_witness :
  scanLine (infoLine "info depth 4 seldepth 5 multipv 1 score cp 20"
                     (-3) 970 33 ("nodes 420 nps 210000 pv e2e4" ++ LF))
           defaultWDL
  = Some (-3, 970, 33).
Proof.
  apply scanLine_infoLine; [now vm_compute|..];
    unfold minInt, maxInt; lia.
Defined.

(** ** The batch scheduler, to the end of a run *)

Section SchedulerRuns.

Import Scheduler.

Context {F : Type} {ops : Float64Ops F}.
Variable L : chess.Library.
Variable ToLower : string -> string.
Variables (username : string) (sfThreads depth workers : Z).

#[local] Abbreviation step :=
  (Scheduler.step L ToLower username sfThreads depth workers).
#[local] Abbreviation reachable :=
  (Scheduler.reachable L ToLower username sfThreads depth workers).
#[local] Abbreviation inevitably :=
  (Scheduler.inevitably L ToLower username sfThreads depth workers).
#[local] Abbreviation invariant := (Scheduler.invariant workers).
#[local] Abbreviation returning :=
  (sessionsReturn (F := F) L ToLower username sfThreads depth).

Lemma inevitably_weaken (P Q : State F -> Prop) (s : State F) :
  (forall s', P s' -> Q s') -> inevitably P s -> inevitably Q s.
Proof.
  intros HPQ. induction 1 as [s HP|s Hex _ IH].
  - apply inev_now. now apply HPQ.
  - now apply inev_later.
Qed.

Lemma inevitably_invariant (I P : State F -> Prop) (s : State F) :
  (forall s s', I s -> step s s' -> I s') ->
  I s -> inevitably P s -> inevitably (fun s' => I s' /\ P s') s.
Proof.
  intros Hstep HI Hin. induction Hin as [s HP|s Hex _ IH].
  - apply inev_now. now split.
  - apply inev_later; [exact Hex|].
    intros s' Hs. apply IH; [exact Hs|]. now apply (Hstep s).
Qed.

Lemma reachable_workers (allGames : list GameData) (s : State F) :
  reachable allGames s -> 0 <= workers.
Proof. induction 1; assumption. Qed.

Lemma count_all (f : PC -> bool) (ts : list Task) :
  Forall (fun t => f (pc t) = true) ts -> count f ts = Z.of_nat (length ts).
Proof.
  unfold count. induction 1 as [|t ts Ht _ IH]; [reflexivity|].
  cbn [filter]. rewrite Ht. cbn [length]. lia.
Qed.

Lemma count_none (f : PC -> bool) (ts : list Task) :
  Forall (fun t => f (pc t) = false) ts -> count f ts = 0.
Proof.
  unfold count. induction 1 as [|t ts Ht _ IH]; [reflexivity|].
  cbn [filter]. now rewrite Ht.
Qed.

Lemma count_length (f : PC -> bool) (ts : list Task) :
  count f ts <= Z.of_nat (length ts).
Proof. unfold count. pose proof (filter_length_le (fun t => f (pc t)) ts). lia. Qed.

(** A goroutine at a program point of a given kind, or none. *)
Lemma find_task (f : PC -> bool) (ts : list Task) :
  (exists ts1 t ts2, ts = (ts1 ++ t :: ts2)%list /\ f (pc t) = true) \/
  Forall (fun t => f (pc t) = false) ts.
Proof.
  induction ts as [|t ts [(ts1 & t' & ts2 & -> & Ht)|IH]].
  - right. constructor.
  - left. exists (t :: ts1)%list, t', ts2. now split.
  - destruct (f (pc t)) eqn:Ef.
    + left. exists [], t, ts. now split.
    + right. now constructor.
Qed.

Lemma analyzeGame_no_start (g : GameData) (err : string) :
  exists sess,
    analyzeGame (F := F) L ToLower g username sfThreads depth (StartFails err)
    = Some (absent, sess) /\
    forall e, sess <> Closed e.
Proof.
  unfold analyzeGame.
  destruct (admitted L ToLower g username) as [[[white black] mvs]|].
  - exists (StartFailed err). split; [reflexivity|discriminate].
  - exists NotStarted. split; [reflexivity|discriminate].
Qed.

Lemma sessionsReturn_middle (ts1 ts2 : list Task) (g : GameData) (p q : PC) :
  (forall stdout, q = InSession stdout ->
     exists (r : result F) e,
       analyzeGame L ToLower g username sfThreads depth (Started stdout)
       = Some (r, Closed e)) ->
  returning (ts1 ++ {| game := g; pc := p |} :: ts2)%list ->
  returning (ts1 ++ {| game := g; pc := q |} :: ts2)%list.
Proof.
  unfold sessionsReturn. intros Hq H.
  apply Forall_app in H. destruct H as [H1 H2].
  apply Forall_app. split; [exact H1|].
  inversion H2; subst. constructor; [exact Hq|assumption].
Qed.

Lemma sessionsReturn_step (s s' : State F) :
  returning (tasks s) -> step s s' -> returning (tasks s').
Proof.
  intros H Hstep.
  destruct Hstep; cbn [tasks] in *;
    try (eapply sessionsReturn_middle; [|exact H];
         cbn [game pc]; intros stdout' Heq;
         first [discriminate Heq
               |injection Heq as <-; eexists _, _; eassumption]).
  apply Forall_app. split; [exact H|].
  constructor; [|constructor]. cbn [pc]. discriminate.
Qed.

(** The values sent on [results] are those of the goroutines past their
    send. *)
Lemma buffer_step (s s' : State F) :
  Z.of_nat (length (results s)) = count reported (tasks s) ->
  step s s' ->
  Z.of_nat (length (results s')) = count reported (tasks s').
Proof.
  intros H Hstep.
  destruct Hstep; cbn [results tasks] in *;
    rewrite ?count_last, ?count_middle, ?length_app in *;
    cbn [pc reported length] in *; lia.
Qed.

Lemma reachable_buffer (allGames : list GameData) (s : State F) :
  reachable allGames s ->
  Z.of_nat (length (results s)) = count reported (tasks s).
Proof.
  induction 1 as [Hw|s s' _ IH Hstep]; [reflexivity|].
  exact (buffer_step s s' IH Hstep).
Qed.

Lemma reachable_sessions (allGames : list GameData) (s : State F) :
  reachable allGames s -> returning (tasks s).
Proof.
  induction 1 as [Hw|s s' _ IH Hstep]; [constructor|].
  exact (sessionsReturn_step s s' IH Hstep).
Qed.

(** While a goroutine is short of its end, some goroutine can move. *)
Lemma step_exists (s : State F) :
  1 <= workers ->
  sem s = count holds (tasks s) ->
  returning (tasks s) ->
  (pending s = [] /\ Forall (fun t => pc t = Finished) (tasks s)) \/
  exists s', step s s'.
Proof.
  intros Hw Hsem Hret. destruct s as [ps ts n rs]. cbn [pending tasks sem] in *.
  destruct ps as [|g gs]; [|right; eexists; apply step_go].
  destruct (find_task holds ts) as [(ts1 & [g p] & ts2 & -> & Hp)|Hnone].
  - right. destruct p as [| |stdout| |]; try discriminate Hp.
    + destruct (analyzeGame_no_start g "") as (sess & Hres & Hsess).
      eexists. eapply step_skip; eassumption.
    + apply Forall_app in Hret. destruct Hret as [_ Hret].
      inversion Hret as [|t ts' Ht _]; subst.
      destruct (Ht stdout eq_refl) as (r & e & Hres).
      eexists. eapply step_done. exact Hres.
    + eexists. apply step_release.
  - destruct (find_task waiting ts) as [(ts1 & [g p] & ts2 & -> & Hp)|Hnow].
    + right. destruct p; try discriminate Hp.
      eexists. apply step_acquire.
      rewrite (count_none _ _ Hnone) in Hsem. lia.
    + left. split; [reflexivity|].
      rewrite Forall_forall in *. intros t Ht.
      specialize (Hnone t Ht). specialize (Hnow t Ht).
      destruct (pc t); try discriminate; reflexivity.
Qed.

Lemma run_ends (allGames : list GameData) (s : State F) :
  1 <= workers ->
  invariant allGames s ->
  returning (tasks s) ->
  inevitably
    (fun s' => pending s' = [] /\
               Forall (fun t => pc t = Finished) (tasks s')) s.
Proof.
  intros Hw. remember (measure s) as n eqn:Hn. revert s Hn.
  induction n as [n IH] using lt_wf_ind. intros s Hn Hinv Hret.
  destruct (step_exists s Hw (proj1 Hinv) Hret) as [Hend|Hex].
  - now apply inev_now.
  - apply inev_later; [exact Hex|].
    intros s' Hstep. apply (IH (measure s')); [|reflexivity| |].
    + subst n. eapply measure_step. exact Hstep.
    + exact (invariant_step L ToLower username sfThreads depth workers
               allGames s s' Hinv Hstep).
    + exact (sessionsReturn_step s s' Hret Hstep).
Qed.

Lemma finished_counts (ts : list Task) :
  Forall (fun t => pc t = Finished) ts ->
  count holds ts = 0 /\ count reported ts = Z.of_nat (length ts).
Proof.
  intros H. split.
  - apply count_none. eapply Forall_impl; [|exact H].
    intros t Ht. now rewrite Ht.
  - apply count_all. eapply Forall_impl; [|exact H].
    intros t Ht. now rewrite Ht.
Qed.

(** With no slot in [sem] no goroutine gets past its send. *)
Lemma idle_step (s s' : State F) :
  workers = 0 ->
  (sem s = 0 /\ results s = [] /\
   Forall (fun t => pc t = Waiting) (tasks s)) ->
  step s s' ->
  sem s' = 0 /\ results s' = [] /\
  Forall (fun t => pc t = Waiting) (tasks s').
Proof.
  intros Hw (Hsem & Hres & Hall) Hstep.
  destruct Hstep; cbn [sem results tasks] in *;
    try (apply Forall_app in Hall; destruct Hall as [_ Hall];
         inversion Hall as [|t ts' Ht _]; subst; discriminate Ht).
  - repeat split; try assumption.
    apply Forall_app. split; [exact Hall|]. now repeat constructor.
  - lia.
Qed.

Lemma idle_stuck (s : State F) :
  workers = 0 -> sem s = 0 -> pending s = [] ->
  Forall (fun t => pc t = Waiting) (tasks s) ->
  stuck L ToLower username sfThreads depth workers s.
Proof.
  intros Hw Hsem Hp Hall s' Hstep.
  destruct Hstep; cbn [sem pending tasks] in *;
    try discriminate Hp; try lia;
    apply Forall_app in Hall; destruct Hall as [_ Hall];
    inversion Hall as [|t ts' Ht _]; subst; discriminate Ht.
Qed.

(** The results and the goroutines past their send. *)
Lemma reportedGames_middle (ts1 ts2 : list Task) (g : GameData) (p : PC) :
  reportedGames (ts1 ++ {| game := g; pc := p |} :: ts2)%list
  = (reportedGames ts1
     ++ (if reported p then [g] else []) ++ reportedGames ts2)%list.
Proof.
  unfold reportedGames. rewrite filter_app, map_app. cbn [filter pc].
  now destruct (reported p).
Qed.

Lemma reportedGames_last (ts : list Task) (g : GameData) :
  reportedGames (ts ++ [{| game := g; pc := Waiting |}])%list
  = reportedGames ts.
Proof.
  rewrite reportedGames_middle. cbn [reported app].
  unfold reportedGames at 2. cbn [filter map]. now rewrite app_nil_r.
Qed.

Lemma reportedGames_finished (ts : list Task) :
  Forall (fun t => pc t = Finished) ts -> reportedGames ts = map game ts.
Proof.
  unfold reportedGames. induction 1 as [|t ts Ht _ IH]; [reflexivity|].
  cbn [filter]. rewrite Ht. cbn [reported map]. now rewrite IH.
Qed.

Lemma resultsOf_send (ts1 ts2 : list Task) (g : GameData) (p : PC)
    (ps ps' : list GameData) (n n' : Z) (rs : list (result F))
    (r : result F) :
  reported p = false ->
  analysisOf L ToLower username sfThreads depth g r ->
  resultsOf L ToLower username sfThreads depth
    (reportedGames (ts1 ++ {| game := g; pc := p |} :: ts2)%list)
    {| pending := ps; tasks := ts1 ++ {| game := g; pc := p |} :: ts2;
       sem := n; results := rs |} ->
  resultsOf L ToLower username sfThreads depth
    (reportedGames (ts1 ++ {| game := g; pc := Reporting |} :: ts2)%list)
    {| pending := ps';
       tasks := ts1 ++ {| game := g; pc := Reporting |} :: ts2;
       sem := n'; results := rs ++ [r] |}.
Proof.
  intros Hp Hr (rs' & Hperm & Hall). cbn [results] in *.
  rewrite reportedGames_middle in *. rewrite Hp in Hall.
  cbn [reported app] in *.
  apply Forall2_app_inv_l in Hall as (rs1 & rs2 & H1 & H2 & ->).
  exists (rs1 ++ r :: rs2)%list. split.
  - apply Permutation_trans with (r :: rs)%list.
    + apply Permutation_sym, Permutation_cons_append.
    + apply Permutation_cons_app. exact Hperm.
  - apply Forall2_app; [exact H1|]. now constructor.
Qed.

Lemma resultsOf_step (s s' : State F) :
  resultsOf L ToLower username sfThreads depth (reportedGames (tasks s)) s ->
  step s s' ->
  resultsOf L ToLower username sfThreads depth (reportedGames (tasks s')) s'.
Proof.
  intros H Hstep. destruct Hstep; cbn [tasks] in *.
  - rewrite reportedGames_last. exact H.
  - rewrite reportedGames_middle in *. exact H.
  - rewrite reportedGames_middle in *. exact H.
  - apply (resultsOf_send ts1 ts2 g Holding ps ps n n rs r);
      [reflexivity| |exact H].
    eexists _, _. eassumption.
  - apply (resultsOf_send ts1 ts2 g (InSession stdout) ps ps n n rs r);
      [reflexivity| |exact H].
    eexists _, _. eassumption.
  - rewrite reportedGames_middle in *. exact H.
Qed.

Lemma reachable_resultsOf (allGames : list GameData) (s : State F) :
  reachable allGames s ->
  resultsOf L ToLower username sfThreads depth (reportedGames (tasks s)) s.
Proof.
  induction 1 as [Hw|s s' _ IH Hstep].
  - exists []. split; constructor.
  - exact (resultsOf_step s s' IH Hstep).
Qed.

(** With a worker every run ends with every game analyzed. *)
Lemma run_analyses_all (allGames : list GameData) (s : State F) :
  1 <= workers ->
  reachable allGames s ->
  inevitably (allAnalysed L ToLower username sfThreads depth allGames) s.
Proof.
  intros Hw Hreach.
  pose proof (reachable_invariant L ToLower username sfThreads depth workers
                allGames s Hreach) as Hinv.
  pose proof (run_ends allGames s Hw Hinv (reachable_sessions allGames s Hreach))
    as Hend.
  apply (inevitably_invariant
           (fun s' =>
              invariant allGames s' /\
              resultsOf L ToLower username sfThreads depth
                        (reportedGames (tasks s')) s')) in Hend.
  - eapply inevitably_weaken; [|exact Hend].
    intros s' (((_ & _ & Hsub) & Hres) & Hp & Hfin). cbv beta in *.
    split; [exact Hp|]. split; [exact Hfin|].
    rewrite Hp, app_nil_r in Hsub. unfold submitted in Hsub.
    rewrite (reportedGames_finished _ Hfin), Hsub in Hres. exact Hres.
  - intros s1 s2 [H1 H2] Hstep. split.
    + exact (invariant_step L ToLower username sfThreads depth workers
               allGames s1 s2 H1 Hstep).
    + exact (resultsOf_step s1 s2 H2 Hstep).
  - split; [exact Hinv|]. exact (reachable_resultsOf allGames s Hreach).
Qed.

(** What is bound to hold holds in some state. *)
Lemma inevitably_somewhere (P : State F -> Prop) (s : State F) :
  inevitably P s -> exists s', P s'.
Proof.
  induction 1 as [s HP|s [s0 Hs0] _ IH]; [now exists s|].
  exact (IH s0 Hs0).
Qed.

Lemma idle_reachable (allGames : list GameData) (s : State F) :
  workers = 0 -> reachable allGames s ->
  sem s = 0 /\ results s = [] /\ Forall (fun t => pc t = Waiting) (tasks s).
Proof.
  intros Hw. induction 1 as [H0|s s' _ IH Hstep].
  - repeat split. constructor.
  - exact (idle_step s s' Hw IH Hstep).
Qed.

End SchedulerRuns.

(** C4 (amended). In every state of a batch run the goroutines that own a
    live engine session are among those inside [analyzeGame], and these are
    at most [workers]; the games are handed to goroutines in the order of
    the list, and on every run all of them end up handed out.  With at
    least one worker, and engines whose output ends, every run comes to an
    end where every goroutine has gone through [analyzeGame] and has
    returned, and [results] holds, in some order, one result of
    [analyzeGame] for each game of the list.  With [workers] at 0 no
    goroutine ever gets into [analyzeGame] and nothing is sent. *)
Theorem scheduler_bounded {F : Type} {ops : Float64Ops F}
    (L : chess.Library) (ToLower : string -> string) (username : string)
    (sfThreads depth workers : Z) (allGames : list GameData)
    (s : Scheduler.State F) :
  Scheduler.reachable L ToLower username sfThreads depth workers allGames s ->
  Scheduler.count Scheduler.inSession (Scheduler.tasks s)
  <= Scheduler.count Scheduler.analyzing (Scheduler.tasks s) /\
  Scheduler.count Scheduler.analyzing (Scheduler.tasks s) <= workers /\
  (Scheduler.submitted s ++ Scheduler.pending s)%list = allGames /\
  Scheduler.inevitably L ToLower username sfThreads depth workers
    (fun s' => Scheduler.pending s' = [] /\ Scheduler.submitted s' = allGames)
    s /\
  (1 <= workers ->
   Scheduler.inevitably L ToLower username sfThreads depth workers
     (allAnalysed L ToLower username sfThreads depth allGames) s) /\
  (workers = 0 ->
   Scheduler.count Scheduler.analyzing (Scheduler.tasks s) = 0 /\
   Scheduler.results s = []).
Proof.
  intros Hreach.
  destruct (reachable_invariant L ToLower username sfThreads depth workers
              allGames s Hreach) as (Hsem & Hle & Hsub).
  split.
  { apply count_le. now intros []. }
  split.
  { apply Z.le_trans with (Scheduler.count Scheduler.holds (Scheduler.tasks s)).
    - apply count_le. now intros [].
    - now rewrite <- Hsem. }
  split; [exact Hsub|].
  split; [now apply all_submitted|].
  split.
  - intros Hw.
    exact (run_analyses_all L ToLower username sfThreads depth workers
             allGames s Hw Hreach).
  - intros Hw.
    destruct (idle_reachable L ToLower username sfThreads depth workers
                allGames s Hw Hreach) as (_ & Hres & Hall).
    split; [|exact Hres].
    apply count_none. eapply Forall_impl; [|exact Hall].
    intros t Ht. now rewrite Ht.
Qed.

Lemma scheduler_bounded_witness :
  Scheduler.count Scheduler.inSession (Scheduler.tasks Stub.oneHolding)
  <= Scheduler.count Scheduler.analyzing (Scheduler.tasks Stub.oneHolding) /\
  Scheduler.count Scheduler.analyzing (Scheduler.tasks Stub.oneHolding) <= 1 /\
  (Scheduler.submitted Stub.oneHolding
   ++ Scheduler.pending Stub.oneHolding)%list
  = [Stub.fourMoves; Stub.rejectedSecond] /\
  Scheduler.inevitably Stub.lib strings.ToLower "hikaru" 1 4 1
    (fun s' => Scheduler.pending s' = [] /\
               Scheduler.submitted s'
               = [Stub.fourMoves; Stub.rejectedSecond])
    Stub.oneHolding /\
  Scheduler.inevitably Stub.lib strings.ToLower "hikaru" 1 4 1
    (allAnalysed Stub.lib strings.ToLower "hikaru" 1 4
                 [Stub.fourMoves; Stub.rejectedSecond])
    Stub.oneHolding.
Proof.
  destruct (scheduler_bounded (F := Q) Stub.lib strings.ToLower "hikaru" 1 4 1
              [Stub.fourMoves; Stub.rejectedSecond] Stub.oneHolding)
    as (H1 & H2 & H3 & H4 & H5 & _).
  - eapply Scheduler.reach_step.
    + eapply Scheduler.reach_step.
      * apply Scheduler.reach_init. lia.
      * apply Scheduler.step_go.
    + apply (Scheduler.step_acquire Stub.lib strings.ToLower "hikaru" 1 4 1
               [Stub.rejectedSecond] [] Stub.fourMoves [] 0 []).
      lia.
  - repeat split; try assumption. apply H5. lia.
Defined.

(** With [workers] at 0 and one game, the goroutine of the game stays at
    its send on [sem] on every run: the game never gets into
    [analyzeGame]. *)
Lemma scheduler_starves_without_worker :
  ~ everyLimitAnalysesAll (F := Q) Stub.lib strings.ToLower "hikaru" 1 4.
Proof.
  intros claim.
  assert (Hinit : Scheduler.reachable (F := Q) Stub.lib strings.ToLower
                    "hikaru" 1 4 0 [Stub.fourMoves]
                    (Scheduler.init [Stub.fourMoves]))
    by (apply Scheduler.reach_init; lia).
  pose proof (claim 0 [Stub.fourMoves] _ Hinit) as Hend.
  apply (inevitably_invariant Stub.lib strings.ToLower "hikaru" 1 4 0
           (fun s' =>
              Scheduler.invariant 0 [Stub.fourMoves] s' /\
              (Scheduler.sem s' = 0 /\ Scheduler.results s' = [] /\
               Forall (fun t => Scheduler.pc t = Scheduler.Waiting)
                      (Scheduler.tasks s')))) in Hend.
  - apply inevitably_somewhere in Hend
      as (s' & ((_ & _ & Hsub) & (_ & _ & Hwait)) & Hp & Hgone).
    rewrite Hp, app_nil_r in Hsub. unfold Scheduler.submitted in Hsub.
    destruct (Scheduler.tasks s') as [|t ts]; [discriminate Hsub|].
    inversion Hwait as [|? ? Ht _]; subst.
    inversion Hgone as [|? ? Hn _]; subst.
    rewrite Ht in Hn. discriminate Hn.
  - intros s1 s2 [H1 H2] Hstep. split.
    + exact (invariant_step Stub.lib strings.ToLower "hikaru" 1 4 0
               [Stub.fourMoves] s1 s2 H1 Hstep).
    + exact (idle_step Stub.lib strings.ToLower "hikaru" 1 4 0 s1 s2 eq_refl
               H2 Hstep).
  - split.
    + exact (reachable_invariant Stub.lib strings.ToLower "hikaru" 1 4 0
               [Stub.fourMoves] _ Hinit).
    + repeat split. constructor.
Qed.

(** X22. In every state of a batch run the channel [results] holds one
    value for each goroutine past its send, and never more than the number
    of games it was made for: no send on it has to wait. *)
Theorem scheduler_results_fit {F : Type} {ops : Float64Ops F}
    (L : chess.Library) (ToLower : string -> string) (username : string)
    (sfThreads depth workers : Z) (allGames : list GameData)
    (s : Scheduler.State F) :
  Scheduler.reachable L ToLower username sfThreads depth workers allGames s ->
  Z.of_nat (length (Scheduler.results s))
  = Scheduler.count reported (Scheduler.tasks s) /\
  (length (Scheduler.results s) <= length allGames)%nat.
Proof.
  intros Hreach.
  pose proof (reachable_buffer L ToLower username sfThreads depth workers
                allGames s Hreach) as Hbuf.
  destruct (reachable_invariant L ToLower username sfThreads depth workers
              allGames s Hreach) as (_ & _ & Hsub).
  split; [exact Hbuf|].
  pose proof (count_length reported (Scheduler.tasks s)) as Hle.
  rewrite <- Hsub, length_app. unfold Scheduler.submitted.
  rewrite length_map. lia.
Qed.

Lemma scheduler_results_fit_witness :
  Z.of_nat (length (Scheduler.results (F := Q) Stub.oneHolding))
  = Scheduler.count reported (Scheduler.tasks Stub.oneHolding) /\
  (length (Scheduler.results (F := Q) Stub.oneHolding)
   <= length [Stub.fourMoves; Stub.rejectedSecond])%nat.
Proof.
  apply (scheduler_results_fit (F := Q) Stub.lib strings.ToLower "hikaru"
           1 4 1 [Stub.fourMoves; Stub.rejectedSecond] Stub.oneHolding).
  eapply Scheduler.reach_step.
  - eapply Scheduler.reach_step.
    + apply Scheduler.reach_init. lia.
    + apply Scheduler.step_go.
  - apply (Scheduler.step_acquire Stub.lib strings.ToLower "hikaru" 1 4 1
             [Stub.rejectedSecond] [] Stub.fourMoves [] 0 []).
    lia.
Defined.

(** X23. With at least one worker every batch run comes to an end, and
    at its end every game has been handed to a goroutine, every goroutine
    has returned, [sem] is empty and [results] holds one value per game. *)
Theorem scheduler_completes {F : Type} {ops : Float64Ops F}
    (L : chess.Library) (ToLower : string -> string) (username : string)
    (sfThreads depth workers : Z) (allGames : list GameData)
    (s : Scheduler.State F) :
  1 <= workers ->
  Scheduler.reachable L ToLower username sfThreads depth workers allGames s ->
  Scheduler.inevitably L ToLower username sfThreads depth workers
    (fun s' =>
       Scheduler.pending s' = [] /\
       Scheduler.submitted s' = allGames /\
       Forall (fun t => Scheduler.pc t = Scheduler.Finished)
              (Scheduler.tasks s') /\
       Scheduler.sem s' = 0 /\
       length (Scheduler.results s') = length allGames)
    s.
Proof.
  intros Hw Hreach.
  pose proof (reachable_invariant L ToLower username sfThreads depth workers
                allGames s Hreach) as Hinv.
  pose proof (reachable_buffer L ToLower username sfThreads depth workers
                allGames s Hreach) as Hbuf.
  pose proof (reachable_sessions L ToLower username sfThreads depth workers
                allGames s Hreach) as Hret.
  pose proof (run_ends L ToLower username sfThreads depth workers
                allGames s Hw Hinv Hret) as Hend.
  apply (inevitably_invariant L ToLower username sfThreads depth workers
           (fun s' =>
              Scheduler.invariant workers allGames s' /\
              Z.of_nat (length (Scheduler.results s'))
              = Scheduler.count reported (Scheduler.tasks s'))) in Hend.
  - eapply inevitably_weaken; [|exact Hend].
    intros s' (((Hsem & _ & Hsub) & Hb) & Hp & Hfin). cbv beta in *.
    destruct (finished_counts _ Hfin) as [Hh Hr].
    rewrite Hp, app_nil_r in Hsub.
    assert (Hlen : length allGames = length (Scheduler.tasks s')).
    { rewrite <- Hsub. unfold Scheduler.submitted. now rewrite length_map. }
    repeat split; try assumption; lia.
  - intros s1 s2 [H1 H2] Hstep. split.
    + exact (invariant_step L ToLower username sfThreads depth workers
               allGames s1 s2 H1 Hstep).
    + exact (buffer_step L ToLower username sfThreads depth workers
               s1 s2 H2 Hstep).
  - now split.
Qed.

Lemma scheduler_completes_witness :
  Scheduler.inevitably (F := Q) Stub.lib strings.ToLower "hikaru" 1 4 1
    (fun s' =>
       Scheduler.pending s' = [] /\
       Scheduler.submitted s' = [Stub.fourMoves; Stub.rejectedSecond] /\
       Forall (fun t => Scheduler.pc t = Scheduler.Finished)
              (Scheduler.tasks s') /\
       Scheduler.sem s' = 0 /\
       length (Scheduler.results s')
       = length [Stub.fourMoves; Stub.rejectedSecond])
    Stub.oneHolding.
Proof.
  apply (scheduler_completes (F := Q) Stub.lib strings.ToLower "hikaru"
           1 4 1 [Stub.fourMoves; Stub.rejectedSecond] Stub.oneHolding);
    [lia|].
  eapply Scheduler.reach_step.
  - eapply Scheduler.reach_step.
    + apply Scheduler.reach_init. lia.
    + apply Scheduler.step_go.
  - apply (Scheduler.step_acquire Stub.lib strings.ToLower "hikaru" 1 4 1
             [Stub.rejectedSecond] [] Stub.fourMoves [] 0 []).
    lia.
Defined.

(** X24. With [workers] at 0 the channel [sem] has no buffer: in every
    state of a run every goroutine started so far is still at its send on
    [sem] and nothing has been sent on [results]; every run comes to a
    state where all the games are handed out and no goroutine can move. *)
Theorem scheduler_no_worker {F : Type} {ops : Float64Ops F}
    (L : chess.Library) (ToLower : string -> string) (username : string)
    (sfThreads depth workers : Z) (allGames : list GameData)
    (s : Scheduler.State F) :
  workers = 0 ->
  Scheduler.reachable L ToLower username sfThreads depth workers allGames s ->
  Scheduler.results s = [] /\
  Forall (fun t => Scheduler.pc t = Scheduler.Waiting) (Scheduler.tasks s) /\
  Scheduler.inevitably L ToLower username sfThreads depth workers
    (fun s' =>
       Scheduler.submitted s' = allGames /\
       Scheduler.results s' = [] /\
       Forall (fun t => Scheduler.pc t = Scheduler.Waiting)
              (Scheduler.tasks s') /\
       stuck L ToLower username sfThreads depth workers s')
    s.
Proof.
  intros Hw Hreach.
  assert (Hidle : Scheduler.sem s = 0 /\ Scheduler.results s = [] /\
                  Forall (fun t => Scheduler.pc t = Scheduler.Waiting)
                         (Scheduler.tasks s)).
  { induction Hreach as [H0|s s' _ IH Hstep].
    - repeat split. constructor.
    - exact (idle_step L ToLower username sfThreads depth workers
               s s' Hw IH Hstep). }
  destruct (reachable_invariant L ToLower username sfThreads depth workers
              allGames s Hreach) as (_ & _ & Hsub).
  split; [apply Hidle|]. split; [apply Hidle|].
  pose proof (all_submitted L ToLower username sfThreads depth workers
                allGames s Hsub) as Hend.
  apply (inevitably_invariant L ToLower username sfThreads depth workers
           (fun s' =>
              Scheduler.sem s' = 0 /\ Scheduler.results s' = [] /\
              Forall (fun t => Scheduler.pc t = Scheduler.Waiting)
                     (Scheduler.tasks s'))) in Hend.
  - eapply inevitably_weaken; [|exact Hend].
    intros s' ((Hsem & Hres & Hall) & Hp & Hs). cbv beta in *.
    repeat split; try assumption.
    now apply idle_stuck.
  - intros s1 s2 H1 Hstep.
    exact (idle_step L ToLower username sfThreads depth workers
             s1 s2 Hw H1 Hstep).
  - exact Hidle.
Qed.

Lemma scheduler_no_worker_witness :
  Scheduler.results (F := Q)
    {| Scheduler.pending := [Stub.rejectedSecond];
       Scheduler.tasks :=
         [{| Scheduler.game := Stub.fourMoves;
             Scheduler.pc := Scheduler.Waiting |}];
       Scheduler.sem := 0; Scheduler.results := [] |} = [] /\
  Forall (fun t => Scheduler.pc t = Scheduler.Waiting)
    [{| Scheduler.game := Stub.fourMoves;
        Scheduler.pc := Scheduler.Waiting |}] /\
  Scheduler.inevitably (F := Q) Stub.lib strings.ToLower "hikaru" 1 4 0
    (fun s' =>
       Scheduler.submitted s' = [Stub.fourMoves; Stub.rejectedSecond] /\
       Scheduler.results s' = [] /\
       Forall (fun t => Scheduler.pc t = Scheduler.Waiting)
              (Scheduler.tasks s') /\
       stuck Stub.lib strings.ToLower "hikaru" 1 4 0 s')
    {| Scheduler.pending := [Stub.rejectedSecond];
       Scheduler.tasks :=
         [{| Scheduler.game := Stub.fourMoves;
             Scheduler.pc := Scheduler.Waiting |}];
       Scheduler.sem := 0; Scheduler.results := [] |}.
Proof.
  apply (scheduler_no_worker (F := Q) Stub.lib strings.ToLower "hikaru"
           1 4 0 [Stub.fourMoves; Stub.rejectedSecond]
           {| Scheduler.pending := [Stub.rejectedSecond];
              Scheduler.tasks :=
                [{| Scheduler.game := Stub.fourMoves;
                    Scheduler.pc := Scheduler.Waiting |}];
              Scheduler.sem := 0; Scheduler.results := [] |});
    [reflexivity|].
  eapply Scheduler.reach_step.
  - apply Scheduler.reach_init. lia.
  - apply (Scheduler.step_go Stub.lib strings.ToLower "hikaru" 1 4 0
             Stub.fourMoves [Stub.rejectedSecond] [] 0 []).
Defined.

(** X25. In every state of a batch run every value sent on [results] is
    what [analyzeGame] returns for one of the games of the batch. *)
Theorem scheduler_results_origin {F : Type} {ops : Float64Ops F}
    (L : chess.Library) (ToLower : string -> string) (username : string)
    (sfThreads depth workers : Z) (allGames : list GameData)
    (s : Scheduler.State F) :
  Scheduler.reachable L ToLower username sfThreads depth workers allGames s ->
  Forall
    (fun r =>
       exists g os sess,
         In g allGames /\
         analyzeGame L ToLower g username sfThreads depth os = Some (r, sess))
    (Scheduler.results s).
Proof.
  induction 1 as [Hw|s s' Hreach IH Hstep]; [constructor|].
  destruct (reachable_invariant L ToLower username sfThreads depth workers
              allGames s Hreach) as (_ & _ & Hsub).
  destruct Hstep; cbn [Scheduler.results] in *; try exact IH;
    (apply Forall_app; split; [exact IH|]; constructor; [|constructor];
     eexists g, _, _; split; [|eassumption];
     rewrite <- Hsub; unfold Scheduler.submitted;
     cbn [Scheduler.tasks Scheduler.pending];
     rewrite map_app; cbn [map Scheduler.game];
     apply in_or_app; left; apply in_or_app; right; now left).
Qed.

Lemma scheduler_results_origin_witness :
  Forall
    (fun r =>
       exists g os sess,
         In g [Stub.fourMoves] /\
         analyzeGame (F := Q) Stub.lib strings.ToLower g "hikaru" 1 4 os
         = Some (r, sess))
    [absent].
Proof.
  apply (scheduler_results_origin (F := Q) Stub.lib strings.ToLower "hikaru"
           1 4 1 [Stub.fourMoves]
           {| Scheduler.pending := [];
              Scheduler.tasks :=
                [{| Scheduler.game := Stub.fourMoves;
                    Scheduler.pc := Scheduler.Reporting |}];
              Scheduler.sem := 1; Scheduler.results := [absent] |}).
  eapply Scheduler.reach_step.
  - eapply Scheduler.reach_step.
    + eapply Scheduler.reach_step.
      * apply Scheduler.reach_init. lia.
      * apply Scheduler.step_go.
    + apply (Scheduler.step_acquire Stub.lib strings.ToLower "hikaru" 1 4 1
               [] [] Stub.fourMoves [] 0 []).
      lia.
  - apply (Scheduler.step_skip Stub.lib strings.ToLower "hikaru" 1 4 1
             [] [] Stub.fourMoves [] 1 [] (StartFails "exec: not found")
             absent (StartFailed "exec: not found")).
    + now vm_compute.
    + discriminate.
Defined.

(** X26. [fetchGames] sets a header on the request without looking at the
    error of [http.NewRequest]: when the loop comes to an archive whose
    address is refused while it still holds fewer than [maxGames] games,
    [main] panics there, and no game is analyzed. *)
Theorem gatherGames_refused (fetch : string -> option (list GameData))
    (before : list string) (url : string) (after : list string)
    (maxGames : Z) :
  Forall (fun u => Index u "/" <> -1) before ->
  Z.of_nat (length (gamesOf fetch before)) < maxGames ->
  fetch url = None ->
  gatherGames fetch (before ++ url :: after)%list maxGames = None.
Proof.
  intros Hslash Hfew Hnone. unfold gatherGames.
  rewrite (fetchLoop_panics fetch before url after maxGames Hslash
             (or_introl Hnone) [] []); [reflexivity|exact Hfew].
Qed.

Lemma gatherGames_refused_witness :
  gatherGames fetchSample [february; refused; january] 3 = None.
Proof.
  apply (gatherGames_refused fetchSample [february] refused [january] 3).
  - repeat (constructor; [now vm_compute|]). constructor.
  - now vm_compute.
  - now vm_compute.
Defined.
